(** * tinytemplatec: the template compiler of [src/index.ts]

    A shallow embedding of the compiler pipeline

      template text --parse--> forest of VNodes
                    --compileNode (with detectStaticNodes, compileProps)--> code
                    --saferEval--> render function

    and the theorems that settle the specification's claims about it.

    Conventions of the embedding.
    - JavaScript strings are [string]s (characters are code units below 256).
      In comments, Q stands for the double quote.
    - A [RegExp] is a syntax tree [re] run by a backtracking matcher that
      follows the ECMAScript matcher: alternatives and quantifiers are tried in
      priority order and the first success wins.  The [lastIndex] of a pattern
      with the [g] flag is passed explicitly.
    - An object used as a dictionary ([Dict]) is the list of its own properties
      in enumeration order: the names that are array indices first, in
      ascending order, then the other names in the order of their creation
      ([prop_set]).  It is a plain object: [in] also finds the properties of
      [Object.prototype] ([js_in]), and an assignment to [__proto__] stores
      nothing.
    - The patterns of the options: [interpolationRegex] has its [g] flag;
      [dataBindingRegex] is taken without the [g] and [y] flags, and the two
      places that run it are written out for a pattern with the [g] flag as
      well ([no_bindings_g], [compileProps_g]).
    - Mutation of a node is explicit state passing: a function that mutates its
      argument returns the mutated node next to its result, and a closure over
      the node is handed the node in its current state.
    - [Math.random] is a sequence of draws, and the state is the number of
      draws made.
    - A call returns, throws, or runs out of the fuel that bounds a loop
      ([Res]); the loops of the program are shown to end before their fuel.
      The depth of recursion is not bounded, as in the language; the limit of
      an engine's call stack is not described.  A run that calls a built-in
      function of the engine in the place of a directive handler is marked
      as such ([Beyond]) and not followed. *)

From Stdlib Require Import Strings.String Strings.Ascii Lists.List.
From Stdlib Require Import Arith.Arith Bool.Bool ZArith.ZArith Lia.
From Stdlib Require Import Numbers.DecimalString.
Import ListNotations.
Open Scope string_scope.

Set Implicit Arguments.

(* ================================================================== *)
(** * Strings *)

Module JsString.

(** The double quote, which a string literal cannot hold. *)
Definition dq : ascii := "034"%char.
Definition q : string := String dq "".

(** ECMAScript [WhiteSpace] and [LineTerminator] below code 256: what
    [\s] matches and what [trim] strips. *)
Definition is_space (c : ascii) : bool :=
  let n := nat_of_ascii c in
  (((9 <=? n) && (n <=? 13)) || (n =? 32) || (n =? 160))%nat.

(** [\w] *)
Definition is_word (c : ascii) : bool :=
  let n := nat_of_ascii c in
  (((48 <=? n) && (n <=? 57)) || ((65 <=? n) && (n <=? 90))
   || ((97 <=? n) && (n <=? 122)) || (n =? 95))%nat.

(** [.] without the [s] flag: anything but a line terminator. *)
Definition is_line_terminator (c : ascii) : bool :=
  let n := nat_of_ascii c in ((n =? 10) || (n =? 13))%nat.

(** [s.slice(n)] for [0 <= n]. *)
Fixpoint slice (n : nat) (s : string) : string :=
  match n, s with
  | 0, _ => s
  | S n', String _ t => slice n' t
  | S _, EmptyString => EmptyString
  end.

(** [s.substr(0, n)] *)
Definition substr0 (n : nat) (s : string) : string := substring 0 n s.

Fixpoint trimStart (s : string) : string :=
  match s with
  | String c t => if is_space c then trimStart t else s
  | EmptyString => EmptyString
  end.

Fixpoint trimEnd (s : string) : string :=
  match s with
  | String c t =>
      match trimEnd t with
      | EmptyString => if is_space c then EmptyString else String c EmptyString
      | t' => String c t'
      end
  | EmptyString => EmptyString
  end.

(** [s.trim()] *)
Definition trim (s : string) : string := trimEnd (trimStart s).

(** [l.join(sep)] *)
Fixpoint join (sep : string) (l : list string) : string :=
  match l with
  | [] => ""
  | [x] => x
  | x :: t => x ++ sep ++ join sep t
  end.

(** Every character of [s] satisfies [p]. *)
Fixpoint all_chars (p : ascii -> bool) (s : string) : bool :=
  match s with
  | String c t => p c && all_chars p t
  | EmptyString => true
  end.

(** [s] is empty or starts with a character that does not satisfy [p]. *)
Definition starts_outside (p : ascii -> bool) (s : string) : bool :=
  match s with
  | String c _ => negb (p c)
  | EmptyString => true
  end.

(** Truthiness of a string: the empty string is falsy. *)
Definition truthy (s : string) : bool :=
  match s with EmptyString => false | _ => true end.

(** A string inside a template literal; [undefined] prints as such. *)
Definition tmpl (o : option string) : string :=
  match o with Some s => s | None => "undefined" end.

End JsString.

(* ================================================================== *)
(** * Regular expressions *)

Module RegExp.

(** An item of a character class. *)
Inductive citem : Type :=
| CChar (c : ascii)
| CSpace                  (* \s *)
| CWord.                  (* \w *)

Inductive re : Type :=
| Eps
| Lit (c : ascii)
| Cls (neg : bool) (items : list citem)   (* [...] and [^...] *)
| Dot
| Seq (a b : re)
| Alt (a b : re)
| Star (greedy : bool) (a : re)           (* a* and a*? *)
| Grp (n : nat) (a : re)                  (* the n-th capturing group *)
| Bol                                     (* ^ *)
| Eol.                                    (* $ *)

Definition Plus (g : bool) (a : re) : re := Seq a (Star g a).
Definition Opt (a : re) : re := Alt a Eps.

(** A literal string. *)
Fixpoint Str (s : string) : re :=
  match s with
  | EmptyString => Eps
  | String c EmptyString => Lit c
  | String c t => Seq (Lit c) (Str t)
  end.

Definition in_item (b : ascii) (it : citem) : bool :=
  match it with
  | CChar c => Ascii.eqb c b
  | CSpace => JsString.is_space b
  | CWord => JsString.is_word b
  end.

Definition in_class (neg : bool) (items : list citem) (b : ascii) : bool :=
  xorb neg (existsb (in_item b) items).

(** The capturing groups inside an expression: a quantifier resets them at
    every iteration. *)
Fixpoint groups (r : re) : list nat :=
  match r with
  | Seq a b | Alt a b => (groups a ++ groups b)%list
  | Star _ a => groups a
  | Grp n a => n :: groups a
  | _ => []
  end.

(** An expression that cannot match the empty string. *)
Fixpoint consumes (r : re) : bool :=
  match r with
  | Lit _ | Cls _ _ | Dot => true
  | Seq a b => consumes a || consumes b
  | Alt a b => consumes a && consumes b
  | Grp _ a => consumes a
  | _ => false
  end.

Definition caps : Type := list (nat * string).

Fixpoint cap_get (n : nat) (c : caps) : option string :=
  match c with
  | [] => None
  | (m, s) :: t => if Nat.eqb n m then Some s else cap_get n t
  end.

Definition cap_clear (gs : list nat) (c : caps) : caps :=
  filter (fun p => negb (existsb (Nat.eqb (fst p)) gs)) c.

Section Matcher.
Variable A : Type.

(** A continuation receives the rest of the input, the position reached
    and the captures. *)
Definition cont : Type := string -> nat -> caps -> option A.

Definition one (p : ascii -> bool) (s : string) (i : nat) (c : caps)
           (k : cont) : option A :=
  match s with
  | String b t => if p b then k t (S i) c else None
  | EmptyString => None
  end.

(** The iterations of a quantifier [a*] ([g]: greedy) whose body is run by
    [ma].  An iteration that consumes nothing is rejected, so [n], the length
    of the input at the start, bounds the number of iterations. *)
Fixpoint star_loop (ma : string -> nat -> caps -> cont -> option A)
  (g : bool) (k : cont) (n : nat) (s : string) (i : nat) (c : caps)
  {struct n} : option A :=
  match n with
  | 0 => k s i c
  | S n' =>
      let iter (_ : unit) :=
        ma s i c
          (fun s' i' c' =>
             if (String.length s' <? String.length s)%nat
             then star_loop ma g k n' s' i' c' else None) in
      if g then
        match iter tt with Some x => Some x | None => k s i c end
      else
        match k s i c with Some x => Some x | None => iter tt end
  end.

Fixpoint rmatch (r : re) (s : string) (i : nat) (c : caps) (k : cont)
  {struct r} : option A :=
  match r with
  | Eps => k s i c
  | Lit a => one (Ascii.eqb a) s i c k
  | Cls neg items => one (in_class neg items) s i c k
  | Dot => one (fun b => negb (JsString.is_line_terminator b)) s i c k
  | Seq a b => rmatch a s i c (fun s' i' c' => rmatch b s' i' c' k)
  | Alt a b =>
      match rmatch a s i c k with
      | Some x => Some x
      | None => rmatch b s i c k
      end
  | Star g a =>
      star_loop
        (fun s' i' c' k' => rmatch a s' i' (cap_clear (groups a) c') k')
        g k (String.length s) s i c
  | Grp n a =>
      rmatch a s i c
        (fun s' i' c' => k s' i' ((n, substring 0 (i' - i) s) :: c'))
  | Bol => if (i =? 0)%nat then k s i c else None
  | Eol => match s with EmptyString => k s i c | _ => None end
  end.
End Matcher.

(** What a successful run of a matcher [m] at position [i] tells: it called
    its continuation on a suffix of the input, at the position that the
    consumed prefix [p] leads to; [strict] asks for [p] not to be empty. *)
Definition sound (A : Type) (strict : bool)
  (m : string -> nat -> caps -> cont A -> option A) : Prop :=
  forall s i c k x,
    m s i c k = Some x ->
    exists p s' c',
      s = p ++ s' /\ k s' (i + String.length p) c' = Some x /\
      (strict = true -> p <> "").

(** The result of a successful [exec]: [m[0]], [m.index], the captures, and
    the input that follows the match. *)
Record Match : Type := mkMatch {
  m_index : nat;
  m_text : string;
  m_caps : caps;
  m_rest : string
}.

(** [m[n]] for [n >= 1]; [None] is [undefined]. *)
Definition cap (m : Match) (n : nat) : option string := cap_get n (m_caps m).

(** A match that starts exactly at position [i], where [s] is the input
    from [i] on. *)
Definition match_at (r : re) (s : string) (i : nat) : option Match :=
  rmatch r s i []
    (fun s' i' c' => Some (mkMatch i (substring 0 (i' - i) s) c' s')).

(** The leftmost match at or after position [i]. *)
Fixpoint exec_from (r : re) (s : string) (i : nat) : option Match :=
  match match_at r s i with
  | Some m => Some m
  | None =>
      match s with
      | String _ t => exec_from r t (S i)
      | EmptyString => None
      end
  end.

(** [r.exec(s)] for a pattern without the [g] and [y] flags: the search
    starts at 0 and leaves no state behind. *)
Definition exec (r : re) (s : string) : option Match := exec_from r s 0.

(** [s.search(r)]: the index of the first match, or -1. *)
Definition search (r : re) (s : string) : Z :=
  match exec r s with
  | Some m => Z.of_nat (m_index m)
  | None => (-1)%Z
  end.

(** [r.exec(s)] for a pattern with the [g] flag, whose [lastIndex] is the
    state of the RegExp object: the search starts there; a match moves
    [lastIndex] to its end, a failure resets it to 0. *)
Definition exec_g (r : re) (s : string) (lastIndex : nat)
  : option Match * nat :=
  if (String.length s <? lastIndex)%nat then (None, 0)
  else
    match exec_from r (JsString.slice lastIndex s) lastIndex with
    | Some m => (Some m, m_index m + String.length (m_text m))
    | None => (None, 0)
    end.

(** [s.replace(r, f)] for a pattern with the [g] flag: every match, found
    left to right, is replaced by [f m]; after an empty match the search
    moves on by one character.  [s] is the input from position [i] on. *)
Fixpoint replace_from (fuel : nat) (r : re) (f : Match -> string)
  (s : string) (i : nat) : string :=
  match fuel with
  | 0 => s
  | S fuel' =>
      match exec_from r s i with
      | None => s
      | Some m =>
          JsString.substr0 (m_index m - i) s ++ f m ++
          match m_text m, m_rest m with
          | EmptyString, String c t =>
              String c (replace_from fuel' r f t (S (m_index m)))
          | EmptyString, EmptyString => EmptyString
          | _, rest =>
              replace_from fuel' r f rest (m_index m + String.length (m_text m))
          end
      end
  end.

Definition replace_g (r : re) (f : Match -> string) (s : string) : string :=
  replace_from (S (String.length s)) r f s 0.

(** [s.replace(r, f)] for a pattern without the [g] flag: the first match
    only. *)
Definition replace_first (r : re) (f : Match -> string) (s : string)
  : string :=
  match exec r s with
  | None => s
  | Some m => JsString.substr0 (m_index m) s ++ f m ++ m_rest m
  end.

(** A RegExp object handed to [String.prototype.replace]. *)
Record JsRegExp : Type := mkRegExp { source : re; global : bool }.

Definition replace (r : JsRegExp) (f : Match -> string) (s : string) : string :=
  if global r then replace_g (source r) f s else replace_first (source r) f s.

Fixpoint cat (l : list re) : re :=
  match l with
  | [] => Eps
  | [x] => x
  | x :: t => Seq x (cat t)
  end.

End RegExp.

Import RegExp.

(* ================================================================== *)
(** * The pattern library: [const regex = {...}] *)

Module regex.

(** The source's patterns, each under its literal; in these comments Q
    stands for the double quote and a blank separates a star from a closing
    parenthesis. *)

(** [\s*] *)
Definition ws : re := Star true (Cls false [CSpace]).

(** [[^\s\/<>=Q']] *)
Definition nameChar : re :=
  Cls true [CSpace; CChar "/"; CChar "<"; CChar ">"; CChar "=";
            CChar JsString.dq; CChar "'"].

(** [((?:[^\s\/<>=Q']+(?:=Q[^Q]* Q)?\s* )+)?] *)
Definition rawAttributes : re :=
  Opt (Grp 2
    (Plus true
      (cat [Plus true nameChar;
            Opt (cat [Lit "="; Lit JsString.dq;
                      Star true (Cls true [CChar JsString.dq]);
                      Lit JsString.dq]);
            ws]))).

(** [/<\s*\/?\s*([^\s\/<>=Q']+)\s*((?:[^\s\/<>=Q']+(?:=Q[^Q]* Q)?\s* )+)?\s*(\/)?\s*>/] *)
Definition anyTag : re :=
  cat [Lit "<"; ws; Opt (Lit "/"); ws; Grp 1 (Plus true nameChar); ws;
       rawAttributes; ws; Opt (Grp 3 (Lit "/")); ws; Lit ">"].

(** [/<\/\s*(\w+)\s*>/] *)
Definition endTag : re :=
  cat [Lit "<"; Lit "/"; ws; Grp 1 (Plus true (Cls false [CWord])); ws;
       Lit ">"].

(** [/<\s*([^\s\/<>=Q']+)\s*((?:[^\s\/<>=Q']+(?:=Q[^Q]* Q)?\s* )+)?\s*(\/)?\s*>/] *)
Definition openingTag : re :=
  cat [Lit "<"; ws; Grp 1 (Plus true nameChar); ws;
       rawAttributes; ws; Opt (Grp 3 (Lit "/")); ws; Lit ">"].

(** [[^\s/Q'=]]: a character of an attribute's name. *)
Definition attrChar : ascii -> bool :=
  in_class true [CSpace; CChar "/"; CChar JsString.dq; CChar "'"; CChar "="].

(** What cannot follow an attribute written without a value: a character
    of a name, or the equals sign. *)
Definition afterFlag : ascii -> bool :=
  fun c => attrChar c || Ascii.eqb c "=".

(** [[^Q]]: a character of an attribute's value. *)
Definition valueChar : ascii -> bool := in_class true [CChar JsString.dq].

(** [/([^\s/Q'=]+)(?:=Q([^Q]* )Q)?/g] *)
Definition attributes : re :=
  cat [Grp 1 (Plus true
         (Cls true [CSpace; CChar "/"; CChar JsString.dq; CChar "'";
                    CChar "="]));
       Opt (cat [Lit "="; Lit JsString.dq;
                 Grp 2 (Star true (Cls true [CChar JsString.dq]));
                 Lit JsString.dq])].

(** [=QQ]: how an attribute is given the empty string as its value. *)
Definition emptyValue : string := "=" ++ JsString.q ++ JsString.q.

(** [/<!--.+-->/g] *)
Definition comments : JsRegExp :=
  mkRegExp (cat [Str "<!--"; Plus true Dot; Str "-->"]) true.

End regex.

(* ================================================================== *)
(** * Results *)

(** What a call does: it returns, it throws, or (in the model only) the
    fuel of a loop ran out.  [Beyond] marks a run that leaves the code of the
    repository: it takes a property of [Object.prototype] for a directive
    handler and calls it (see [first_directive]), and what happens from there
    on is not described. *)
Inductive Res (A : Type) : Type :=
| Ok (a : A)
| Throw (msg : string)
| OutOfFuel
| Beyond.
Arguments Ok {A} a.
Arguments Throw {A} msg.
Arguments OutOfFuel {A}.
Arguments Beyond {A}.

Definition bind {A B} (x : Res A) (f : A -> Res B) : Res B :=
  match x with
  | Ok a => f a
  | Throw msg => Throw msg
  | OutOfFuel => OutOfFuel
  | Beyond => Beyond
  end.

Notation "x <- e ;; k" := (bind e (fun x => k))
  (at level 61, e at next level, right associativity).
Notation "' p <- e ;; k" := (bind e (fun p => k))
  (at level 61, p pattern, e at next level, right associativity).

(* ================================================================== *)
(** * Data model *)

(** [interface Dict<T>]: own properties in enumeration order. *)
Definition Dict (T : Type) : Type := list (string * T).

Definition keys {T} (d : Dict T) : list string := map fst d.

Fixpoint dict_get {T} (k : string) (d : Dict T) : option T :=
  match d with
  | [] => None
  | (k', v) :: t => if String.eqb k k' then Some v else dict_get k t
  end.

(** [k] is an own property of [d]. *)
Definition dict_in {T} (k : string) (d : Dict T) : bool :=
  match dict_get k d with Some _ => true | None => false end.

(** The properties that every plain object has from [Object.prototype]. *)
Definition Object_prototype : list string :=
  ["constructor"; "__defineGetter__"; "__defineSetter__"; "hasOwnProperty";
   "__lookupGetter__"; "__lookupSetter__"; "isPrototypeOf";
   "propertyIsEnumerable"; "toString"; "valueOf"; "__proto__";
   "toLocaleString"].

Definition inherited (k : string) : bool :=
  existsb (String.eqb k) Object_prototype.

(** [k in d] for a plain object [d] (an object literal, or what [parseProps]
    returns): an own property, or one of [Object.prototype]. *)
Definition js_in {T} (k : string) (d : Dict T) : bool :=
  dict_in k d || inherited k.

(** [d[k] = v] for a name that is neither an array index nor [__proto__]: an
    existing property keeps its place, a new one goes last. *)
Fixpoint dict_set {T} (k : string) (v : T) (d : Dict T) : Dict T :=
  match d with
  | [] => [(k, v)]
  | (k', v') :: t =>
      if String.eqb k k' then (k, v) :: t else (k', v') :: dict_set k v t
  end.

Definition is_digit (c : ascii) : bool :=
  ((48 <=? nat_of_ascii c) && (nat_of_ascii c <=? 57))%nat.

Fixpoint digits_value (s : string) (acc : N) : N :=
  match s with
  | EmptyString => acc
  | String c t =>
      digits_value t (10 * acc + N.of_nat (nat_of_ascii c - 48))%N
  end.

(** An array index: the canonical decimal form of an integer below
    [2^32 - 1].  An object enumerates its properties of this kind first, in
    ascending order, and the others after them in the order of creation. *)
Definition array_index (k : string) : option N :=
  match k with
  | EmptyString => None
  | String c t =>
      if JsString.all_chars is_digit k &&
         (negb (Ascii.eqb c "0"%char) || String.eqb t "")
      then if (digits_value k 0 <? 4294967295)%N
           then Some (digits_value k 0) else None
      else None
  end.

(** A new array index [n] goes before the first property that is no smaller
    array index. *)
Fixpoint insert_index {T} (n : N) (k : string) (v : T) (d : Dict T)
  : Dict T :=
  match d with
  | [] => [(k, v)]
  | (k', v') :: t =>
      match array_index k' with
      | Some n' =>
          if (n' <? n)%N then (k', v') :: insert_index n k v t
          else (k, v) :: d
      | None => (k, v) :: d
      end
  end.

(** [d[k] = v] on a plain object, for a value [v] that is not an object:
    [__proto__] is the accessor of [Object.prototype], whose setter ignores
    such a value, so that nothing is stored; an existing property keeps its
    place; a new array index goes among the array indices; any other new
    property goes last. *)
Definition prop_set {T} (k : string) (v : T) (d : Dict T) : Dict T :=
  if String.eqb k "__proto__" then d
  else if dict_in k d then dict_set k v d
  else match array_index k with
       | Some n => insert_index n k v d
       | None => dict_set k v d
       end.

(** [delete d[k]] *)
Fixpoint dict_delete {T} (k : string) (d : Dict T) : Dict T :=
  match d with
  | [] => []
  | (k', v') :: t =>
      if String.eqb k k' then t else (k', v') :: dict_delete k t
  end.

(** The value of a prop as [parseProps] stores it: the attribute's text, or
    the boolean [true]. *)
Inductive Value : Type :=
| VStr (s : string)
| VTrue.

(** A prop value inside a template literal or a string concatenation. *)
Definition to_string (v : Value) : string :=
  match v with VStr s => s | VTrue => "true" end.

#[local] Set Warnings "-register-all".

(** [interface VNode].  [static] is unset until [detectStaticNodes] stores
    it; [nodeValue] is present on text nodes only. *)
Inductive VNode : Type := mkVNode {
  type : string;
  props : Dict Value;
  children : list VNode;
  static : option bool;
  nodeValue : option string
}.

Definition set_static (b : bool) (vn : VNode) : VNode :=
  mkVNode (type vn) (props vn) (children vn) (Some b) (nodeValue vn).

Definition set_props (p : Dict Value) (vn : VNode) : VNode :=
  mkVNode (type vn) p (children vn) (static vn) (nodeValue vn).

Definition set_children (ch : list VNode) (vn : VNode) : VNode :=
  mkVNode (type vn) (props vn) ch (static vn) (nodeValue vn).

(** The node-construction function [h(type, props, children?)] as [parse]
    calls it: [h('#text', null, text)] and [h(tag, props)]. *)
Definition NodeConstructor : Type :=
  string -> option (Dict Value) -> option string -> VNode.

(** Modelled from the spec: the host library's node-construction function and
    the [append] method of the nodes it returns are not part of the
    repository.  A node is created with its type and props, without children
    and with [static] unset; a text node carries its raw text as [nodeValue]
    (and [null] props, which nothing reads). *)
Definition host_h : NodeConstructor :=
  fun ty ps text =>
    mkVNode ty (match ps with Some p => p | None => [] end) [] None
      (if String.eqb ty "#text" then text else None).

(** Modelled from the spec: [container.append(c)] adds [c] as the last
    child. *)
Definition append (container c : VNode) : VNode :=
  set_children (children container ++ [c])%list container.

(* ================================================================== *)
(** * parseProps *)

(** [findAll(str, regex, matches)]: [regex] carries the [g] flag and its
    [lastIndex], 0 when the first call starts and 0 again when the last
    [exec] fails.  The recursion is as deep as there are matches.  The
    language sets no bound on the depth of calls and neither does the
    embedding: an engine that gives up on a deep recursion (a RangeError
    after some thousands of matches) is not described, and no theorem below
    says that such a run returns. *)
Fixpoint findAll (fuel : nat) (str : string) (regex : re) (lastIndex : nat)
  (matches : list Match) : Res (list Match) :=
  match fuel with
  | 0 => OutOfFuel
  | S fuel' =>
      match exec_g regex str lastIndex with
      | (Some m, lastIndex') =>
          findAll fuel' str regex lastIndex' (matches ++ [m])%list
      | (None, _) => Ok matches
      end
  end.

(** [pair[2] || true] *)
Definition value_or_true (o : option string) : Value :=
  match o with
  | Some s => if JsString.truthy s then VStr s else VTrue
  | None => VTrue
  end.

Definition parseProps (propString : string) : Res (Dict Value) :=
  ms <- findAll (S (S (String.length propString))) propString
          regex.attributes 0 [] ;;
  Ok (fold_left
        (fun props pair =>
           prop_set (JsString.tmpl (cap pair 1)) (value_or_true (cap pair 2))
             props)
        ms []).

(** An attribute as it is written in a tag: a name alone, or a name with
    a value between double quotes. *)
Inductive Attribute : Type :=
| Flag (k : string)
| Pair (k v : string).

Definition attr_key (a : Attribute) : string :=
  match a with Flag k | Pair k _ => k end.

Definition attr_text (a : Attribute) : string :=
  match a with
  | Flag k => k
  | Pair k v => k ++ "=" ++ JsString.q ++ v ++ JsString.q
  end.

(** The name is not empty and has the characters of a name; the value has no
    double quote. *)
Definition attr_ok (a : Attribute) : bool :=
  JsString.truthy (attr_key a) &&
  JsString.all_chars regex.attrChar (attr_key a) &&
  match a with
  | Flag _ => true
  | Pair _ v => JsString.all_chars regex.valueChar v
  end.

(** Attributes with [sp] in front of the first and a blank between them. *)
Fixpoint attrs_from (sp : string) (l : list Attribute) : string :=
  match l with
  | [] => ""
  | a :: t => sp ++ attr_text a ++ attrs_from " " t
  end.

(** The raw attribute string: the attributes, a blank between them. *)
Definition attrs_text (l : list Attribute) : string := attrs_from "" l.

(** The captures of the match that [regex.attributes] makes of an
    attribute. *)
Definition attr_caps (a : Attribute) : caps :=
  match a with
  | Flag k => [(1, k)]
  | Pair k v => [(2, v); (1, k)]
  end.

(** What the [reduce] in [parseProps] does with one attribute. *)
Definition store_attr (props : Dict Value) (a : Attribute) : Dict Value :=
  prop_set (attr_key a)
    (match a with Flag _ => VTrue | Pair _ v => value_or_true (Some v) end)
    props.

(* ================================================================== *)
(** * parse *)

(** The stack of in-progress nodes, top first (the array's last element),
    each with its membership in the [closed] set. *)
Definition Stack : Type := list (VNode * bool).

(** The loop that pops the stack into [content] until the top is an unclosed
    node of the closing tag's type:
    [while (cur && (cur.type !== nextTag[1] || closed.has(cur)))].
    [None] when the stack empties first. *)
Fixpoint unwind (name : option string) (stack : Stack) (content : list VNode)
  : option (VNode * list VNode * Stack) :=
  match stack with
  | [] => None
  | (cur, isClosed) :: rest =>
      if negb (match name with
               | Some n => String.eqb (type cur) n
               | None => false
               end) || isClosed
      then unwind name rest (cur :: content)
      else Some (cur, content, rest)
  end.

Inductive Step : Type :=
| Continue (html : string) (stack : Stack)
| Break (stack : Stack).

Definition no_opening_tag (tag : string) : string :=
  "No corresponding opening tag found for " ++ tag.

(** The text in front of the next tag, pushed as a text node unless it is
    blank: [if (!nextTag || nextTag.index) { ... }]. *)
Definition push_text (h : NodeConstructor) (html : string)
  (nextTag : option Match) (stack : Stack) : Stack :=
  let upto :=
    match nextTag with
    | Some m => m_index m
    | None => String.length html
    end in
  if match nextTag with Some m => negb (m_index m =? 0)%nat | None => true end
  then
    let textContent := JsString.trim (JsString.substr0 upto html) in
    if JsString.truthy textContent
    then (h "#text" None (Some textContent), false) :: stack
    else stack
  else stack.

(** One iteration of the [while] loop of [parse], for [html !== '']. *)
Definition parse_iter (h : NodeConstructor) (html : string) (stack : Stack)
  : Res Step :=
  let nextTag := exec regex.anyTag html in
  let stack := push_text h html nextTag stack in
  match nextTag with
  | None => Ok (Break stack)
  | Some nextTag =>
      let html' :=
        JsString.slice (m_index nextTag + String.length (m_text nextTag)) html in
      match exec regex.openingTag (m_text nextTag) with
      | Some openingTag =>
          ps <- match cap openingTag 2 with
                | Some raw =>
                    if JsString.truthy raw then parseProps raw else Ok []
                | None => Ok []
                end ;;
          let vn := h (JsString.tmpl (cap openingTag 1)) (Some ps) None in
          let isClosed :=
            match cap openingTag 3 with
            | Some sl => JsString.truthy sl
            | None => false
            end in
          Ok (Continue html' ((vn, isClosed) :: stack))
      | None =>
          match unwind (cap nextTag 1) stack [] with
          | None => Throw (no_opening_tag (m_text nextTag))
          | Some (container, content, rest) =>
              Ok (Continue html'
                    ((fold_left append content container, true) :: rest))
          end
      end
  end.

Fixpoint parse_loop (fuel : nat) (h : NodeConstructor) (html : string)
  (stack : Stack) : Res Stack :=
  match fuel with
  | 0 => OutOfFuel
  | S fuel' =>
      if String.eqb html "" then Ok stack
      else
        st <- parse_iter h html stack ;;
        match st with
        | Continue html' stack' => parse_loop fuel' h html' stack'
        | Break stack' => Ok stack'
        end
  end.

(** [parse(html, h)]: the forest is the stack from bottom to top. *)
Definition parse (html : string) (h : NodeConstructor) : Res (list VNode) :=
  stack <- parse_loop (S (String.length html)) h html [] ;;
  Ok (rev (map fst stack)).

(** The state of the loop of [parse] after [n] full iterations, when it gets
    that far. *)
Fixpoint parse_steps (n : nat) (h : NodeConstructor) (html : string)
  (stack : Stack) : option (string * Stack) :=
  match n with
  | 0 => Some (html, stack)
  | S n' =>
      if String.eqb html "" then None
      else
        match parse_iter h html stack with
        | Ok (Continue html' stack') => parse_steps n' h html' stack'
        | _ => None
        end
  end.

(* ================================================================== *)
(** * Compiler options *)

(** What a directive's handler does, as far as the compiler can tell: it
    returns a string, possibly after calling [renderRest()] any number of
    times and looking at what each call returned. *)
Inductive Handler : Type :=
| Return (code : string)
| RenderRest (k : string -> Handler).

(** [(value, renderRest) => string] *)
Definition Directive : Type := Value -> Handler.

(** A function object: who it is, and what calling it as a node constructor
    returns. *)
Record JsFunction : Type := mkFunction {
  f_id : nat;
  f_call : NodeConstructor
}.

(** [interface CompilerOptions].  [directives] is a plain object (an object
    literal), so that it has the properties of [Object.prototype] besides the
    handlers registered in it.  [dataBindingRegex] is only ever run with
    [exec]; the field describes a pattern that carries neither the [g] nor
    the [y] flag, whose [exec] starts at the beginning of the string whatever
    the call before it did.  For a pattern with one of these flags [exec]
    starts at the [lastIndex] that the call before left: [no_bindings_g] and
    [compileProps_g] below are the two places of the code that run the
    pattern, written for that case, and every theorem stated over
    [CompilerOptions] is about a pattern without these flags. *)
Record CompilerOptions : Type := mkOptions {
  h : JsFunction;
  directives : Dict Directive;
  interpolationRegex : JsRegExp;
  dataBindingRegex : re
}.

(* ================================================================== *)
(** * detectStaticNodes *)

(** [!n] for a number. *)
Definition js_not (n : Z) : bool := Z.eqb n 0.

Definition is_some {T} (o : option T) : bool :=
  match o with Some _ => true | None => false end.

(** The static flag of a text node:
    [!vn.nodeValue?.search(options.interpolationRegex)]. *)
Definition text_static (options : CompilerOptions) (nodeValue : option string)
  : bool :=
  match nodeValue with
  | Some s => js_not (search (source (interpolationRegex options)) s)
  | None => true
  end.

(** [Object.keys(options.directives).every(d => !(d in vn.props))] *)
Definition no_directives (options : CompilerOptions) (ps : Dict Value) : bool :=
  forallb (fun d => negb (js_in d ps)) (keys (directives options)).

(** [Object.keys(vn.props).every(p => !options.dataBindingRegex.exec(p))] *)
Definition no_bindings (options : CompilerOptions) (ps : Dict Value) : bool :=
  forallb (fun p => negb (is_some (exec (dataBindingRegex options) p)))
    (keys ps).

(** [detectStaticNodes(vn, options)] returns the flag and the node with the
    flags it stored.  [every] stops at the first child that is not static,
    and [&&] skips what follows a false operand, so the nodes behind are
    not visited. *)
Fixpoint detectStaticNodes (options : CompilerOptions) (vn : VNode)
  : bool * VNode :=
  match vn with
  | mkVNode ty ps ch st nv =>
      if String.eqb ty "#text" then
        let b := text_static options nv in
        (b, mkVNode ty ps ch (Some b) nv)
      else if no_directives options ps then
        let '(b, ch') :=
          (fix every (l : list VNode) : bool * list VNode :=
             match l with
             | [] => (true, [])
             | c :: t =>
                 let '(bc, c') := detectStaticNodes options c in
                 if bc then let '(bt, t') := every t in (bt, c' :: t')
                 else (false, c' :: t)
             end) ch in
        let r := b && no_bindings options ps in
        (r, mkVNode ty ps ch' (Some r) nv)
      else (false, mkVNode ty ps ch (Some false) nv)
  end.

(** The loop over the children inside [detectStaticNodes]. *)
Definition every_child (options : CompilerOptions)
  : list VNode -> bool * list VNode :=
  fix every (l : list VNode) : bool * list VNode :=
    match l with
    | [] => (true, [])
    | c :: t =>
        let '(bc, c') := detectStaticNodes options c in
        if bc then let '(bt, t') := every t in (bt, c' :: t')
        else (false, c' :: t)
    end.

(* ================================================================== *)
(** * Code generation *)

(** The second argument that [replace] hands to its callback: the first
    capture when the pattern has capturing groups (the text [undefined] when
    the group took no part in the match), and the offset of the match when it
    has none. *)
Definition second_argument (r : re) (m : Match) : string :=
  match groups r with
  | [] => NilZero.string_of_uint (Nat.to_uint (m_index m))
  | _ :: _ => JsString.tmpl (cap m 1)
  end.

(** [src.replace(interpolationRegex, (m, c1) => `' + ${c1} + '`)] *)
Definition parseInterpolations (src : string) (interpolationRegex : JsRegExp)
  : string :=
  replace interpolationRegex
    (fun m => "' + " ++ second_argument (source interpolationRegex) m ++ " + '")
    src.

(** [Object.keys(vn.props).every(p => !options.dataBindingRegex.exec(p))] for
    a pattern with the [g] flag: every [exec] starts at [lastIndex] and
    leaves it behind the match, or at 0 when it fails.  The result is the
    outcome of [every] and the [lastIndex] left. *)
Fixpoint no_bindings_g (r : re) (ks : list string) (lastIndex : nat)
  : bool * nat :=
  match ks with
  | [] => (true, lastIndex)
  | p :: t =>
      match exec_g r p lastIndex with
      | (Some _, lastIndex') => (false, lastIndex')
      | (None, lastIndex') => no_bindings_g r t lastIndex'
      end
  end.

(** The [some] in [compileProps], for a pattern with the [g] flag. *)
Fixpoint hasKey_g (r : re) (ks : list string) (lastIndex : nat)
  : bool * nat :=
  match ks with
  | [] => (false, lastIndex)
  | p :: t =>
      if String.eqb p "key" then (true, lastIndex)
      else
        match exec_g r p lastIndex with
        | (Some binding, lastIndex') =>
            match cap binding 1 with
            | Some c =>
                if String.eqb c "key" then (true, lastIndex')
                else hasKey_g r t lastIndex'
            | None => hasKey_g r t lastIndex'
            end
        | (None, lastIndex') => hasKey_g r t lastIndex'
        end
  end.

(** The [map] over [Object.entries(props)] in [compileProps], for a pattern
    with the [g] flag. *)
Fixpoint compileProp_g (r : re) (ps : Dict Value) (lastIndex : nat)
  : list string * nat :=
  match ps with
  | [] => ([], lastIndex)
  | entry :: t =>
      let '(dataBinding, lastIndex') := exec_g r (fst entry) lastIndex in
      let entry :=
        match dataBinding with
        | Some m => JsString.tmpl (cap m 1) ++ ": " ++ to_string (snd entry)
        | None => fst entry ++ ": '" ++ to_string (snd entry) ++ "'"
        end in
      let '(entries, lastIndex2) := compileProp_g r t lastIndex' in
      (entry :: entries, lastIndex2)
  end.

(** [compileProps(props, options)] for a [dataBindingRegex] with the [g]
    flag: the literal, the state of the generator and the [lastIndex]
    left. *)
Definition compileProps_g (random : nat -> string) (r : re)
  (ps : Dict Value) (rng lastIndex : nat) : string * nat * nat :=
  let '(found, lastIndex1) := hasKey_g r (keys ps) lastIndex in
  let '(ps', rng') :=
    if found then (ps, rng)
    else (dict_set "key"
            (VStr ("y-key-" ++ JsString.slice 2 (random rng))) ps, S rng) in
  let '(entries, lastIndex2) := compileProp_g r ps' lastIndex1 in
  ("{" ++ JsString.join "," entries ++ "}", rng', lastIndex2).

Section CodeGen.

(** [Math.random() + ''], draw by draw: the state of the generator is the
    number of draws made. *)
Variable random : nat -> string.

Variable options : CompilerOptions.

(** The test inside [Object.keys(props).some(...)]. *)
Definition resolves_to_key (p : string) : bool :=
  if String.eqb p "key" then true
  else
    match exec (dataBindingRegex options) p with
    | Some binding =>
        match cap binding 1 with
        | Some c => String.eqb c "key"
        | None => false
        end
    | None => false
    end.

Definition hasKey (ps : Dict Value) : bool :=
  existsb resolves_to_key (keys ps).

(** One entry of the props object literal. *)
Definition compileProp (pair : string * Value) : string :=
  match exec (dataBindingRegex options) (fst pair) with
  | Some dataBinding =>
      JsString.tmpl (cap dataBinding 1) ++ ": " ++ to_string (snd pair)
  | None => fst pair ++ ": '" ++ to_string (snd pair) ++ "'"
  end.

(** ['y-key-' + (Math.random() + '').slice(2)] *)
Definition fresh_key (rng : nat) : string :=
  "y-key-" ++ JsString.slice 2 (random rng).

(** The copy of the props that [compileProps] prints, and the state of the
    generator afterwards. *)
Definition with_key (ps : Dict Value) (rng : nat) : Dict Value * nat :=
  if hasKey ps then (ps, rng)
  else (dict_set "key" (VStr (fresh_key rng)) ps, S rng).

Definition compileProps (ps : Dict Value) (rng : nat) : string * nat :=
  let '(ps', rng') := with_key ps rng in
  ("{" ++ JsString.join "," (map compileProp ps') ++ "}", rng').

(** The entries of the literal that [compileProps] prints. *)
Definition propEntries (ps : Dict Value) (rng : nat) : list string :=
  map compileProp (fst (with_key ps rng)).

(** An entry of a props literal whose key is [key]. *)
Definition is_key_entry (entry : string) : bool := prefix "key: " entry.

(** What [options.directives[prop]] is for a prop that is [in] the
    directives: the handler registered under the name, or, for a name that
    the object has from [Object.prototype] only, what the prototype holds
    under that name, which is no handler. *)
Inductive DirectiveProp : Type :=
| Registered (prop : string) (value : Value) (d : Directive)
| BuiltIn (prop : string) (value : Value).

(** The first prop, in enumeration order, that is a property of the
    directives object:
    [for (const prop in vn.props) if (prop in options.directives)]. *)
Fixpoint first_directive (ps : Dict Value) : option DirectiveProp :=
  match ps with
  | [] => None
  | (prop, value) :: t =>
      match dict_get prop (directives options) with
      | Some d => Some (Registered prop value d)
      | None =>
          if inherited prop then Some (BuiltIn prop value)
          else first_directive t
      end
  end.

(** What code generation leaves behind: the code, the node as mutated, and
    the state of the generator. *)
Definition Gen : Type := Res (string * VNode * nat).

(** Running a handler: every [renderRest()] compiles the node in the state
    it is in by then. *)
Fixpoint run_handler (g : Handler) (rest : VNode -> nat -> Gen)
  (vn : VNode) (rng : nat) : Gen :=
  match g with
  | Return code => Ok (code, vn, rng)
  | RenderRest k =>
      '(code, vn', rng') <- rest vn rng ;;
      run_handler (k code) rest vn' rng'
  end.

(** [vn.children.map(c => compileNode(c, options))] *)
Fixpoint compile_children (compile1 : VNode -> nat -> Gen)
  (ch : list VNode) (rng : nat) : Res (list string * list VNode * nat) :=
  match ch with
  | [] => Ok ([], [], rng)
  | c :: t =>
      '(code, c', rng1) <- compile1 c rng ;;
      '(codes, t', rng2) <- compile_children compile1 t rng1 ;;
      Ok (code :: codes, c' :: t', rng2)
  end.

Definition undefined_nodeValue : string :=
  "TypeError: Cannot read properties of undefined (reading 'replace')".

Fixpoint compileNode_fuel (fuel : nat) (vn : VNode) (rng : nat) : Gen :=
  match fuel with
  | 0 => OutOfFuel
  | S fuel' =>
      if String.eqb (type vn) "#text" then
        match nodeValue vn with
        | Some src =>
            Ok ("h('#text', null, '" ++
                parseInterpolations src (interpolationRegex options) ++ "')",
                vn, rng)
        | None => Throw undefined_nodeValue
        end
      else
        let vn := snd (detectStaticNodes options vn) in
        match first_directive (props vn) with
        | Some (Registered prop value d) =>
            run_handler (d value) (compileNode_fuel fuel')
              (set_props (dict_delete prop (props vn)) vn) rng
        | Some (BuiltIn _ _) => Beyond
        | None =>
            let '(propsCode, rng1) := compileProps (props vn) rng in
            '(codes, ch', rng2) <-
              compile_children (compileNode_fuel fuel') (children vn) rng1 ;;
            Ok ("h('" ++ type vn ++ "'," ++ propsCode ++ ",[" ++
                JsString.join "," codes ++ "])",
                set_children ch' vn, rng2)
        end
  end.

(** The size of a node: what bounds the depth of the calls. *)
Fixpoint weight (vn : VNode) : nat :=
  match vn with
  | mkVNode _ ps ch _ _ =>
      S (List.length ps + fold_right (fun c n => weight c + n) 0 ch)
  end.

Definition weights (ch : list VNode) : nat :=
  fold_right (fun c n => weight c + n) 0 ch.

(** [compileNode(vn, options)] *)
Definition compileNode (vn : VNode) (rng : nat) : Gen :=
  compileNode_fuel (weight vn) vn rng.

(** The outcome of a call that had the fuel it needed and left a node no
    heavier than [w]. *)
Definition settled (w : nat) (r : Gen) : Prop :=
  match r with
  | Ok (_, vn', _) => weight vn' <= w
  | Throw _ => True
  | OutOfFuel => False
  | Beyond => True
  end.

End CodeGen.

(* ================================================================== *)
(** * The objects and environments that generated code runs against *)

Module Js.

Inductive JSValue : Type :=
| JUndefined
| JNull
| JBoolean (b : bool)
| JNumber (n : Z)
| JString (s : string)
| JObject (o : nat)                          (* a reference into the heap *)
| JProxy (target : nat)                      (* the proxy made for an object *)
| JFunction (f : nat)                        (* a function object *)
| JBound (f : JSValue) (thisArg : nat)       (* [f.bind(thisArg)] *)
| JArguments (args : list JSValue).          (* an [arguments] object *)

(** [typeof v === 'function'] *)
Definition is_function (v : JSValue) : bool :=
  match v with
  | JFunction _ | JBound _ _ => true
  | _ => false
  end.

Definition to_boolean (v : JSValue) : bool :=
  match v with
  | JUndefined | JNull => false
  | JBoolean b => b
  | JNumber n => negb (Z.eqb n 0)
  | JString s => JsString.truthy s
  | _ => true
  end.

(** An ordinary object: its own data properties with string keys, and its
    prototype. *)
Record Obj : Type := mkObj {
  own : Dict JSValue;
  proto : option nat
}.

(** The heap: object [o] is the [o]-th entry. *)
Definition Heap : Type := list Obj.

(** [o[k]] through the prototype chain, which is no longer than the heap. *)
Fixpoint get_chain (fuel : nat) (heap : Heap) (o : nat) (k : string)
  : JSValue :=
  match fuel with
  | 0 => JUndefined
  | S fuel' =>
      match nth_error heap o with
      | None => JUndefined
      | Some ob =>
          match dict_get k (own ob) with
          | Some v => v
          | None =>
              match proto ob with
              | Some p => get_chain fuel' heap p k
              | None => JUndefined
              end
          end
      end
  end.

(** Direct property access [o[k]]. *)
Definition obj_get (heap : Heap) (o : nat) (k : string) : JSValue :=
  get_chain (S (List.length heap)) heap o k.

Fixpoint update_nth {T} (n : nat) (f : T -> T) (l : list T) : list T :=
  match l, n with
  | [], _ => []
  | x :: t, 0 => f x :: t
  | x :: t, S n' => x :: update_nth n' f t
  end.

(** [o[k] = v] on an object of data properties: the property becomes (or
    stays) an own property of [o]. *)
Definition obj_set (heap : Heap) (o : nat) (k : string) (v : JSValue) : Heap :=
  update_nth o (fun ob => mkObj (dict_set k v (own ob)) (proto ob)) heap.

(** A property key: a string, [Symbol.unscopables], or another symbol. *)
Inductive PropertyKey : Type :=
| PString (k : string)
| PUnscopables
| PSymbol (n : nat).

(** [new Proxy(target, { has, get })] *)
Record Proxy : Type := mkProxy {
  target : nat;
  trap_has : nat -> PropertyKey -> bool;
  trap_get : Heap -> nat -> PropertyKey -> JSValue
}.

(** The environment records around the code: the object environment that a
    [with] statement puts in front, and declarative ones (function scope,
    module scope, globals). *)
Inductive EnvRecord : Type :=
| WithEnv (p : Proxy)
| DeclEnv (bindings : Dict JSValue).

Definition Env : Type := list EnvRecord.

(** [HasBinding] of the object environment record of a [with] statement:
    [HasProperty] runs the [has] trap; a name listed in the object's
    [Symbol.unscopables], read through the [get] trap, is not bound. *)
Definition with_has_binding (heap : Heap) (p : Proxy) (x : string) : bool :=
  if trap_has p (target p) (PString x) then
    match trap_get p heap (target p) PUnscopables with
    | JObject u => negb (to_boolean (obj_get heap u x))
    | _ => true
    end
  else false.

(** Where an identifier resolves: the first record that binds it. *)
Inductive Binding : Type :=
| InWith (p : Proxy)
| InDecl (depth : nat) (v : JSValue)
| Unresolvable.

Fixpoint resolve (heap : Heap) (env : Env) (depth : nat) (x : string)
  : Binding :=
  match env with
  | [] => Unresolvable
  | WithEnv p :: outer =>
      if with_has_binding heap p x then InWith p
      else resolve heap outer (S depth) x
  | DeclEnv b :: outer =>
      match dict_get x b with
      | Some v => InDecl depth v
      | None => resolve heap outer (S depth) x
      end
  end.

(** What a piece of code does with its free variables: it reads them and
    assigns to them, and in the end it returns a value or comes to the end
    of its statements. *)
Inductive Code : Type :=
| Ret (v : JSValue)
| Done
| Ident (x : string) (k : JSValue -> Code)
| Assign (x : string) (v : JSValue) (k : Code).

Definition reference_error (x : string) : string :=
  "ReferenceError: " ++ x ++ " is not defined".

(** Reading a resolved reference.  In a [with] environment [GetBindingValue]
    asks [HasProperty] once more and then [Get], the [get] trap. *)
Definition read (heap : Heap) (env : Env) (x : string) : Res JSValue :=
  match resolve heap env 0 x with
  | InWith p =>
      if trap_has p (target p) (PString x)
      then Ok (trap_get p heap (target p) (PString x))
      else Ok JUndefined
  | InDecl _ v => Ok v
  | Unresolvable => Throw (reference_error x)
  end.

(** Assigning through a resolved reference.  The proxy has no [set] trap,
    so the assignment reaches the target; an unresolvable name becomes a
    property of the global object, the outermost record. *)
Definition write (heap : Heap) (env : Env) (x : string) (v : JSValue)
  : Heap * Env :=
  match resolve heap env 0 x with
  | InWith p => (obj_set heap (target p) x v, env)
  | InDecl depth _ =>
      (heap,
       update_nth depth
         (fun r => match r with
                   | DeclEnv b => DeclEnv (dict_set x v b)
                   | WithEnv q => WithEnv q
                   end) env)
  | Unresolvable =>
      (heap,
       update_nth (List.length env - 1)
         (fun r => match r with
                   | DeclEnv b => DeclEnv (dict_set x v b)
                   | WithEnv q => WithEnv q
                   end) env)
  end.

(** Running code: [Some v] when it returned [v], [None] when it came to its
    end. *)
Fixpoint run (c : Code) (heap : Heap) (env : Env)
  : Res (option JSValue * Heap * Env) :=
  match c with
  | Ret v => Ok (Some v, heap, env)
  | Done => Ok (None, heap, env)
  | Ident x k =>
      v <- read heap env x ;;
      run (k v) heap env
  | Assign x v k =>
      let '(heap', env') := write heap env x v in
      run k heap' env'
  end.

(** The body of a function that begins with a [with] statement: the
    statements of its block, and the statements that follow the block. *)
Record Body : Type := mkBody {
  block : Code;
  rest : Code
}.

(** Calling [function (sandbox) { with (sandbox) { block } rest }] with the
    proxy [p], in the global environment [globals]. *)
Definition call (body : Body) (p : Proxy) (heap : Heap) (globals : Env)
  : Res (JSValue * Heap * Env) :=
  let scope :=
    DeclEnv [("sandbox", JProxy (target p));
             ("arguments", JArguments [JProxy (target p)])] in
  '(r, heap1, env1) <- run (block body) heap (WithEnv p :: scope :: globals) ;;
  match r with
  | Some v => Ok (v, heap1, tl (tl env1))
  | None =>
      '(r2, heap2, env2) <- run (rest body) heap1 (tl env1) ;;
      Ok (match r2 with Some v => v | None => JUndefined end,
          heap2, tl env2)
  end.

End Js.

Import Js.

(* ================================================================== *)
(** * saferEval *)

(** [const has = (target, key) => true] *)
Definition has (target : nat) (key : PropertyKey) : bool := true.

(** [const get = (target, key) => ...] *)
Definition get (heap : Heap) (target : nat) (key : PropertyKey) : JSValue :=
  match key with
  | PUnscopables => JUndefined
  | PString k =>
      if is_function (obj_get heap target k)
      then JBound (obj_get heap target k) target
      else obj_get heap target k
  | PSymbol _ => JUndefined
  end.

(** [sandboxProxies]: the proxy made for each sandbox, by identity. *)
Definition ProxyCache : Type := list (nat * Proxy).

Fixpoint cache_get (sandbox : nat) (cache : ProxyCache) : option Proxy :=
  match cache with
  | [] => None
  | (o, p) :: t => if Nat.eqb sandbox o then Some p else cache_get sandbox t
  end.

(** What lives on between calls: the heap, the proxy cache, and the global
    environment, which is the lexical environment of every function made by
    [new Function]. *)
Record World : Type := mkWorld {
  heap : Heap;
  sandboxProxies : ProxyCache;
  globals : Env
}.

(** [evalWrapper(sandbox)], closed over [func]. *)
Definition evalWrapper (func : Body) (sandbox : nat) (w : World)
  : Res (JSValue * World) :=
  let '(proxy, cache) :=
    match cache_get sandbox (sandboxProxies w) with
    | Some proxy => (proxy, sandboxProxies w)
    | None =>
        let proxy := mkProxy sandbox has get in
        (proxy, (sandbox, proxy) :: sandboxProxies w)
    end in
  '(v, heap', globals') <- call func proxy (heap w) (globals w) ;;
  Ok (v, mkWorld heap' cache globals').

(** What the specification asks of an evaluation: a free variable is a
    property of the scope, own or inherited, and a callable one comes bound
    to the scope. *)
Definition scope_lookup (heap : Heap) (scope : nat) (x : string) : JSValue :=
  if is_function (obj_get heap scope x)
  then JBound (obj_get heap scope x) scope
  else obj_get heap scope x.

(** The code run against the scope alone, without any environment. *)
Fixpoint run_scoped (c : Code) (heap : Heap) (scope : nat)
  : option JSValue * Heap :=
  match c with
  | Ret v => (Some v, heap)
  | Done => (None, heap)
  | Ident x k => run_scoped (k (scope_lookup heap scope x)) heap scope
  | Assign x v k => run_scoped k (obj_set heap scope x v) scope
  end.

(** The value of a call whose body returned [r]. *)
Definition returned (r : option JSValue) : JSValue :=
  match r with Some v => v | None => JUndefined end.

(** Every proxy in the cache is one that [evalWrapper] made. *)
Definition cache_ok (cache : ProxyCache) : Prop :=
  forall o p, cache_get o cache = Some p -> p = mkProxy o has get.

Section Compile.

Variable random : nat -> string.

(** [new Function("sandbox", body)]: the engine parses the body, which
    begins with [with(sandbox) {]; it gives the statements that are in the
    block of the [with] statement and those that follow the block, or nothing
    when the body is not well-formed. *)
Variable newFunction : string -> option Body.

(** [saferEval(code)] *)
Definition saferEval (code : string)
  : Res (nat -> World -> Res (JSValue * World)) :=
  let code := "with(sandbox) {" ++ code ++ "}" in
  match newFunction code with
  | Some func => Ok (evalWrapper func)
  | None => Throw "SyntaxError"
  end.

(** [this] of a call. *)
Inductive ThisArg : Type :=
| ThisObject (o : nat)
| ThisNull
| ThisOther.                 (* undefined or a primitive *)

(** [options.h] *)
Definition h_of (options : CompilerOptions) : JsFunction := h options.

(** [options.h] as a value. *)
Definition options_h (options : CompilerOptions) : JSValue :=
  JFunction (f_id (h options)).

(** [renderTemplate(h)], closed over [options] and [innerRender]. *)
Definition renderTemplate (options : CompilerOptions)
  (innerRender : nat -> World -> Res (JSValue * World))
  (this : ThisArg) (h : JSValue) (w : World) : Res (JSValue * World) :=
  match (match this with
         | ThisObject o => Some (Some o)
         | ThisNull => Some None
         | ThisOther => None
         end) with
  | None => Throw "TypeError: Object prototype may only be an Object or null"
  | Some p =>
      let scope := List.length (heap w) in
      let w1 :=
        mkWorld (heap w ++ [mkObj [] p])%list (sandboxProxies w) (globals w) in
      let w2 :=
        mkWorld (obj_set (heap w1) scope "h" (options_h options))
          (sandboxProxies w1) (globals w1) in
      innerRender scope w2
  end.

(** What [compile] returns: the render function, given by the code it was
    made from. *)
Record Compiled : Type := mkCompiled {
  code : string;
  render : ThisArg -> JSValue -> World -> Res (JSValue * World)
}.

(** The part of [compile] after [parse]: [forest[0]] is compiled and
    evaluated. *)
Definition compile_forest (forest : list VNode) (options : CompilerOptions)
  (rng : nat) : Res (Compiled * nat) :=
  match forest with
  | [] => Throw "TypeError: Cannot read properties of undefined (reading 'type')"
  | root :: _ =>
      '(code, _, rng') <- compileNode random options root rng ;;
      innerRender <- saferEval ("return " ++ code) ;;
      Ok (mkCompiled ("return " ++ code) (renderTemplate options innerRender),
          rng')
  end.

(** [compile(template, options)] *)
Definition compile (template : string) (options : CompilerOptions)
  (rng : nat) : Res (Compiled * nat) :=
  let template := replace regex.comments (fun _ => "") template in
  forest <- parse template (f_call (h options)) ;;
  compile_forest forest options rng.

End Compile.

(* ================================================================== *)
(** * A configuration to run the examples with *)

Module Example.

(** [/\{\{(.+?)\}\}/g] *)
Definition interpolation : JsRegExp :=
  mkRegExp (cat [Str "{{"; Grp 1 (Plus false Dot); Str "}}"]) true.

(** [/\{\{(.+?)\}\}/] *)
Definition dataBinding : re :=
  cat [Str "{{"; Grp 1 (Plus false Dot); Str "}}"].

(** [(v, rest) => "(" + v + ") ? (" + rest() + ") : null"] *)
Definition directive_if : Directive :=
  fun v =>
    RenderRest (fun rest =>
      Return ("(" ++ to_string v ++ ") ? (" ++ rest ++ ") : null")).

Definition options : CompilerOptions :=
  mkOptions (mkFunction 0 host_h) [("if", directive_if)] interpolation
    dataBinding.

(** [/^.(.+)$/]: a sigil in front of the bound name, as in [:id]. *)
Definition sigilBinding : re :=
  cat [Bol; Dot; Grp 1 (Plus true Dot); Eol].

Definition sigil_options : CompilerOptions :=
  mkOptions (mkFunction 0 host_h) [("if", directive_if)] interpolation
    sigilBinding.

(** [(v, rest) => "(" + v + ") ? (" + rest() + ") : dim(" + rest() + ")"]:
    a handler that asks for the rest twice. *)
Definition directive_dim : Directive :=
  fun v =>
    RenderRest (fun lit =>
      RenderRest (fun dimmed =>
        Return ("(" ++ to_string v ++ ") ? (" ++ lit ++ ") : dim(" ++
                dimmed ++ ")"))).

Definition dim_options : CompilerOptions :=
  mkOptions (mkFunction 0 host_h)
    [("dim", directive_dim); ("if", directive_if)] interpolation dataBinding.

(** An engine for the examples.  On the two bodies listed it answers as a
    JavaScript engine does: the first is the body made from the code
    [return f]; the second is made from the code [} return secret; {], which
    closes the block of the [with] statement and goes on behind it.  Every
    other body stands for generated code, [return h(...)]: it reads [h] and
    [msg] and returns what it read for [h]. *)
Definition newFunction (body : string) : option Body :=
  if String.eqb body "with(sandbox) {return f}" then
    Some (mkBody (Ident "f" (fun v => Ret v)) Done)
  else if String.eqb body "with(sandbox) {} return secret; {}" then
    Some (mkBody Done (Ident "secret" (fun v => Ret v)))
  else
    Some (mkBody (Ident "h" (fun hv => Ident "msg" (fun _ => Ret hv))) Done).

(** A world with one object, the caller's context, and two globals. *)
Definition world : World :=
  mkWorld [mkObj [("msg", JString "hi"); ("f", JFunction 7)] None] []
    [DeclEnv [("h", JFunction 9); ("secret", JString "global")]].

(** A sequence of draws of [Math.random() + '']. *)
Definition random (n : nat) : string :=
  "0." ++ NilZero.string_of_uint (Nat.to_uint (4170 + n)).

(** A text node as [parse] makes it. *)
Definition text (s : string) : VNode := host_h "#text" None (Some s).

(** An element as [parse] makes it, with its children appended. *)
Definition element (ty : string) (ps : Dict Value) (ch : list VNode) : VNode :=
  fold_left append ch (host_h ty (Some ps) None).

End Example.

(* ================================================================== *)
(** * Notions used by the further properties *)

(** Not the character that opens a tag. *)
Definition notLt : ascii -> bool := fun c => negb (Ascii.eqb "<" c).

(** Not the character that closes a tag. *)
Definition notGt : ascii -> bool := fun c => negb (Ascii.eqb ">" c).

(** The pattern has to begin with the character [c]. *)
Fixpoint begins_with (c : ascii) (r : re) : bool :=
  match r with
  | Lit c' => Ascii.eqb c' c
  | Seq a _ => begins_with c a
  | Grp _ a => begins_with c a
  | _ => false
  end.

(** A heap as [Object.create] builds it: a prototype is an older object. *)
Definition heap_ok (heap : Heap) : Prop :=
  forall o ob p, nth_error heap o = Some ob -> proto ob = Some p -> p < o.

(** A node without its [static] flags. *)
Fixpoint erase (vn : VNode) : VNode :=
  match vn with
  | mkVNode ty ps ch _ nv => mkVNode ty ps (map erase ch) None nv
  end.

(** The flag [b] is stored on the node and, below an element, on every
    node of its subtree. *)
Fixpoint flagged (b : bool) (vn : VNode) : bool :=
  match vn with
  | mkVNode ty _ ch st _ =>
      match st with Some b' => Bool.eqb b' b | None => false end &&
      (String.eqb ty "#text" || forallb (flagged b) ch)
  end.

(** The outcome of code generation, the node left behind taken without its
    flags. *)
Definition gen_erase (r : Res (string * VNode * nat))
  : Res (string * VNode * nat) :=
  match r with
  | Ok (code, vn, rng) => Ok (code, erase vn, rng)
  | Throw msg => Throw msg
  | OutOfFuel => OutOfFuel
  | Beyond => Beyond
  end.

(** The texts that a pattern matches, whatever surrounds them. *)
Definition flat (l : list string) : string := fold_right String.append "" l.

Fixpoint lang (r : re) (p : string) : Prop :=
  match r with
  | Eps | Bol | Eol => p = ""
  | Lit a => p = String a ""
  | Cls neg items => exists b, in_class neg items b = true /\ p = String b ""
  | Dot =>
      exists b, JsString.is_line_terminator b = false /\ p = String b ""
  | Seq a b => exists p1 p2, p = p1 ++ p2 /\ lang a p1 /\ lang b p2
  | Alt a b => lang a p \/ lang b p
  | Star _ a => exists l, p = flat l /\ Forall (lang a) l
  | Grp _ a => lang a p
  end.

(** A successful run of a matcher for [r] consumed a text of [r] and called
    its continuation behind it; a pattern without groups hands on the
    captures it was given. *)
Definition run_in (A : Type) (r : re)
  (m : string -> nat -> caps -> cont A -> option A) : Prop :=
  forall s i c k x,
    m s i c k = Some x ->
    exists p s' c',
      s = p ++ s' /\ lang r p /\ k s' (i + String.length p) c' = Some x /\
      (groups r = [] -> c' = c).

(** A prop as [parseProps] can store it: the name is not empty and made of
    the characters of a name; the value is [true] or a text that is not
    empty and holds no double quote. *)
Definition prop_ok (k : string) (v : Value) : Prop :=
  k <> "" /\ JsString.all_chars regex.attrChar k = true /\
  match v with
  | VTrue => True
  | VStr s => s <> "" /\ JsString.all_chars regex.valueChar s = true
  end.

(** What a match of [regex.attributes] captures. *)
Definition attr_match_ok (m : Match) : Prop :=
  exists k,
    cap m 1 = Some k /\ k <> "" /\
    JsString.all_chars regex.attrChar k = true /\
    (cap m 2 = None \/
     exists v, cap m 2 = Some v /\
               JsString.all_chars regex.valueChar v = true).

(** The value that [parseProps] stores for an attribute. *)
Definition attr_value (a : Attribute) : Value :=
  match a with Flag _ => VTrue | Pair _ v => value_or_true (Some v) end.

(** The names of a list, each at its first occurrence. *)
Fixpoint dedup (l : list string) : list string :=
  match l with
  | [] => []
  | k :: t => k :: filter (fun x => negb (String.eqb x k)) (dedup t)
  end.

(** [s] begins with [t]. *)
Fixpoint starts (t s : string) : bool :=
  match t, s with
  | EmptyString, _ => true
  | String a t', String b s' => Ascii.eqb a b && starts t' s'
  | String _ _, EmptyString => false
  end.

(** [t] occurs in [s]. *)
Fixpoint has_sub (t s : string) : bool :=
  starts t s ||
  match s with
  | String _ s' => has_sub t s'
  | EmptyString => false
  end.

(** Not a line terminator: what [.] matches. *)
Definition notLineEnd : ascii -> bool :=
  fun b => negb (JsString.is_line_terminator b).

(** The end of a comment occurs in [s] before any line terminator. *)
Fixpoint closes_on_line (s : string) : bool :=
  starts "-->" s ||
  match s with
  | String c t => notLineEnd c && closes_on_line t
  | EmptyString => false
  end.

(** Somewhere in [s] a comment opens and, after at least one character and
    on the same line, closes. *)
Fixpoint has_comment (s : string) : bool :=
  match s with
  | EmptyString => false
  | String _ t =>
      (starts "<!--" s &&
       match JsString.slice 4 s with
       | String d u => notLineEnd d && closes_on_line u
       | EmptyString => false
       end)
      || has_comment t
  end.

(** Markup as a tree: a text, an element with its attributes and children,
    or an element closed in its own tag. *)
Inductive Markup : Type :=
| MText (t : string)
| MElem (name : string) (attrs : list Attribute) (children : list Markup)
| MVoid (name : string) (attrs : list Attribute).

(** An opening tag; with [slash], a tag that closes itself. *)
Definition open_tag (name : string) (attrs : list Attribute) (slash : bool)
  : string :=
  "<" ++ name ++ attrs_from " " attrs ++ (if slash then "/" else "") ++ ">".

Definition close_tag (name : string) : string := "</" ++ name ++ ">".

(** How a tree is written. *)
Fixpoint print (m : Markup) : string :=
  match m with
  | MText t => t
  | MElem name attrs ch =>
      open_tag name attrs false ++ flat (map print ch) ++ close_tag name
  | MVoid name attrs => open_tag name attrs true
  end.

Definition print_forest (ts : list Markup) : string := flat (map print ts).

(** The nodes that a tree stands for, made by the host's constructor: a text
    gives a text node unless it is blank, without the white space around
    it. *)
Fixpoint nodes_of (m : Markup) : list VNode :=
  match m with
  | MText t =>
      if JsString.truthy (JsString.trim t)
      then [host_h "#text" None (Some (JsString.trim t))]
      else []
  | MElem name attrs ch =>
      [fold_left append (flat_map nodes_of ch)
         (host_h name (Some (fold_left store_attr attrs [])) None)]
  | MVoid name attrs =>
      [host_h name (Some (fold_left store_attr attrs [])) None]
  end.

(** [[^\s\/<>=Q']] as a test. *)
Definition nameCharB : ascii -> bool :=
  in_class true [CSpace; CChar "/"; CChar "<"; CChar ">"; CChar "=";
                 CChar JsString.dq; CChar "'"].

(** [\s] as a test. *)
Definition spaceB : ascii -> bool := in_class false [CSpace].

(** A tag's name: not empty, made of the characters of a name, and not the
    type of text nodes. *)
Definition name_ok (name : string) : bool :=
  JsString.truthy name && JsString.all_chars nameCharB name &&
  negb (String.eqb name "#text").

(** An attribute of a tag: its name has the characters of a tag's name. *)
Definition tag_attr_ok (a : Attribute) : bool :=
  attr_ok a && JsString.all_chars nameCharB (attr_key a).

Definition is_text (m : Markup) : bool :=
  match m with MText _ => true | _ => false end.

(** No text stands next to another text. *)
Fixpoint texts_apart (l : list Markup) : bool :=
  match l with
  | [] => true
  | x :: t =>
      negb (is_text x && match t with y :: _ => is_text y | [] => false end)
      && texts_apart t
  end.

(** Markup that is written as it is meant: names and attributes are
    well-formed, and texts hold no [<]. *)
Fixpoint markup_ok (m : Markup) : bool :=
  match m with
  | MText t => JsString.all_chars notLt t
  | MElem name attrs ch =>
      name_ok name && forallb tag_attr_ok attrs &&
      forallb markup_ok ch && texts_apart ch
  | MVoid name attrs => name_ok name && forallb tag_attr_ok attrs
  end.

Definition forest_ok (ts : list Markup) : bool :=
  forallb markup_ok ts && texts_apart ts.

(** The part of a tag pattern behind [<] and the optional slash. *)
Definition tagRest : re :=
  cat [Grp 1 (Plus true regex.nameChar); regex.ws; regex.rawAttributes;
       regex.ws; Opt (Grp 3 (Lit "/")); regex.ws; Lit ">"].

(** One attribute inside a tag pattern:
    [[^\s\/<>=Q']+(?:=Q[^Q]* Q)?\s*]. *)
Definition attrBody : re :=
  cat [Plus true regex.nameChar;
       Opt (cat [Lit "="; Lit JsString.dq;
                 Star true (Cls true [CChar JsString.dq]);
                 Lit JsString.dq]);
       regex.ws].

(** The captures of a tag's match. *)
Definition tag_caps (name : string) (attrs : list Attribute) (slash : bool)
  : caps :=
  ((if slash then [(3, "/")] else []) ++
   (match attrs with [] => [] | _ => [(2, attrs_text attrs)] end) ++
   [(1, name)])%list.

(** The loop of [parse] from a state on: [html] is what is left of the
    input. *)
Definition parse_from (h : NodeConstructor) (html : string) (stack : Stack)
  : Res Stack :=
  parse_loop (S (String.length html)) h html stack.

(** The text node that [parse] pushes for the text [pre], if any. *)
Definition text_entry (pre : string) : Stack :=
  if JsString.truthy (JsString.trim pre)
  then [(host_h "#text" None (Some (JsString.trim pre)), false)]
  else [].

(** The text that is pending behind a forest, and the stack entries that
    the forest leaves, when the text [pre] was pending in front of it. *)
Fixpoint pending (pre : string) (ts : list Markup) : string :=
  match ts with
  | [] => pre
  | MText t :: ts' => pending (pre ++ t) ts'
  | _ :: ts' => pending "" ts'
  end.

Fixpoint entries (pre : string) (ts : list Markup) : Stack :=
  match ts with
  | [] => []
  | MText t :: ts' => entries (pre ++ t) ts'
  | m :: ts' =>
      (entries "" ts' ++ map (fun vn => (vn, true)) (nodes_of m) ++
       text_entry pre)%list
  end.

(** The blank behind an attribute: none behind the last. *)
Definition blank_after (t : list Attribute) : string :=
  match t with [] => "" | _ => " " end.

(** Every text node of the tree has a value. *)
Fixpoint text_valued (vn : VNode) : bool :=
  match vn with
  | mkVNode ty _ ch _ nv =>
      (negb (String.eqb ty "#text") || is_some nv) && forallb text_valued ch
  end.

(** No prop of the tree has a name that objects have from
    [Object.prototype]. *)
Fixpoint own_names (vn : VNode) : bool :=
  match vn with
  | mkVNode _ ps ch _ _ =>
      forallb (fun k => negb (inherited k)) (keys ps) && forallb own_names ch
  end.

(** A call of the code generator that returned, and left a node no heavier
    than [w] whose text nodes have their values and whose props have no name
    of [Object.prototype]. *)
Definition returned_valued (w : nat) (r : Res (string * VNode * nat)) : Prop :=
  match r with
  | Ok (_, vn', _) =>
      weight vn' <= w /\ text_valued vn' = true /\ own_names vn' = true
  | _ => False
  end.

(* ================================================================== *)
(* ================================================================== *)
(** * Theorems *)

(** ** Strings *)

Lemma append_nil_r (s : string) : s ++ "" = s.
Proof. induction s; simpl; congruence. Qed.

Lemma append_assoc (a b c : string) : (a ++ b) ++ c = a ++ (b ++ c).
Proof. induction a; simpl; congruence. Qed.

Lemma length_append (a b : string) :
  String.length (a ++ b) = String.length a + String.length b.
Proof. induction a; simpl; congruence. Qed.

Lemma substring_prefix (p s : string) :
  substring 0 (String.length p) (p ++ s) = p.
Proof.
  induction p as [|c p IH]; simpl.
  - destruct s; reflexivity.
  - rewrite IH. reflexivity.
Qed.

Lemma slice_append (p s : string) : JsString.slice (String.length p) (p ++ s) = s.
Proof. induction p; simpl; [destruct s; reflexivity | assumption]. Qed.

(** ** The matcher *)

Section MatcherFacts.

Variable A : Type.

Lemma one_sound (f : ascii -> bool) : @sound A true (one (A:=A) f).
Proof.
  intros s i c k x E. unfold one in E.
  destruct s as [|b t]; [discriminate|].
  destruct (f b); [|discriminate].
  exists (String b ""), t, c. simpl. rewrite Nat.add_1_r.
  repeat split; auto. discriminate.
Qed.

Lemma star_loop_sound ma g k0 n :
  @sound A false ma ->
  forall s i c x,
    star_loop (A:=A) ma g k0 n s i c = Some x ->
    exists p s' c',
      s = p ++ s' /\ k0 s' (i + String.length p) c' = Some x.
Proof.
  intros Hma. induction n as [|n IH]; intros s i c x E; simpl in E.
  - exists "", s, c. rewrite Nat.add_0_r. auto.
  - assert (Hk : forall y, k0 s i c = Some y ->
                           exists p s' c', s = p ++ s' /\
                             k0 s' (i + String.length p) c' = Some y).
    { intros y Ey. exists "", s, c. rewrite Nat.add_0_r. auto. }
    assert (Hi : forall y,
               ma s i c
                 (fun s' i' c' =>
                    if (String.length s' <? String.length s)%nat
                    then star_loop ma g k0 n s' i' c' else None) = Some y ->
               exists p s' c', s = p ++ s' /\
                 k0 s' (i + String.length p) c' = Some y).
    { intros y Ey. apply Hma in Ey.
      destruct Ey as (p1 & s1 & c1 & -> & Ey & _).
      destruct (String.length s1 <? String.length (p1 ++ s1))%nat;
        [|discriminate].
      apply IH in Ey. destruct Ey as (p2 & s2 & c2 & -> & Ey).
      exists (p1 ++ p2), s2, c2. rewrite append_assoc, length_append.
      rewrite Nat.add_assoc. auto. }
    destruct g.
    + destruct (ma s i c _).
      * injection E as <-. apply Hi. reflexivity.
      * apply Hk. exact E.
    + destruct (k0 s i c).
      * injection E as <-. apply Hk. reflexivity.
      * apply Hi. exact E.
Qed.

Lemma rmatch_sound (r : re) : @sound A (consumes r) (rmatch (A:=A) r).
Proof.
  induction r as [| a | neg items | | a IHa b IHb | a IHa b IHb
                 | g a IHa | n a IHa | |]; simpl.
  - intros s i c k x E. exists "", s, c. rewrite Nat.add_0_r.
    repeat split; auto. discriminate.
  - apply one_sound.
  - apply one_sound.
  - apply one_sound.
  - intros s i c k x E. simpl in E.
    apply IHa in E. destruct E as (p1 & s1 & c1 & -> & E & H1).
    apply IHb in E. destruct E as (p2 & s2 & c2 & -> & E & H2).
    exists (p1 ++ p2), s2, c2. rewrite append_assoc, length_append.
    rewrite Nat.add_assoc. repeat split; auto.
    intros Hc. apply orb_true_iff in Hc. intros Hp.
    destruct p1; simpl in Hp; [|discriminate]. subst p2.
    destruct Hc as [Hc|Hc]; [exact (H1 Hc eq_refl) | exact (H2 Hc eq_refl)].
  - intros s i c k x E. simpl in E.
    destruct (rmatch a s i c k) eqn:Ea.
    + injection E as <-. apply IHa in Ea.
      destruct Ea as (p & s' & c' & ? & ? & H1).
      exists p, s', c'. repeat split; auto.
      intros Hc. apply andb_true_iff in Hc. apply H1, Hc.
    + apply IHb in E. destruct E as (p & s' & c' & ? & ? & H1).
      exists p, s', c'. repeat split; auto.
      intros Hc. apply andb_true_iff in Hc. apply H1, Hc.
  - intros s i c k x E. simpl in E.
    apply star_loop_sound in E.
    + destruct E as (p & s' & c' & ? & ?). exists p, s', c'.
      repeat split; auto. discriminate.
    + intros s1 i1 c1 k1 x1 E1. apply IHa in E1.
      destruct E1 as (p & s' & c' & ? & ? & _). exists p, s', c'.
      repeat split; auto. discriminate.
  - intros s i c k x E. simpl in E. apply IHa in E.
    destruct E as (p & s' & c' & ? & ? & H1). eauto 8.
  - intros s i c k x E. simpl in E.
    destruct (i =? 0)%nat; [|discriminate].
    exists "", s, c. rewrite Nat.add_0_r. repeat split; auto. discriminate.
  - intros s i c k x E. simpl in E.
    destruct s; [|discriminate].
    exists "", "", c. rewrite Nat.add_0_r. repeat split; auto. discriminate.
Qed.

End MatcherFacts.

Lemma match_at_sound (r : re) (s : string) (i : nat) (m : Match) :
  match_at r s i = Some m ->
  s = m_text m ++ m_rest m /\ m_index m = i /\
  (consumes r = true -> m_text m <> "").
Proof.
  unfold match_at. intros Em.
  apply rmatch_sound in Em. destruct Em as (p & s' & c' & -> & Em & Hp).
  injection Em as <-. simpl.
  replace (i + String.length p - i) with (String.length p) by lia.
  rewrite substring_prefix. auto.
Qed.

Lemma cap_clear_nil (c : caps) : cap_clear [] c = c.
Proof.
  unfold cap_clear. induction c as [|x c IH]; simpl; [reflexivity|].
  f_equal. exact IH.
Qed.

(** A greedy quantifier over single characters takes the whole run of
    characters that satisfy [p] when what follows the run lets the rest of
    the pattern succeed: that is the first alternative tried. *)
Lemma star_loop_run A (p : ascii -> bool) ma (K : cont A) :
  (forall s i c k, ma s i c k = one p s i c k) ->
  forall w rest n i c x,
    JsString.all_chars p w = true ->
    JsString.starts_outside p rest = true ->
    String.length w <= n ->
    K rest (i + String.length w) c = Some x ->
    star_loop ma true K n (w ++ rest) i c = Some x.
Proof.
  intros Hma.
  induction w as [|a w IH]; intros rest n i c x Hall Hout Hn HK.
  - simpl in *. rewrite Nat.add_0_r in HK. destruct n; simpl; [exact HK|].
    rewrite Hma. unfold one. destruct rest as [|b t]; [exact HK|].
    simpl in Hout. apply negb_true_iff in Hout. rewrite Hout. exact HK.
  - simpl in Hall. apply andb_true_iff in Hall. destruct Hall as [Ha Hall].
    destruct n as [|n]; [simpl in Hn; lia|].
    simpl. rewrite Hma. simpl. rewrite Ha.
    assert (Hlt : (String.length (w ++ rest)
                   <? S (String.length (w ++ rest)))%nat = true)
      by (apply Nat.ltb_lt; lia).
    rewrite Hlt.
    rewrite (IH rest n (S i) c x); auto.
    + simpl in Hn. lia.
    + simpl in HK. rewrite <- HK. f_equal. lia.
Qed.

(** A match found at or after [i] in [s] splits [s] into what precedes the
    match, the matched text and the rest. *)
Lemma exec_from_sound (r : re) (s : string) (i : nat) (m : Match) :
  exec_from r s i = Some m ->
  exists pre,
    s = pre ++ m_text m ++ m_rest m /\
    m_index m = i + String.length pre /\
    (consumes r = true -> m_text m <> "").
Proof.
  revert i. induction s as [|b t IH]; intros i E; simpl in E.
  - destruct (match_at r "" i) eqn:Em; [|discriminate].
    injection E as ->. apply match_at_sound in Em.
    destruct Em as (Hs & Hi & Hp).
    exists "". rewrite Nat.add_0_r. auto.
  - destruct (match_at r (String b t) i) eqn:Em.
    + injection E as ->. apply match_at_sound in Em.
      destruct Em as (Hs & Hi & Hp).
      exists "". rewrite Nat.add_0_r. auto.
    + apply IH in E. destruct E as (pre & Hs & Hi & Hp).
      exists (String b pre). simpl. rewrite Hs at 1.
      repeat split; auto. lia.
Qed.

(** ** Dictionaries *)

Lemma dict_in_keys {T} (k : string) (d : Dict T) :
  dict_in k d = true <-> In k (keys d).
Proof.
  unfold dict_in. induction d as [|[k' v] t IH]; simpl.
  - split; [discriminate | tauto].
  - destruct (String.eqb_spec k k') as [->|Hne].
    + split; auto.
    + rewrite IH. split; [auto | intros [H|H]; [congruence | exact H]].
Qed.

Lemma dict_in_false_keys {T} (k : string) (d : Dict T) :
  dict_in k d = false <-> ~ In k (keys d).
Proof.
  rewrite <- dict_in_keys. destruct (dict_in k d); split; congruence.
Qed.

(* ================================================================== *)
(** ** The static analyser *)

Section StaticAnalyzer.

Variable options : CompilerOptions.

Lemma detectStaticNodes_unfold (vn : VNode) :
  detectStaticNodes options vn =
  if String.eqb (type vn) "#text" then
    (text_static options (nodeValue vn),
     set_static (text_static options (nodeValue vn)) vn)
  else if no_directives options (props vn) then
    let r := fst (every_child options (children vn)) && no_bindings options (props vn) in
    (r, set_static r (set_children (snd (every_child options (children vn))) vn))
  else (false, set_static false vn).
Proof.
  destruct vn as [ty ps ch st nv]; simpl.
  destruct (String.eqb ty "#text"); [reflexivity|].
  destruct (no_directives options ps); [|reflexivity].
  fold (every_child options). destruct (every_child options ch); reflexivity.
Qed.

Lemma every_child_all (l : list VNode) :
  fst (every_child options l) = forallb (fun c => fst (detectStaticNodes options c)) l.
Proof.
  induction l as [|c t IH]; simpl; [reflexivity|].
  destruct (detectStaticNodes options c) as [bc c']; simpl.
  destruct bc; simpl; [|reflexivity].
  destruct (every_child options t); simpl in *. exact IH.
Qed.

(** The flag returned is the flag stored: [return vn.static]. *)
Lemma detectStaticNodes_stored (vn : VNode) :
  static (snd (detectStaticNodes options vn)) =
  Some (fst (detectStaticNodes options vn)).
Proof.
  rewrite detectStaticNodes_unfold.
  destruct (String.eqb (type vn) "#text"); [reflexivity|].
  destruct (no_directives options (props vn)); reflexivity.
Qed.

(** What a text node's flag is: the first match starts at index 0, or there
    is no value at all. *)
Lemma detectStaticNodes_text (vn : VNode) :
  type vn = "#text" ->
  fst (detectStaticNodes options vn) =
  match nodeValue vn with
  | Some s => Z.eqb (search (source (interpolationRegex options)) s) 0
  | None => true
  end.
Proof.
  intros Ht. rewrite detectStaticNodes_unfold, Ht. simpl.
  destruct (nodeValue vn); reflexivity.
Qed.

(** [d in vn.props] for a name that [Object.prototype] does not have. *)
Lemma js_in_own (T : Type) (k : string) (d : Dict T) :
  inherited k = false -> js_in k d = dict_in k d.
Proof. intros H. unfold js_in. rewrite H. apply orb_false_r. Qed.

(** C2, for a data-binding pattern without the [g] and [y] flags and
    directives registered under names that [Object.prototype] does not have:
    an element node is classified static if and only if none of its prop keys
    is a registered directive name, every child is classified static, and no
    prop key matches the data-binding pattern; the flag stored on the node is
    the flag returned. *)
Theorem detectStaticNodes_element (vn : VNode) :
  type vn <> "#text" ->
  (forall d, In d (keys (directives options)) -> inherited d = false) ->
  (fst (detectStaticNodes options vn) = true <->
   (forall p, In p (keys (props vn)) -> ~ In p (keys (directives options))) /\
   (forall c, In c (children vn) ->
              fst (detectStaticNodes options c) = true) /\
   (forall p, In p (keys (props vn)) ->
              exec (dataBindingRegex options) p = None)) /\
  static (snd (detectStaticNodes options vn)) =
  Some (fst (detectStaticNodes options vn)).
Proof.
  intros Hty Hnames. split; [|apply detectStaticNodes_stored].
  rewrite detectStaticNodes_unfold.
  destruct (String.eqb_spec (type vn) "#text") as [E|_]; [contradiction|].
  assert (Ha : no_directives options (props vn) = true <->
               forall p, In p (keys (props vn)) ->
                         ~ In p (keys (directives options))).
  { unfold no_directives. rewrite forallb_forall. split.
    - intros H p Hp Hd. specialize (H p Hd).
      rewrite (@js_in_own _ p (props vn) (Hnames p Hd)) in H.
      apply negb_true_iff, dict_in_false_keys in H. contradiction.
    - intros H d Hd. rewrite (@js_in_own _ d (props vn) (Hnames d Hd)).
      apply negb_true_iff, dict_in_false_keys.
      intros Hp. exact (H d Hp Hd). }
  assert (Hc : no_bindings options (props vn) = true <->
               forall p, In p (keys (props vn)) ->
                         exec (dataBindingRegex options) p = None).
  { unfold no_bindings. rewrite forallb_forall. split.
    - intros H p Hp. specialize (H p Hp).
      destruct (exec (dataBindingRegex options) p); [discriminate|reflexivity].
    - intros H p Hp. rewrite (H p Hp). reflexivity. }
  destruct (no_directives options (props vn)) eqn:Ea; simpl.
  - rewrite andb_true_iff, every_child_all, forallb_forall, Hc.
    split.
    + intros [Hb Hk]. split; [apply Ha; reflexivity|]. split; assumption.
    + intros (_ & Hb & Hk). split; assumption.
  - split; [discriminate|]. intros (H & _). apply Ha in H. discriminate.
Qed.

End StaticAnalyzer.

(** The names of the directives of the examples are not names of
    [Object.prototype]. *)
Lemma Example_directive_names (d : string) :
  In d (keys (directives Example.options)) -> inherited d = false.
Proof. intros [<-|[]]. reflexivity. Qed.

(** C2 on nodes with props and children, as [parse] makes them (Q is the
    double quote).  [<div class=QaQ><span id=QsQ></span><b></b></div>] meets
    the three conditions and is static;
    [<div class=QaQ {{id}}=QxQ><span></span></div>] has a prop key that the
    data-binding pattern matches, and is dynamic. *)
Lemma detectStaticNodes_element_witness :
  fst (detectStaticNodes Example.options
         (Example.element "div" [("class", VStr "a")]
            [Example.element "span" [("id", VStr "s")] [];
             Example.element "b" [] []])) = true /\
  fst (detectStaticNodes Example.options
         (Example.element "div" [("class", VStr "a"); ("{{id}}", VStr "x")]
            [Example.element "span" [] []])) <> true.
Proof.
  split.
  - apply (@detectStaticNodes_element Example.options
             (Example.element "div" [("class", VStr "a")]
                [Example.element "span" [("id", VStr "s")] [];
                 Example.element "b" [] []])).
    + discriminate.
    + exact Example_directive_names.
    + split; [|split].
      * intros p [<-|[]] [E|[]]. discriminate E.
      * intros c [<-|[<-|[]]]; vm_compute; reflexivity.
      * intros p [<-|[]]. vm_compute. reflexivity.
  - intros H.
    apply (@detectStaticNodes_element Example.options
             (Example.element "div" [("class", VStr "a"); ("{{id}}", VStr "x")]
                [Example.element "span" [] []])) in H.
    + destruct H as (_ & _ & Hc).
      specialize (Hc "{{id}}" (or_intror (or_introl eq_refl))).
      vm_compute in Hc. discriminate Hc.
    + discriminate.
    + exact Example_directive_names.
Defined.

(** C2 as stated fails in two ways.  With a directive registered under a
    name of [Object.prototype], here [constructor], [d in vn.props] holds for
    every node: [<div></div>] has no props and no children, so that the three
    conditions hold, and is classified dynamic.  With a data-binding pattern
    that carries the [g] flag, here [/{{(.+)}}/g], [exec] starts where the
    call before stopped: the first run over the prop keys of
    [<div {{a}}=QxQ></div>] finds the bound key and leaves [lastIndex] 5, and
    the second run, as a second call of [renderRest] makes it, finds none:
    the node counts as having no bound prop although its key matches. *)
Lemma detectStaticNodes_element_counterexample :
  ~ (fst (detectStaticNodes
            (mkOptions (h Example.options)
               [("constructor", Example.directive_if)]
               (interpolationRegex Example.options)
               (dataBindingRegex Example.options))
            (Example.element "div" [] [])) = true <->
     (forall p, In p (keys (props (Example.element "div" [] []))) ->
                ~ In p (keys [("constructor", Example.directive_if)])) /\
     (forall c, In c (children (Example.element "div" [] [])) ->
                fst (detectStaticNodes
                       (mkOptions (h Example.options)
                          [("constructor", Example.directive_if)]
                          (interpolationRegex Example.options)
                          (dataBindingRegex Example.options)) c) = true) /\
     (forall p, In p (keys (props (Example.element "div" [] []))) ->
                exec Example.dataBinding p = None)) /\
  no_bindings_g Example.dataBinding ["{{a}}"] 0 = (false, 5) /\
  no_bindings_g Example.dataBinding ["{{a}}"] 5 = (true, 0) /\
  exec Example.dataBinding "{{a}}" <> None.
Proof.
  split; [|split; [|split]].
  - intros [_ H]. assert (E : false = true); [|discriminate E].
    apply H. split; [|split]; intros ? [].
  - vm_compute. reflexivity.
  - vm_compute. reflexivity.
  - vm_compute. discriminate.
Qed.

(** One case for and one against each condition of C2, on nodes as [parse]
    makes them (Q is the double quote): [<div class=QaQ><span></span></div>]
    is static; [<div if=QxQ></div>] has a directive, [<div><p if=QxQ></p></div>]
    has a dynamic child and [<div {{id}}=QxQ></div>] has a bound prop, and
    they are dynamic. *)
Lemma detectStaticNodes_element_cases :
  fst (detectStaticNodes Example.options
         (Example.element "div" [("class", VStr "a")]
            [Example.element "span" [] []])) = true /\
  fst (detectStaticNodes Example.options
         (Example.element "div" [("if", VStr "x")] [])) = false /\
  fst (detectStaticNodes Example.options
         (Example.element "div" []
            [Example.element "p" [("if", VStr "x")] []])) = false /\
  fst (detectStaticNodes Example.options
         (Example.element "div" [("{{id}}", VStr "x")] [])) = false.
Proof. repeat split; vm_compute; reflexivity. Qed.

(** C1, at inputs where the code departs from it: a text node without any
    interpolation marker is classified dynamic, because [search] answers -1
    and [!(-1)] is false; a text node that starts with a marker is
    classified static, because [search] answers 0. *)
Theorem detectStaticNodes_text_flag_inverted :
  search (source (interpolationRegex Example.options)) "hello" = (-1)%Z /\
  fst (detectStaticNodes Example.options (Example.text "hello")) = false /\
  search (source (interpolationRegex Example.options)) "{{name}}" = 0%Z /\
  fst (detectStaticNodes Example.options (Example.text "{{name}}")) = true /\
  fst (detectStaticNodes Example.options
         (Example.element "div" [] [Example.text "{{name}}"])) = true /\
  fst (detectStaticNodes Example.options
         (Example.element "div" [] [Example.text "hello"])) = false.
Proof. repeat split; vm_compute; reflexivity. Qed.

(* ================================================================== *)
(** ** parseProps *)

Lemma substring_split (n : nat) (t p s : string) :
  t = p ++ s -> n = String.length p -> substring 0 n t = p.
Proof. intros -> ->. apply substring_prefix. Qed.

Lemma match_attr_presence (k rest : string) (i : nat) :
  k <> "" -> JsString.all_chars regex.attrChar k = true ->
  JsString.starts_outside regex.afterFlag rest = true ->
  match_at regex.attributes (k ++ rest) i =
  Some (mkMatch i k [(1, k)] rest).
Proof.
  intros Hne Hall Hrest. destruct k as [|a k]; [contradiction|].
  simpl in Hall. apply andb_true_iff in Hall. destruct Hall as [Ha Hall].
  assert (Hout : JsString.starts_outside regex.attrChar rest = true).
  { destruct rest as [|b t]; [reflexivity|]. simpl in *.
    apply negb_true_iff, orb_false_iff in Hrest. apply negb_true_iff, Hrest. }
  unfold match_at, regex.attributes. simpl cat.
  cbn [rmatch Plus].
  unfold one at 1. cbn [String.append]. fold regex.attrChar. rewrite Ha.
  erewrite star_loop_run with (p := regex.attrChar);
   [reflexivity | | exact Hall | exact Hout | rewrite length_append; lia | ].
  - intros. simpl. rewrite cap_clear_nil. reflexivity.
  - cbn -[substring Nat.sub].
    assert (Hs : substring 0 (S (i + String.length k) - i) (String a (k ++ rest)) = String a k).
    { apply substring_split with (s := rest); [reflexivity | cbn [String.length]; lia]. }
    destruct rest as [|b t].
    + simpl one. rewrite Hs. reflexivity.
    + simpl in Hrest. apply negb_true_iff, orb_false_iff in Hrest.
      destruct Hrest as [_ Hb]. unfold one. rewrite Ascii.eqb_sym, Hb.
      rewrite Hs. reflexivity.
Qed.

Lemma exec_from_match_at (r : re) (s : string) (i : nat) (m : Match) :
  match_at r s i = Some m -> exec_from r s i = Some m.
Proof. intros H. destruct s; simpl; rewrite H; reflexivity. Qed.

Lemma slice_all (s : string) : JsString.slice (String.length s) s = "".
Proof. induction s; simpl; auto. Qed.

(** Once [lastIndex] is at the end of the string, [exec] finds no further
    attribute. *)
Lemma exec_g_attributes_end (s : string) :
  exec_g regex.attributes s (String.length s) = (None, 0).
Proof.
  unfold exec_g. rewrite Nat.ltb_irrefl, slice_all. reflexivity.
Qed.

Lemma slice_length (n : nat) (s : string) :
  String.length (JsString.slice n s) = String.length s - n.
Proof.
  revert s. induction n as [|n IH]; intros s; simpl; [lia|].
  destruct s; simpl; [reflexivity | apply IH].
Qed.

(** Every attribute found moves [lastIndex] forward, and not beyond the end
    of the string. *)
Lemma exec_g_attributes_progress (str : string) (lastIndex : nat)
  (m : Match) (lastIndex' : nat) :
  exec_g regex.attributes str lastIndex = (Some m, lastIndex') ->
  lastIndex < lastIndex' <= String.length str.
Proof.
  unfold exec_g.
  destruct (Nat.ltb_spec (String.length str) lastIndex) as [|Hle];
    [discriminate|].
  destruct (exec_from regex.attributes (JsString.slice lastIndex str)
              lastIndex) as [m0|] eqn:E; [|discriminate].
  intros H. injection H as -> <-.
  apply exec_from_sound in E. destruct E as (pre & Hs & Hi & Hp).
  specialize (Hp eq_refl).
  pose proof (slice_length lastIndex str) as Hl.
  rewrite Hs, !length_append in Hl.
  destruct (m_text m); [contradiction|]. simpl in *. lia.
Qed.

(** [findAll] on the attribute pattern comes to an end: the fuel that
    [parseProps] gives it is never used up. *)
Lemma findAll_attributes_total (fuel : nat) :
  forall str lastIndex matches,
    S (String.length str) - lastIndex < fuel ->
    findAll fuel str regex.attributes lastIndex matches <> OutOfFuel.
Proof.
  induction fuel as [|fuel IH]; intros str lastIndex matches H; [lia|].
  simpl.
  destruct (exec_g regex.attributes str lastIndex) as [[m|] lastIndex']
    eqn:E; [|discriminate].
  apply exec_g_attributes_progress in E. apply IH. lia.
Qed.

Lemma parseProps_total (propString : string) :
  parseProps propString <> OutOfFuel.
Proof.
  unfold parseProps.
  pose proof (@findAll_attributes_total (S (S (String.length propString)))
                propString 0 [] ltac:(lia)) as H.
  destruct (findAll _ _ _ _ _); simpl; [discriminate | discriminate | tauto | discriminate].
Qed.

(** The match of an attribute with a value, wherever it stands. *)
Lemma match_attr_pair (k v rest : string) (i : nat) :
  k <> "" -> JsString.all_chars regex.attrChar k = true ->
  JsString.all_chars regex.valueChar v = true ->
  match_at regex.attributes (attr_text (Pair k v) ++ rest) i =
  Some (mkMatch i (attr_text (Pair k v)) [(2, v); (1, k)] rest).
Proof.
  intros Hne Hall Hv. destruct k as [|a k]; [contradiction|].
  simpl in Hall. apply andb_true_iff in Hall. destruct Hall as [Ha Hall].
  unfold match_at, regex.attributes, attr_text, JsString.q. simpl cat.
  rewrite !append_assoc.
  cbn [rmatch Plus].
  unfold one at 1. cbn [String.append]. fold regex.attrChar. rewrite Ha.
  erewrite star_loop_run with (p := regex.attrChar);
   [reflexivity | | exact Hall | reflexivity | rewrite length_append; lia | ].
  - intros. simpl. rewrite cap_clear_nil. reflexivity.
  - cbn [rmatch Opt one Ascii.eqb Bool.eqb String.append].
    rewrite Ascii.eqb_refl.
    erewrite star_loop_run with (p := regex.valueChar);
      [reflexivity | | exact Hv | reflexivity | rewrite length_append; lia | ].
    + intros. simpl. rewrite cap_clear_nil. reflexivity.
    + cbn [one]. rewrite Ascii.eqb_refl.
      f_equal. f_equal; [|f_equal; [|f_equal]].
      * apply substring_split with (s := rest).
        -- cbn [String.append]. rewrite !append_assoc. cbn [String.append].
           rewrite !append_assoc. reflexivity.
        -- cbn [String.length]. rewrite !length_append. cbn [String.length].
           rewrite length_append. cbn [String.length]. lia.
      * f_equal. apply substring_split with (s := String JsString.dq rest).
        -- reflexivity.
        -- lia.
      * f_equal.
        apply substring_split
          with (s := String "=" (String JsString.dq (v ++ String JsString.dq rest))).
        -- reflexivity.
        -- cbn [String.length]. lia.
Qed.

(** The match of an attribute at the head of the input. *)
Lemma match_attr (a : Attribute) (rest : string) (i : nat) :
  attr_ok a = true ->
  JsString.starts_outside regex.afterFlag rest = true ->
  match_at regex.attributes (attr_text a ++ rest) i =
  Some (mkMatch i (attr_text a) (attr_caps a) rest).
Proof.
  unfold attr_ok. intros Hok Hrest.
  apply andb_true_iff in Hok. destruct Hok as [Hok Hv].
  apply andb_true_iff in Hok. destruct Hok as [Hne Hk].
  assert (Hk0 : attr_key a <> "") by (destruct (attr_key a); [discriminate | discriminate]).
  destruct a as [k|k v]; simpl in *.
  - apply match_attr_presence; assumption.
  - apply match_attr_pair; assumption.
Qed.

Lemma exec_from_attr (sp : string) (a : Attribute) (rest : string) (i : nat) :
  sp = "" \/ sp = " " ->
  attr_ok a = true ->
  JsString.starts_outside regex.afterFlag rest = true ->
  exec_from regex.attributes (sp ++ attr_text a ++ rest) i =
  Some (mkMatch (i + String.length sp) (attr_text a) (attr_caps a) rest).
Proof.
  intros [->| ->] Hok Hrest.
  - simpl. rewrite Nat.add_0_r. apply exec_from_match_at, match_attr; assumption.
  - cbn [String.append exec_from].
    replace (match_at regex.attributes (String " " (attr_text a ++ rest)) i)
      with (@None Match) by reflexivity.
    simpl String.length. rewrite Nat.add_1_r.
    apply exec_from_match_at, match_attr; assumption.
Qed.

Lemma attrs_from_blank_outside (t : list Attribute) :
  JsString.starts_outside regex.afterFlag (attrs_from " " t) = true.
Proof. destruct t; reflexivity. Qed.

(** [findAll] on a list of attributes finds them one by one. *)
Lemma findAll_items (l : list Attribute) :
  forall sp pre fuel ms,
    sp = "" \/ sp = " " ->
    forallb attr_ok l = true ->
    List.length l < fuel ->
    exists ms',
      findAll fuel (pre ++ attrs_from sp l) regex.attributes
        (String.length pre) ms = Ok (ms ++ ms')%list /\
      map m_caps ms' = map attr_caps l.
Proof.
  induction l as [|a t IH]; intros sp pre fuel ms Hsp Hok Hfuel.
  - exists []. simpl attrs_from. rewrite append_nil_r, app_nil_r.
    destruct fuel as [|fuel]; [simpl in Hfuel; lia|].
    simpl findAll. rewrite exec_g_attributes_end. auto.
  - simpl in Hok. apply andb_true_iff in Hok. destruct Hok as [Ha Ht].
    destruct fuel as [|fuel]; [lia|].
    cbn [findAll attrs_from]. unfold exec_g.
    destruct (Nat.ltb_spec (String.length (pre ++ sp ++ attr_text a ++ attrs_from " " t))
                (String.length pre)) as [Hlt|_].
    { rewrite length_append in Hlt. lia. }
    rewrite slice_append.
    rewrite (@exec_from_attr sp a (attrs_from " " t) (String.length pre) Hsp Ha
               (attrs_from_blank_outside t)).
    cbn [m_index m_text].
    destruct (IH " " (pre ++ sp ++ attr_text a) fuel
                (ms ++ [mkMatch (String.length pre + String.length sp) (attr_text a) (attr_caps a) (attrs_from " " t)])%list
                (or_intror eq_refl) Ht ltac:(simpl in Hfuel; lia))
      as (ms' & E & Hm).
    rewrite !length_append in E. rewrite !append_assoc in E.
    rewrite Nat.add_assoc in E. rewrite E.
    exists (mkMatch (String.length pre + String.length sp) (attr_text a) (attr_caps a) (attrs_from " " t) :: ms').
    rewrite <- app_assoc. simpl. rewrite Hm. auto.
Qed.

Lemma attrs_from_length (l : list Attribute) (sp : string) :
  forallb attr_ok l = true ->
  List.length l <= String.length (attrs_from sp l).
Proof.
  revert sp. induction l as [|a t IH]; intros sp Hok; simpl; [lia|].
  simpl in Hok. apply andb_true_iff in Hok. destruct Hok as [Ha Ht].
  specialize (IH " " Ht). rewrite !length_append.
  assert (1 <= String.length (attr_text a)).
  { unfold attr_ok in Ha. apply andb_true_iff in Ha. destruct Ha as [Ha _].
    apply andb_true_iff in Ha. destruct Ha as [Ha _].
    destruct a as [k|k v]; simpl in *.
    - destruct k; [discriminate | simpl; lia].
    - destruct k; [discriminate | simpl; lia]. }
  lia.
Qed.

(** *** Properties and their enumeration order *)

Lemma dict_set_In {T} (k : string) (v : T) (d : Dict T) (k' : string)
  (v' : T) :
  In (k', v') (dict_set k v d) -> (k', v') = (k, v) \/ In (k', v') d.
Proof.
  induction d as [|[k0 v0] t IH]; simpl.
  - intros [H|[]]. left. symmetry. exact H.
  - destruct (String.eqb k k0).
    + intros [H|H]; [left; symmetry; exact H | right; right; exact H].
    + intros [H|H]; [right; left; exact H|].
      destruct (IH H) as [H'|H']; [left; exact H' | right; right; exact H'].
Qed.

Lemma dict_set_keys {T} (k : string) (v : T) (d : Dict T) :
  keys (dict_set k v d) = if dict_in k d then keys d else (keys d ++ [k])%list.
Proof.
  unfold dict_in. induction d as [|[k0 v0] t IH]; simpl; [reflexivity|].
  destruct (String.eqb_spec k k0) as [->|_]; simpl; [reflexivity|].
  rewrite IH. destruct (dict_get k t); reflexivity.
Qed.

Lemma dict_set_NoDup {T} (k : string) (v : T) (d : Dict T) :
  NoDup (keys d) -> NoDup (keys (dict_set k v d)).
Proof.
  intros H. rewrite dict_set_keys. destruct (dict_in k d) eqn:E; [exact H|].
  apply NoDup_app; [exact H | constructor; [intros [] | constructor] |].
  intros x Hx [<-|[]]. apply dict_in_false_keys in E. contradiction.
Qed.

Lemma dict_get_set {T} (k k' : string) (v : T) (d : Dict T) :
  dict_get k (dict_set k' v d) =
  if String.eqb k k' then Some v else dict_get k d.
Proof.
  induction d as [|[k0 v0] t IH]; simpl.
  - destruct (String.eqb k k'); reflexivity.
  - destruct (String.eqb_spec k' k0) as [->|Hn]; simpl.
    + destruct (String.eqb k k0); reflexivity.
    + rewrite IH. destruct (String.eqb_spec k k0) as [->|_]; [|reflexivity].
      destruct (String.eqb_spec k0 k') as [E|_]; [|reflexivity].
      symmetry in E. contradiction.
Qed.

Lemma dict_in_existsb {T} (k : string) (d : Dict T) :
  dict_in k d = existsb (String.eqb k) (keys d).
Proof.
  unfold dict_in. induction d as [|[k0 v0] t IH]; simpl; [reflexivity|].
  destruct (String.eqb k k0); [reflexivity | exact IH].
Qed.

Lemma insert_index_In {T} (n : N) (k : string) (v : T) (d : Dict T)
  (k' : string) (v' : T) :
  In (k', v') (insert_index n k v d) -> (k', v') = (k, v) \/ In (k', v') d.
Proof.
  induction d as [|[k0 v0] t IH]; simpl.
  - intros [H|[]]. left. symmetry. exact H.
  - destruct (array_index k0) as [n'|]; [destruct (n' <? n)%N|].
    + intros [H|H]; [right; left; exact H|].
      destruct (IH H) as [H'|H']; [left; exact H' | right; right; exact H'].
    + intros [H|H]; [left; symmetry; exact H | right; exact H].
    + intros [H|H]; [left; symmetry; exact H | right; exact H].
Qed.

Lemma insert_index_keys_In {T} (n : N) (k : string) (v : T) (d : Dict T)
  (x : string) :
  In x (keys (insert_index n k v d)) <-> x = k \/ In x (keys d).
Proof.
  induction d as [|[k0 v0] t IH]; simpl.
  - split; [intros [H|[]]; left; symmetry; exact H | intros [H|[]]; left;
            symmetry; exact H].
  - destruct (array_index k0) as [n'|]; [destruct (n' <? n)%N|]; simpl.
    + rewrite IH. split; [intros [H|[H|H]] | intros [H|[H|H]]]; auto.
    + split; [intros [H|H] | intros [H|H]]; auto.
    + split; [intros [H|H] | intros [H|H]]; auto.
Qed.

Lemma insert_index_NoDup {T} (n : N) (k : string) (v : T) (d : Dict T) :
  ~ In k (keys d) -> NoDup (keys d) -> NoDup (keys (insert_index n k v d)).
Proof.
  induction d as [|[k0 v0] t IH]; simpl; intros Hk Hd.
  - constructor; [intros [] | constructor].
  - destruct (array_index k0) as [n'|]; [destruct (n' <? n)%N|]; simpl.
    + inversion Hd as [|? ? Hk0 Ht]; subst. constructor.
      * rewrite insert_index_keys_In. intros [E|H]; [|contradiction].
        apply Hk. left. exact E.
      * apply IH; [|exact Ht]. intros H. apply Hk. right. exact H.
    + constructor; assumption.
    + constructor; assumption.
Qed.

Lemma dict_get_insert_index {T} (n : N) (k k' : string) (v : T)
  (d : Dict T) :
  dict_in k' d = false ->
  dict_get k (insert_index n k' v d) =
  if String.eqb k k' then Some v else dict_get k d.
Proof.
  unfold dict_in. induction d as [|[k0 v0] t IH]; simpl; intros Hin.
  - destruct (String.eqb k k'); reflexivity.
  - destruct (String.eqb_spec k' k0) as [->|Hn]; [discriminate|].
    destruct (array_index k0) as [n'|]; [destruct (n' <? n)%N|]; simpl;
      try reflexivity.
    rewrite (IH Hin).
    destruct (String.eqb_spec k k0) as [->|_]; [|reflexivity].
    destruct (String.eqb_spec k0 k') as [E|_]; [|reflexivity].
    symmetry in E. contradiction.
Qed.

Lemma prop_set_In {T} (k : string) (v : T) (d : Dict T) (k' : string)
  (v' : T) :
  In (k', v') (prop_set k v d) ->
  ((k', v') = (k, v) /\ k <> "__proto__") \/ In (k', v') d.
Proof.
  unfold prop_set.
  destruct (String.eqb_spec k "__proto__") as [->|Hn]; [auto|].
  intros H.
  assert (H' : (k', v') = (k, v) \/ In (k', v') d).
  { destruct (dict_in k d); [apply dict_set_In; exact H|].
    destruct (array_index k);
      [apply insert_index_In in H | apply dict_set_In in H]; exact H. }
  destruct H' as [E|E]; [left; split; assumption | right; exact E].
Qed.

Lemma prop_set_NoDup {T} (k : string) (v : T) (d : Dict T) :
  NoDup (keys d) -> NoDup (keys (prop_set k v d)).
Proof.
  intros H. unfold prop_set.
  destruct (String.eqb k "__proto__"); [exact H|].
  destruct (dict_in k d) eqn:E; [apply dict_set_NoDup; exact H|].
  destruct (array_index k); [|apply dict_set_NoDup; exact H].
  apply insert_index_NoDup; [|exact H]. apply dict_in_false_keys. exact E.
Qed.

(** What a property holds after an assignment. *)
Lemma dict_get_prop_set {T} (k k' : string) (v : T) (d : Dict T) :
  k' <> "__proto__" ->
  dict_get k (prop_set k' v d) =
  if String.eqb k k' then Some v else dict_get k d.
Proof.
  intros Hn. unfold prop_set.
  destruct (String.eqb_spec k' "__proto__") as [E|_]; [contradiction|].
  destruct (dict_in k' d) eqn:E; [apply dict_get_set|].
  destruct (array_index k'); [|apply dict_get_set].
  apply dict_get_insert_index. exact E.
Qed.

(** For a name that is neither [__proto__] nor an array index the
    assignment keeps the order of creation. *)
Lemma prop_set_ordinary {T} (k : string) (v : T) (d : Dict T) :
  k <> "__proto__" -> array_index k = None -> prop_set k v d = dict_set k v d.
Proof.
  intros Hn Hi. unfold prop_set.
  destruct (String.eqb_spec k "__proto__") as [E|_]; [contradiction|].
  rewrite Hi. destruct (dict_in k d); reflexivity.
Qed.

Lemma fold_store (ms : list Match) :
  forall l d,
    map m_caps ms = map attr_caps l ->
    fold_left
      (fun props pair =>
         prop_set (JsString.tmpl (cap pair 1)) (value_or_true (cap pair 2)) props)
      ms d = fold_left store_attr l d.
Proof.
  induction ms as [|m ms IH]; intros l d H; destruct l as [|a l];
    try discriminate; [reflexivity|].
  simpl in H. injection H as Hm Hl. simpl.
  rewrite <- (IH l _ Hl). f_equal.
  unfold store_attr, cap. rewrite Hm. destruct a; reflexivity.
Qed.

(** [parseProps] on a list of attributes stores them in order. *)
Lemma parseProps_attrs (l : list Attribute) :
  forallb attr_ok l = true ->
  parseProps (attrs_text l) = Ok (fold_left store_attr l []).
Proof.
  intros Hok. unfold parseProps, attrs_text.
  destruct (@findAll_items l "" "" (S (S (String.length (attrs_from "" l)))) []
              (or_introl eq_refl) Hok) as (ms' & E & Hm).
  { pose proof (@attrs_from_length l "" Hok). lia. }
  cbn [String.append String.length app] in E. rewrite E.
  cbn [bind]. f_equal. apply fold_store. exact Hm.
Qed.

(** What a prop holds when no later attribute of the tag has its name. *)
Lemma fold_store_other (k : string) (l : list Attribute) :
  (forall b, In b l -> attr_key b <> k) ->
  forall d, dict_get k (fold_left store_attr l d) = dict_get k d.
Proof.
  induction l as [|a t IH]; intros H d; simpl; [reflexivity|].
  rewrite IH by (intros b Hb; apply H; right; exact Hb).
  unfold store_attr.
  destruct (String.eqb_spec (attr_key a) "__proto__") as [E|En].
  - unfold prop_set. rewrite E. reflexivity.
  - rewrite (dict_get_prop_set _ _ _ En).
    destruct (String.eqb_spec k (attr_key a)) as [E|_]; [|reflexivity].
    exfalso. apply (H a (or_introl eq_refl)). symmetry. exact E.
Qed.

(** C10, for a name other than [__proto__] that is not written again later
    in the tag: an attribute written with the empty string as its value,
    [k=QQ] with Q the double quote, is stored as the boolean [true], because
    [pair[2] || true] takes the empty string for absent.  For every name,
    and wherever the attribute stands among the others, the props are those
    of the tag with the attribute [k] written without a value. *)
Theorem parseProps_empty_value_is_true (before after : list Attribute)
  (k : string) :
  forallb attr_ok (before ++ Flag k :: after) = true ->
  exists d,
    parseProps (attrs_text (before ++ Pair k "" :: after)) = Ok d /\
    parseProps (attrs_text (before ++ Flag k :: after)) = Ok d /\
    (k <> "__proto__" ->
     (forall a, In a after -> attr_key a <> k) ->
     dict_get k d = Some VTrue).
Proof.
  intros Hok.
  assert (Hok' : forallb attr_ok (before ++ Pair k "" :: after) = true).
  { rewrite forallb_app in *. simpl in *.
    replace (attr_ok (Pair k "")) with (attr_ok (Flag k)); [exact Hok|].
    unfold attr_ok. simpl. reflexivity. }
  exists (fold_left store_attr (before ++ Flag k :: after) []).
  split; [|split].
  - rewrite (parseProps_attrs _ Hok'). f_equal.
    rewrite !fold_left_app. reflexivity.
  - apply parseProps_attrs. exact Hok.
  - intros Hk Hafter. rewrite fold_left_app. cbn [fold_left].
    rewrite (fold_store_other _ Hafter). unfold store_attr. cbn [attr_key].
    rewrite (dict_get_prop_set _ _ _ Hk), String.eqb_refl. reflexivity.
Qed.

(** The attribute [disabled] between two others, with the empty value and
    without a value: [class=QaQ disabled=QQ id=QxQ] and
    [class=QaQ disabled id=QxQ] give the same props, in which [disabled]
    holds [true]. *)
Lemma parseProps_empty_value_is_true_witness :
  exists d,
    parseProps
      ("class=" ++ JsString.q ++ "a" ++ JsString.q ++ " disabled=" ++
       JsString.q ++ JsString.q ++ " id=" ++ JsString.q ++ "x" ++
       JsString.q) = Ok d /\
    parseProps
      ("class=" ++ JsString.q ++ "a" ++ JsString.q ++ " disabled" ++
       " id=" ++ JsString.q ++ "x" ++ JsString.q) = Ok d /\
    dict_get "disabled" d = Some VTrue /\
    d = [("class", VStr "a"); ("disabled", VTrue); ("id", VStr "x")].
Proof.
  destruct (@parseProps_empty_value_is_true
              [Pair "class" "a"] [Pair "id" "x"] "disabled" eq_refl)
    as (d & H1 & H2 & H3).
  exists d. split; [exact H1|]. split; [exact H2|]. split.
  - apply H3; [discriminate|]. intros a [<-|[]]. discriminate.
  - vm_compute in H2. injection H2 as <-. reflexivity.
Defined.

(** C10 as stated fails in two ways.  For the name [__proto__] the
    assignment [props[pair[1]] = true] reaches the setter of
    [Object.prototype], which ignores a value that is not an object: nothing
    is stored for [__proto__=QQ].  And a name written again later in the tag
    holds the later value: [a=QQ a=QxQ] stores [x]. *)
Lemma parseProps_empty_value_is_true_counterexample :
  parseProps ("__proto__" ++ regex.emptyValue) = Ok [] /\
  (forall d, parseProps ("__proto__" ++ regex.emptyValue) = Ok d ->
             dict_get "__proto__" d <> Some VTrue) /\
  parseProps ("a" ++ regex.emptyValue ++ " a=" ++ JsString.q ++ "x" ++
              JsString.q) = Ok [("a", VStr "x")] /\
  (forall d, parseProps ("a" ++ regex.emptyValue ++ " a=" ++ JsString.q ++
                         "x" ++ JsString.q) = Ok d ->
             dict_get "a" d <> Some VTrue).
Proof.
  split; [vm_compute; reflexivity|]. split.
  - intros d H. vm_compute in H. injection H as <-. discriminate.
  - split; [vm_compute; reflexivity|].
    intros d H. vm_compute in H. injection H as <-. discriminate.
Qed.

(* ================================================================== *)
(** ** The tag tree builder *)

Section Parse.

Variable h : NodeConstructor.

(** Every tag is at least one character long, so an iteration that goes on
    leaves less text than it found. *)
Lemma parse_iter_shorter (html html' : string) (stack stack' : Stack) :
  parse_iter h html stack = Ok (Continue html' stack') ->
  String.length html' < String.length html.
Proof.
  unfold parse_iter. destruct (exec regex.anyTag html) as [nextTag|] eqn:E;
    [|discriminate].
  apply exec_from_sound in E. destruct E as (pre & Hs & Hi & Hp).
  specialize (Hp eq_refl). simpl in Hi.
  assert (Hlen : String.length
            (JsString.slice (m_index nextTag + String.length (m_text nextTag))
               html) < String.length html).
  { rewrite Hi, Hs at 1. rewrite <- length_append, <- append_assoc.
    rewrite slice_append. rewrite Hs, !length_append.
    destruct (m_text nextTag); [contradiction|simpl; lia]. }
  intros H.
  destruct (exec regex.openingTag (m_text nextTag)).
  - destruct (match cap m 2 with
              | Some raw => if JsString.truthy raw then parseProps raw else Ok []
              | None => Ok []
              end); simpl in H; try discriminate.
    injection H as <- _. exact Hlen.
  - destruct (unwind _ _ _) as [[[? ?] ?]|]; [|discriminate].
    injection H as <- _. exact Hlen.
Qed.

Lemma parse_steps_length (n : nat) :
  forall html stack html' stack',
    parse_steps n h html stack = Some (html', stack') ->
    String.length html' + n <= String.length html.
Proof.
  induction n as [|n IH]; intros html stack html' stack' E; simpl in E.
  - injection E as <- _. lia.
  - destruct (String.eqb html ""); [discriminate|].
    destruct (parse_iter h html stack) as [[html1 stack1|]| | |] eqn:Ei;
      try discriminate.
    apply parse_iter_shorter in Ei. apply IH in E. lia.
Qed.

Lemma parse_loop_steps (n : nat) :
  forall html stack html' stack' fuel,
    parse_steps n h html stack = Some (html', stack') ->
    parse_loop (n + fuel) h html stack = parse_loop fuel h html' stack'.
Proof.
  induction n as [|n IH]; intros html stack html' stack' fuel E; simpl in E.
  - injection E as <- <-. reflexivity.
  - simpl. destruct (String.eqb html ""); [discriminate|].
    destruct (parse_iter h html stack) as [[html1 stack1|]| | |] eqn:Ei;
      try discriminate.
    simpl. apply IH. exact E.
Qed.

(** The popping loop finds no container when no unclosed node on the stack
    has the closing tag's type. *)
Lemma unwind_none (name : option string) (stack : Stack) :
  (forall vn, In (vn, false) stack -> name <> Some (type vn)) ->
  forall content, unwind name stack content = None.
Proof.
  induction stack as [|[cur isClosed] rest IH]; intros H content; simpl;
    [reflexivity|].
  destruct isClosed.
  - rewrite orb_true_r. apply IH. intros vn Hin. apply H. right. exact Hin.
  - rewrite orb_false_r.
    assert (Hn : name <> Some (type cur)) by (apply H; left; reflexivity).
    destruct name as [nm|].
    + destruct (String.eqb_spec (type cur) nm) as [<-|_]; [congruence|].
      simpl. apply IH. intros vn Hin. apply H. right. exact Hin.
    + simpl. apply IH. intros vn Hin. apply H. right. exact Hin.
Qed.

(** From a closing tag without an unclosed node of its type on the stack,
    [parse] throws. *)
Lemma parse_throws
  (html : string) (n : nat) (html' : string) (stack : Stack)
  (nextTag : Match) :
  parse_steps n h html [] = Some (html', stack) ->
  html' <> "" ->
  exec regex.anyTag html' = Some nextTag ->
  exec regex.openingTag (m_text nextTag) = None ->
  (forall vn, In (vn, false) (push_text h html' (Some nextTag) stack) ->
              cap nextTag 1 <> Some (type vn)) ->
  parse html h = Throw (no_opening_tag (m_text nextTag)).
Proof.
  intros Hsteps Hne Htag Hclose Hstack.
  pose proof (parse_steps_length _ _ _ Hsteps) as Hlen.
  unfold parse.
  replace (S (String.length html))
    with (n + S (String.length html - n)) by lia.
  rewrite (parse_loop_steps _ _ _ _ Hsteps). simpl.
  destruct (String.eqb_spec html' "") as [->|_]; [contradiction|].
  unfold parse_iter. rewrite Htag, Hclose.
  rewrite unwind_none by exact Hstack. reflexivity.
Qed.

Lemma parse_iter_total (html : string) (stack : Stack) :
  parse_iter h html stack <> OutOfFuel.
Proof.
  unfold parse_iter. destruct (exec regex.anyTag html) as [nextTag|];
    [|discriminate].
  destruct (exec regex.openingTag (m_text nextTag)) as [openingTag|].
  - destruct (cap openingTag 2) as [raw|]; [|discriminate].
    destruct (JsString.truthy raw); [|discriminate].
    pose proof (parseProps_total raw) as H.
    destruct (parseProps raw); simpl; [discriminate | discriminate | tauto | discriminate].
  - destruct (unwind _ _ _) as [[[? ?] ?]|]; discriminate.
Qed.

Lemma parse_loop_total (fuel : nat) :
  forall html stack,
    String.length html < fuel -> parse_loop fuel h html stack <> OutOfFuel.
Proof.
  induction fuel as [|fuel IH]; intros html stack H; [lia|].
  simpl. destruct (String.eqb html ""); [discriminate|].
  pose proof (parse_iter_total html stack) as Ht.
  destruct (parse_iter h html stack) as [[html' stack'|stack']| | |] eqn:E;
    simpl; try discriminate; try tauto.
  apply IH. apply parse_iter_shorter in E. lia.
Qed.

(** [parse] returns a forest or throws: the loop ends before its fuel. *)
Lemma parse_total (html : string) : parse html h <> OutOfFuel.
Proof.
  unfold parse.
  pose proof (@parse_loop_total (S (String.length html)) html []
                ltac:(lia)) as H.
  destruct (parse_loop _ _ _ _); simpl; [discriminate | discriminate | tauto | discriminate].
Qed.

End Parse.


(* ================================================================== *)
(** ** compileProps *)

Section CompileProps.

Variable random : nat -> string.
Variable options : CompilerOptions.

Lemma dict_set_new {T} (k : string) (v : T) (d : Dict T) :
  ~ In k (keys d) -> dict_set k v d = (d ++ [(k, v)])%list.
Proof.
  induction d as [|[k' v'] t IH]; simpl; intros H; [reflexivity|].
  destruct (String.eqb_spec k k') as [->|_]; [tauto|].
  rewrite IH; [reflexivity | tauto].
Qed.

Lemma hasKey_false_not_in (ps : Dict Value) :
  hasKey options ps = false -> ~ In "key" (keys ps).
Proof.
  unfold hasKey. intros H Hin.
  assert (E : existsb (resolves_to_key options) (keys ps) = true).
  { apply existsb_exists. exists "key". split; [exact Hin | reflexivity]. }
  congruence.
Qed.

(** What [compileProps] prints, by cases on whether a prop resolves to
    [key]. *)
Lemma compileProps_cases (ps : Dict Value) (rng : nat) :
  compileProps random options ps rng =
  if hasKey options ps
  then ("{" ++ JsString.join "," (map (compileProp options) ps) ++ "}", rng)
  else ("{" ++ JsString.join ","
                 (map (compileProp options) ps ++
                  [compileProp options
                     ("key", VStr (fresh_key random rng))])%list ++ "}",
        S rng).
Proof.
  unfold compileProps, with_key.
  destruct (hasKey options ps) eqn:E; [reflexivity|].
  rewrite dict_set_new by (apply hasKey_false_not_in; exact E).
  rewrite map_app. reflexivity.
Qed.

Lemma propEntries_cases (ps : Dict Value) (rng : nat) :
  propEntries random options ps rng =
  if hasKey options ps
  then map (compileProp options) ps
  else (map (compileProp options) ps ++
        [compileProp options ("key", VStr (fresh_key random rng))])%list.
Proof.
  unfold propEntries, with_key.
  destruct (hasKey options ps) eqn:E; [reflexivity|]. simpl.
  rewrite dict_set_new by (apply hasKey_false_not_in; exact E).
  rewrite map_app. reflexivity.
Qed.

Lemma prefix_append (a b : string) : prefix a (a ++ b) = true.
Proof.
  induction a as [|c a IH]; simpl; [destruct b; reflexivity|].
  destruct (ascii_dec c c); [exact IH | congruence].
Qed.

(** A prop that resolves to [key] is printed as an entry for [key], when
    the data-binding pattern leaves the plain name [key] alone. *)
Lemma resolves_to_key_entry (p : string) (v : Value) :
  exec (dataBindingRegex options) "key" = None ->
  resolves_to_key options p = true ->
  is_key_entry (compileProp options (p, v)) = true.
Proof.
  intros Hkey. unfold resolves_to_key, compileProp, is_key_entry. simpl.
  destruct (String.eqb_spec p "key") as [->|_].
  - intros _. rewrite Hkey.
    apply (prefix_append "key: " ("'" ++ to_string v ++ "'")).
  - destruct (exec (dataBindingRegex options) p) as [m|]; [|discriminate].
    destruct (cap m 1) as [c|]; [|discriminate].
    intros E. apply String.eqb_eq in E. subst c.
    apply (prefix_append "key: " (to_string v)).
Qed.

(** The [some] of [compileProps] finds a prop exactly when one of the names
    is [key] or is matched by the data-binding pattern with [key] as its
    first capture. *)
Lemma hasKey_iff (ps : Dict Value) :
  hasKey options ps = true <->
  exists p, In p (keys ps) /\
    (p = "key" \/
     exists m, exec (dataBindingRegex options) p = Some m /\
               cap m 1 = Some "key").
Proof.
  unfold hasKey. rewrite existsb_exists. split.
  - intros (p & Hin & Hp). exists p. split; [exact Hin|].
    unfold resolves_to_key in Hp.
    destruct (String.eqb_spec p "key") as [E|_]; [left; exact E|]. right.
    destruct (exec (dataBindingRegex options) p) as [m|]; [|discriminate].
    exists m. split; [reflexivity|].
    destruct (cap m 1) as [c|]; [|discriminate].
    apply String.eqb_eq in Hp. rewrite Hp. reflexivity.
  - intros (p & Hin & Hp). exists p. split; [exact Hin|].
    unfold resolves_to_key.
    destruct (String.eqb_spec p "key") as [_|Hn]; [reflexivity|].
    destruct Hp as [E|(m & Em & Ec)]; [contradiction|].
    rewrite Em, Ec. reflexivity.
Qed.

(** C8, amended, for a data-binding pattern without the [g] and [y] flags.
    When no prop has the name [key] or a name that the pattern matches with
    [key] as its first capture, [compileProps] adds a prop [key] whose value
    is [y-key-] followed by the digits of a fresh draw, and prints it last;
    when there is such a prop, nothing is added and nothing is drawn.  Two
    synthetic keys are equal exactly when the two draws have the same
    digits.  When the pattern does not match the plain name [key], the
    synthetic prop is printed as a quoted [key] entry and the literal has a
    [key] entry in either case. *)
Theorem compileProps_key (ps : Dict Value) (rng : nat) :
  ((forall p, In p (keys ps) ->
      p <> "key" /\
      forall m, exec (dataBindingRegex options) p = Some m ->
                cap m 1 <> Some "key") ->
   compileProps random options ps rng =
   ("{" ++ JsString.join ","
            (map (compileProp options) ps ++
             [compileProp options
                ("key", VStr ("y-key-" ++ JsString.slice 2 (random rng)))])%list
        ++ "}",
    S rng)) /\
  ((exists p, In p (keys ps) /\
      (p = "key" \/
       exists m, exec (dataBindingRegex options) p = Some m /\
                 cap m 1 = Some "key")) ->
   compileProps random options ps rng =
   ("{" ++ JsString.join "," (map (compileProp options) ps) ++ "}", rng)) /\
  (forall rng2,
     "y-key-" ++ JsString.slice 2 (random rng) =
     "y-key-" ++ JsString.slice 2 (random rng2) <->
     JsString.slice 2 (random rng) = JsString.slice 2 (random rng2)) /\
  (exec (dataBindingRegex options) "key" = None ->
   compileProp options
     ("key", VStr ("y-key-" ++ JsString.slice 2 (random rng))) =
   "key: 'y-key-" ++ JsString.slice 2 (random rng) ++ "'" /\
   existsb is_key_entry (propEntries random options ps rng) = true).
Proof.
  split; [|split; [|split]].
  - intros H. rewrite compileProps_cases.
    destruct (hasKey options ps) eqn:E; [|reflexivity].
    apply hasKey_iff in E. destruct E as (p & Hin & Hp).
    destruct (H p Hin) as [Hn Hm].
    destruct Hp as [Hp|(m & Em & Ec)]; [contradiction|].
    exfalso. exact (Hm m Em Ec).
  - intros H. apply hasKey_iff in H. rewrite compileProps_cases, H.
    reflexivity.
  - intros rng2. split; [|intros ->; reflexivity].
    intros H. injection H as H. exact H.
  - intros Hkey.
    assert (Hsyn : compileProp options ("key", VStr (fresh_key random rng)) =
                   "key: '" ++ fresh_key random rng ++ "'").
    { unfold compileProp. simpl. rewrite Hkey. reflexivity. }
    split; [exact Hsyn|].
    rewrite propEntries_cases.
    destruct (hasKey options ps) eqn:E.
    + unfold hasKey in E. apply existsb_exists in E.
      destruct E as (p & Hin & Hp). unfold keys in Hin.
      apply in_map_iff in Hin. destruct Hin as ([p' v] & <- & Hin).
      apply existsb_exists. exists (compileProp options (p', v)).
      split; [apply in_map; exact Hin|].
      apply resolves_to_key_entry; assumption.
    + rewrite existsb_app, Hsyn. simpl.
      rewrite orb_true_r. reflexivity.
Qed.

End CompileProps.

(** C8 on three elements compiled with the example configuration (Q is the
    double quote): [<p {{id}}=QuserIdQ class=QaQ>] has no prop that resolves
    to [key] and gets the synthetic key; [<p {{key}}=QkQ>] has one through
    the capture of the data-binding pattern, and [<p key=QaQ>] has one by
    name: nothing is added, nothing is drawn. *)
Lemma compileProps_key_witness :
  compileProps Example.random Example.options
    [("{{id}}", VStr "userId"); ("class", VStr "a")] 0 =
  ("{id: userId,class: 'a',key: 'y-key-4170'}", 1) /\
  compileProps Example.random Example.options [("{{key}}", VStr "k")] 0 =
  ("{key: k}", 0) /\
  compileProps Example.random Example.options [("key", VStr "a")] 0 =
  ("{key: 'a'}", 0) /\
  existsb is_key_entry
    (propEntries Example.random Example.options
       [("{{id}}", VStr "userId"); ("class", VStr "a")] 0) = true.
Proof.
  destruct (@compileProps_key Example.random Example.options
              [("{{id}}", VStr "userId"); ("class", VStr "a")] 0)
    as (H1 & _ & _ & H4).
  destruct (@compileProps_key Example.random Example.options
              [("{{key}}", VStr "k")] 0) as (_ & H2 & _).
  destruct (@compileProps_key Example.random Example.options
              [("key", VStr "a")] 0) as (_ & H3 & _).
  split; [|split; [|split]].
  - apply H1. intros p [<-|[<-|[]]]; (split; [discriminate|]); intros m E;
      vm_compute in E; [injection E as <-|]; discriminate.
  - apply H2. exists "{{key}}". split; [left; reflexivity|]. right.
    eexists. split; vm_compute; reflexivity.
  - apply H3. exists "key". split; [left; reflexivity|]. left. reflexivity.
  - exact (proj2 (H4 eq_refl)).
Defined.

(** C8 as stated fails in three ways.

    When the data-binding pattern matches the plain name [key]: with
    [/^.(.+)$/] the synthetic prop is printed as the unquoted entry
    [ey: y-key-...], and so is a prop written [key]; the literal has no
    [key] entry.

    When the data-binding pattern carries the [g] flag: with [/{{(.+?)}}/g]
    the [some] finds that [{{key}}] resolves to [key] and leaves [lastIndex]
    behind the match, so that the [exec] of the [map] fails on the same
    name: the prop is printed as the quoted entry [{{key}}: 'k'], and the
    literal has no [key] entry.

    When two draws are the same: nothing in [compileProps] makes the value
    unique, two elements get the same key. *)
Lemma compileProps_key_counterexample :
  (hasKey Example.sigil_options [] = false /\
   compileProps Example.random Example.sigil_options [] 0 =
   ("{ey: y-key-4170}", 1) /\
   existsb is_key_entry
     (propEntries Example.random Example.sigil_options [] 0) = false /\
   compileProps Example.random Example.sigil_options [("key", VStr "a")] 0 =
   ("{ey: a}", 0)) /\
  compileProps_g Example.random Example.dataBinding [("{{key}}", VStr "k")]
    0 0 = ("{{{key}}: 'k'}", 0, 0) /\
  (compileProps (fun _ => "0.5") Example.options [] 0 =
   ("{key: 'y-key-5'}", 1) /\
   compileProps (fun _ => "0.5") Example.options [] 1 =
   ("{key: 'y-key-5'}", 2)).
Proof. repeat split; vm_compute; reflexivity. Qed.

(** C7 as stated fails: the data-binding pattern is run on the key of a
    prop, so [id=Q{{userId}}Q] (Q the double quote) is printed as the string
    literal, not as the expression [userId]. *)
Lemma compileProps_binding_counterexample :
  parse ("<p id=" ++ JsString.q ++ "{{userId}}" ++ JsString.q ++ "></p>")
    host_h =
  Ok [Example.element "p" [("id", VStr "{{userId}}")] []] /\
  compileProp Example.options ("id", VStr "{{userId}}") = "id: '{{userId}}'" /\
  compileProp Example.options ("id", VStr "{{userId}}") <> "id: userId" /\
  fst (compileProps Example.random Example.options
         [("id", VStr "{{userId}}")] 0) =
  "{id: '{{userId}}',key: 'y-key-4170'}".
Proof.
  split; [vm_compute; reflexivity|].
  split; [vm_compute; reflexivity|].
  split; [vm_compute; discriminate|vm_compute; reflexivity].
Qed.

(** C7, amended: a prop whose key matches the data-binding pattern is
    printed under the captured name with its value as an expression; a prop
    whose key does not match is printed as a string literal.  With the
    pattern [/\{\{(.+?)\}\}/], the prop [{{id}}=QuserIdQ] gives the entry
    [id: userId] and the prop [id=Q{{userId}}Q] gives [id: '{{userId}}'],
    whatever the value is. *)
Theorem compileProps_binding_by_key (random : nat -> string) (v : Value)
  (rng : nat) :
  parse ("<p {{id}}=" ++ JsString.q ++ "userId" ++ JsString.q ++ "></p>")
    host_h =
  Ok [Example.element "p" [("{{id}}", VStr "userId")] []] /\
  compileProp Example.options ("{{id}}", v) = "id: " ++ to_string v /\
  compileProp Example.options ("id", v) = "id: '" ++ to_string v ++ "'" /\
  compileProps random Example.options [("{{id}}", v)] rng =
  ("{id: " ++ to_string v ++ ",key: '" ++ fresh_key random rng ++ "'}",
   S rng).
Proof.
  split; [vm_compute; reflexivity|].
  split; [reflexivity|]. split; [reflexivity|].
  rewrite compileProps_cases.
  change (hasKey Example.options [("{{id}}", v)]) with false.
  cbv beta iota. f_equal.
  change (map (compileProp Example.options) [("{{id}}", v)])
    with ["id: " ++ to_string v].
  change (compileProp Example.options ("key", VStr (fresh_key random rng)))
    with ("key: '" ++ fresh_key random rng ++ "'").
  unfold fresh_key. simpl. rewrite !append_assoc. simpl.
  rewrite !append_assoc. reflexivity.
Qed.

(* ================================================================== *)
(** ** compileNode *)

(** Induction on a node with the property at hand for all its children. *)
Lemma VNode_induction (P : VNode -> Prop) :
  (forall ty ps ch st nv, Forall P ch -> P (mkVNode ty ps ch st nv)) ->
  forall vn, P vn.
Proof.
  intros H. fix IH 1. intros [ty ps ch st nv]. apply H.
  induction ch as [|c t IHt]; constructor; [apply IH | exact IHt].
Qed.

Lemma weight_unfold (vn : VNode) :
  weight vn = S (List.length (props vn) + weights (children vn)).
Proof. destruct vn; reflexivity. Qed.

Section CompileNode.

Variable random : nat -> string.
Variable options : CompilerOptions.

(** The static analyser only stores flags. *)
Lemma detectStaticNodes_weight (vn : VNode) :
  weight (snd (detectStaticNodes options vn)) = weight vn.
Proof.
  induction vn as [ty ps ch st nv IH] using VNode_induction.
  rewrite detectStaticNodes_unfold. simpl.
  destruct (String.eqb ty "#text"); [reflexivity|].
  destruct (no_directives options ps); [|reflexivity].
  simpl. do 2 f_equal.
  induction IH as [|c t Hc _ IHt]; simpl; [reflexivity|].
  destruct (detectStaticNodes options c) as [bc c'] eqn:Ec. simpl in Hc.
  destruct bc.
  - destruct (every_child options t) as [bt t']. simpl in *.
    fold (weights t). fold (weights t') in *. rewrite Hc, IHt. reflexivity.
  - simpl. rewrite Hc. reflexivity.
Qed.

(** A directive found among the props is one of them. *)
Lemma first_directive_delete (ps : Dict Value) prop value d :
  first_directive options ps = Some (Registered prop value d) ->
  S (List.length (dict_delete prop ps)) = List.length ps.
Proof.
  induction ps as [|[k v] t IH]; simpl; [discriminate|].
  destruct (dict_get k (directives options)) eqn:E.
  - intros H. injection H as <- <- <-. rewrite String.eqb_refl. reflexivity.
  - destruct (inherited k); [discriminate|].
    intros H. destruct (String.eqb_spec prop k) as [->|_]; [reflexivity|].
    simpl. rewrite (IH H). reflexivity.
Qed.

Lemma run_handler_settled (g : Handler) (rest : VNode -> nat -> Gen)
  (w : nat) :
  (forall vn rng, weight vn <= w -> settled (weight vn) (rest vn rng)) ->
  forall vn rng,
    weight vn <= w -> settled (weight vn) (run_handler g rest vn rng).
Proof.
  intros Hrest. induction g as [code|k IH]; intros vn rng Hw; simpl.
  - lia.
  - specialize (Hrest vn rng Hw).
    destruct (rest vn rng) as [[[code vn'] rng']| | |]; simpl in *; auto.
    specialize (IH code vn' rng' ltac:(lia)).
    destruct (run_handler (k code) rest vn' rng') as [[[c2 vn2] rng2]| | |];
      simpl in *; auto. lia.
Qed.

Lemma compile_children_settled (compile1 : VNode -> nat -> Gen)
  (ch : list VNode) :
  (forall c rng, In c ch -> settled (weight c) (compile1 c rng)) ->
  forall rng,
    match compile_children compile1 ch rng with
    | Ok (_, ch', _) => weights ch' <= weights ch
    | Throw _ => True
    | OutOfFuel => False
    | Beyond => True
    end.
Proof.
  induction ch as [|c t IH]; intros H rng; simpl; [lia|].
  pose proof (H c rng (or_introl eq_refl)) as Hc.
  destruct (compile1 c rng) as [[[code c'] rng1]| | |]; simpl in *; auto.
  specialize (IH (fun c0 r0 Hin => H c0 r0 (or_intror Hin)) rng1).
  destruct (compile_children compile1 t rng1) as [[[codes t'] rng2]| | |];
    simpl in *; auto. lia.
Qed.

Lemma weights_in (c : VNode) (ch : list VNode) :
  In c ch -> weight c <= weights ch.
Proof.
  induction ch as [|x t IH]; simpl; [tauto|].
  intros [->|H]; [lia | specialize (IH H); lia].
Qed.

(** With fuel for its weight, [compileNode] comes to an end, and leaves a
    node that is no heavier. *)
Lemma compileNode_fuel_settled (fuel : nat) :
  forall vn rng,
    weight vn <= fuel ->
    settled (weight vn) (compileNode_fuel random options fuel vn rng).
Proof.
  induction fuel as [|fuel IH]; intros vn rng Hw.
  - rewrite weight_unfold in Hw. lia.
  - simpl. destruct (String.eqb (type vn) "#text").
    + destruct (nodeValue vn); simpl; auto.
    + pose proof (detectStaticNodes_weight vn) as Hd.
      set (vn1 := snd (detectStaticNodes options vn)) in *.
      destruct (first_directive options (props vn1))
        as [[prop value d|prop value]|] eqn:Ef.
      * apply first_directive_delete in Ef.
        assert (Hlt : weight (set_props (dict_delete prop (props vn1)) vn1)
                      < weight vn1).
        { rewrite (weight_unfold vn1), weight_unfold. simpl. lia. }
        assert (Hw2 : weight (set_props (dict_delete prop (props vn1)) vn1)
                      <= fuel) by lia.
        pose proof (@run_handler_settled (d value)
                      (compileNode_fuel random options fuel) fuel IH _ rng Hw2)
          as Hr.
        destruct (run_handler _ _ _ _) as [[[c2 vn2] rng2]| | |]; simpl in *;
          auto.
        lia.
      * exact I.
      * destruct (compileProps random options (props vn1) rng)
          as [propsCode rng1].
        assert (Hch : forall c r, In c (children vn1) ->
                  settled (weight c) (compileNode_fuel random options fuel c r)).
        { intros c r Hin. apply IH. apply weights_in in Hin.
          rewrite (weight_unfold vn1) in Hd. lia. }
        pose proof (compile_children_settled _ _ Hch rng1) as Hr.
        destruct (compile_children _ _ _) as [[[codes ch'] rng2]| | |];
          simpl in *; auto.
        fold (weights ch'). rewrite <- Hd, (weight_unfold vn1). lia.
Qed.

Lemma settled_not_out (w : nat) (r : Gen) : settled w r -> r <> OutOfFuel.
Proof. destruct r; simpl; [discriminate | discriminate | tauto | discriminate]. Qed.

Lemma run_handler_mono (g : Handler) (rest1 rest2 : VNode -> nat -> Gen) :
  (forall vn rng, rest1 vn rng <> OutOfFuel -> rest2 vn rng = rest1 vn rng) ->
  forall vn rng,
    run_handler g rest1 vn rng <> OutOfFuel ->
    run_handler g rest2 vn rng = run_handler g rest1 vn rng.
Proof.
  intros Hrest. induction g as [code|k IH]; intros vn rng H; simpl in *;
    [reflexivity|].
  destruct (rest1 vn rng) as [[[code vn'] rng']| | |] eqn:E1; simpl in *.
  - rewrite Hrest, E1 by (rewrite E1; discriminate). simpl. apply IH, H.
  - rewrite Hrest, E1 by (rewrite E1; discriminate). reflexivity.
  - contradiction.
  - rewrite Hrest, E1 by (rewrite E1; discriminate). reflexivity.
Qed.

Lemma compile_children_mono (c1 c2 : VNode -> nat -> Gen) (ch : list VNode) :
  (forall vn rng, c1 vn rng <> OutOfFuel -> c2 vn rng = c1 vn rng) ->
  forall rng,
    compile_children c1 ch rng <> OutOfFuel ->
    compile_children c2 ch rng = compile_children c1 ch rng.
Proof.
  intros Hc. induction ch as [|c t IH]; intros rng H; simpl in *;
    [reflexivity|].
  destruct (c1 c rng) as [[[code c'] rng1]| | |] eqn:E1; simpl in *.
  - rewrite Hc, E1 by (rewrite E1; discriminate). simpl.
    destruct (compile_children c1 t rng1) as [[[codes t'] rng2]| | |] eqn:E2;
      simpl in *.
    + rewrite IH, E2 by (rewrite E2; discriminate). reflexivity.
    + rewrite IH, E2 by (rewrite E2; discriminate). reflexivity.
    + contradiction.
    + rewrite IH, E2 by (rewrite E2; discriminate). reflexivity.
  - rewrite Hc, E1 by (rewrite E1; discriminate). reflexivity.
  - contradiction.
  - rewrite Hc, E1 by (rewrite E1; discriminate). reflexivity.
Qed.

(** More fuel does not change an outcome. *)
Lemma compileNode_fuel_mono (fuel : nat) :
  forall fuel' vn rng,
    fuel <= fuel' ->
    compileNode_fuel random options fuel vn rng <> OutOfFuel ->
    compileNode_fuel random options fuel' vn rng =
    compileNode_fuel random options fuel vn rng.
Proof.
  induction fuel as [|fuel IH]; intros fuel' vn rng Hle H;
    [simpl in H; contradiction|].
  destruct fuel' as [|fuel']; [lia|].
  assert (Hm : forall vn rng,
             compileNode_fuel random options fuel vn rng <> OutOfFuel ->
             compileNode_fuel random options fuel' vn rng =
             compileNode_fuel random options fuel vn rng).
  { intros vn0 rng0. apply IH. lia. }
  simpl in *. destruct (String.eqb (type vn) "#text"); [reflexivity|].
  destruct (first_directive options (props (snd (detectStaticNodes options vn))))
    as [[prop value d|prop value]|].
  - apply run_handler_mono; assumption.
  - reflexivity.
  - destruct (compileProps random options _ rng) as [propsCode rng1].
    rewrite (@compile_children_mono (compileNode_fuel random options fuel)
               (compileNode_fuel random options fuel')); auto.
    intros E. rewrite E in H. simpl in H. contradiction.
Qed.

(** Any fuel from the weight of the node on gives what [compileNode]
    gives. *)
Lemma compileNode_fuel_enough (fuel : nat) (vn : VNode) (rng : nat) :
  weight vn <= fuel ->
  compileNode_fuel random options fuel vn rng =
  compileNode random options vn rng.
Proof.
  intros H. unfold compileNode. apply compileNode_fuel_mono; [exact H|].
  apply (@settled_not_out (weight vn)).
  apply compileNode_fuel_settled. lia.
Qed.

(** [compileNode] comes to an end, and leaves a node no heavier. *)
Lemma compileNode_settled (vn : VNode) (rng : nat) :
  settled (weight vn) (compileNode random options vn rng).
Proof. apply compileNode_fuel_settled. lia. Qed.

Lemma run_handler_fuel (g : Handler) (fuel : nat) :
  forall vn rng,
    weight vn <= fuel ->
    run_handler g (compileNode_fuel random options fuel) vn rng =
    run_handler g (compileNode random options) vn rng.
Proof.
  induction g as [code|k IH]; intros vn rng H; simpl; [reflexivity|].
  rewrite compileNode_fuel_enough by exact H.
  pose proof (compileNode_settled vn rng) as Hs.
  destruct (compileNode random options vn rng) as [[[code vn'] rng']| | |];
    simpl in *; auto.
  apply IH. lia.
Qed.

Lemma dict_get_in_keys {T} (k : string) (d : Dict T) (v : T) :
  dict_get k d = Some v -> In k (keys d).
Proof.
  intros H. apply dict_in_keys. unfold dict_in. rewrite H. reflexivity.
Qed.

(** The first directive prop, given where it sits among the props. *)
Lemma js_in_false {T} (k : string) (d : Dict T) :
  js_in k d = false -> dict_get k d = None /\ inherited k = false.
Proof.
  unfold js_in, dict_in. intros H. apply orb_false_iff in H.
  destruct H as [H1 H2]. split; [|exact H2].
  destruct (dict_get k d); [discriminate|reflexivity].
Qed.

Lemma first_directive_split (before after : Dict Value) prop value d :
  (forall k, In k (keys before) -> js_in k (directives options) = false) ->
  dict_get prop (directives options) = Some d ->
  first_directive options (before ++ (prop, value) :: after)%list =
  Some (Registered prop value d) /\
  dict_delete prop (before ++ (prop, value) :: after)%list =
  (before ++ after)%list.
Proof.
  intros Hb Hd. induction before as [|[k v] t IH]; simpl.
  - rewrite Hd, String.eqb_refl. auto.
  - destruct (js_in_false _ _ (Hb k (or_introl eq_refl))) as [Hk1 Hk2].
    rewrite Hk1, Hk2.
    destruct (String.eqb_spec prop k) as [->|_].
    + rewrite Hk1 in Hd. discriminate.
    + destruct IH as [IH1 IH2]; [intros k0 Hk; apply Hb; right; exact Hk|].
      rewrite IH1, IH2. auto.
Qed.

(** A node with a directive prop is flagged dynamic without a look at its
    children. *)
Lemma detectStaticNodes_directive (vn : VNode) prop d :
  type vn <> "#text" ->
  In prop (keys (props vn)) ->
  dict_get prop (directives options) = Some d ->
  detectStaticNodes options vn = (false, set_static false vn).
Proof.
  intros Hty Hin Hd. rewrite detectStaticNodes_unfold.
  destruct (String.eqb_spec (type vn) "#text"); [contradiction|].
  destruct (no_directives options (props vn)) eqn:E; [|reflexivity].
  unfold no_directives in E. rewrite forallb_forall in E.
  specialize (E prop (dict_get_in_keys _ _ Hd)).
  apply negb_true_iff, orb_false_iff in E. destruct E as [E _].
  apply dict_in_false_keys in E. contradiction.
Qed.

(** The static analyser leaves type and props as they are. *)
Lemma detectStaticNodes_type_props (vn : VNode) :
  type (snd (detectStaticNodes options vn)) = type vn /\
  props (snd (detectStaticNodes options vn)) = props vn.
Proof.
  rewrite detectStaticNodes_unfold.
  destruct (String.eqb (type vn) "#text"); [split; reflexivity|].
  destruct (no_directives options (props vn)); split; reflexivity.
Qed.

Lemma compile_children_ext (c1 c2 : VNode -> nat -> Gen) (ch : list VNode) :
  (forall c rng, In c ch -> c1 c rng = c2 c rng) ->
  forall rng, compile_children c1 ch rng = compile_children c2 ch rng.
Proof.
  induction ch as [|c t IH]; intros H rng; simpl; [reflexivity|].
  rewrite (H c rng (or_introl eq_refl)).
  destruct (c2 c rng) as [[[code c'] rng1]| | |]; simpl; try reflexivity.
  rewrite IH by (intros c0 r0 Hin; apply H; right; exact Hin).
  reflexivity.
Qed.

(** The code of an element none of whose props is a property of the
    directives object: the call of [h] with the element's type, its props
    literal and the codes of its children, in this order. *)
Lemma compileNode_element (vn : VNode) (rng : nat) :
  type vn <> "#text" ->
  first_directive options (props vn) = None ->
  compileNode random options vn rng =
  ('(codes, ch', rng2) <-
     compile_children (compileNode random options)
       (children (snd (detectStaticNodes options vn)))
       (snd (compileProps random options (props vn) rng)) ;;
   Ok ("h('" ++ type vn ++ "'," ++
       fst (compileProps random options (props vn) rng) ++ ",[" ++
       JsString.join "," codes ++ "])",
       set_children ch' (snd (detectStaticNodes options vn)), rng2)).
Proof.
  intros Hty Hfd. unfold compileNode. rewrite (weight_unfold vn).
  cbn [compileNode_fuel].
  destruct (String.eqb_spec (type vn) "#text"); [contradiction|].
  pose proof (detectStaticNodes_weight vn) as Hw.
  destruct (detectStaticNodes_type_props vn) as [Et Ep].
  set (vn1 := snd (detectStaticNodes options vn)) in *.
  rewrite Ep, Et, Hfd.
  destruct (compileProps random options (props vn) rng) as [pc r1].
  cbn [fst snd].
  rewrite (@compile_children_ext
             (compileNode_fuel random options
                (List.length (props vn) + weights (children vn)))
             (compileNode random options)); [reflexivity|].
  intros c r Hin. apply compileNode_fuel_enough.
  apply weights_in in Hin. rewrite (weight_unfold vn1), Ep in Hw.
  rewrite (weight_unfold vn) in Hw. lia.
Qed.

(** C6, amended: for an element node whose first prop, in the order in
    which the props are enumerated, that is a property of the directives
    object is a registered directive [prop] with value [value] (no prop
    before it is registered or has a name that the directives object
    inherits from [Object.prototype]), [compileNode] returns what the
    directive's handler returns when called with [value] and a continuation.
    The prop is removed from the node first, and every call of the
    continuation is [compileNode] on that node in the state the calls before
    it have left: the first call compiles the node without the prop, and
    [compileNode] does not run out of fuel. *)
Theorem compileNode_directive (vn : VNode) (rng : nat)
  (before after : Dict Value) (prop : string) (value : Value)
  (d : Directive) :
  type vn <> "#text" ->
  props vn = (before ++ (prop, value) :: after)%list ->
  (forall k, In k (keys before) -> js_in k (directives options) = false) ->
  dict_get prop (directives options) = Some d ->
  compileNode random options vn rng =
  run_handler (d value) (compileNode random options)
    (mkVNode (type vn) (before ++ after)%list (children vn) (Some false)
       (nodeValue vn))
    rng /\
  (forall k,
     d value = RenderRest k ->
     compileNode random options vn rng =
     ('(code, vn', rng') <-
        compileNode random options
          (mkVNode (type vn) (before ++ after)%list (children vn) (Some false)
             (nodeValue vn))
          rng ;;
      run_handler (k code) (compileNode random options) vn' rng')) /\
  compileNode random options vn rng <> OutOfFuel.
Proof.
  intros Hty Hps Hb Hd.
  assert (E : compileNode random options vn rng =
              run_handler (d value) (compileNode random options)
                (mkVNode (type vn) (before ++ after)%list (children vn)
                   (Some false) (nodeValue vn))
                rng).
  { destruct (first_directive_split before after prop value Hb Hd)
      as [Hf Hdel].
    assert (Hin : In prop (keys (props vn))).
    { rewrite Hps. unfold keys. rewrite map_app. apply in_or_app.
      right. left. reflexivity. }
    unfold compileNode. rewrite (weight_unfold vn). simpl.
    destruct (String.eqb_spec (type vn) "#text"); [contradiction|].
    rewrite (@detectStaticNodes_directive vn prop d Hty Hin Hd). simpl.
    rewrite Hps, Hf, Hdel.
    apply run_handler_fuel.
    rewrite weight_unfold. simpl. rewrite !length_app. simpl. lia. }
  split; [exact E|]. split.
  - intros k Hk. rewrite E, Hk. reflexivity.
  - apply (@settled_not_out (weight vn)), compileNode_settled.
Qed.

End CompileNode.

(** The specification's example of C6: [<p if=QshowQ>x</p>], Q the double
    quote, with the directive [if]. *)
Lemma compileNode_directive_witness :
  parse ("<p if=" ++ JsString.q ++ "show" ++ JsString.q ++ ">x</p>") host_h =
  Ok [Example.element "p" [("if", VStr "show")] [Example.text "x"]] /\
  compileNode Example.random Example.options
    (Example.element "p" [("if", VStr "show")] [Example.text "x"]) 0 =
  Ok ("(show) ? (h('p',{key: 'y-key-4170'},[h('#text', null, 'x')])) : null",
      mkVNode "p" [] [mkVNode "#text" [] [] (Some false) (Some "x")]
        (Some false) None,
      1).
Proof.
  split; [reflexivity|].
  destruct (@compileNode_directive Example.random Example.options
              (Example.element "p" [("if", VStr "show")] [Example.text "x"]) 0
              [] [] "if" (VStr "show") Example.directive_if) as (E & _ & _).
  - discriminate.
  - reflexivity.
  - intros k [].
  - reflexivity.
  - rewrite E. reflexivity.
Defined.

(** C6 as stated fails in three ways (Q is the double quote).

    A handler that calls the continuation more than once: the node
    [<p dim=QoffQ if=QshowQ></p>] loses [dim]; the first [renderRest()]
    compiles the node with [if], which removes [if] from the same node; the
    second [renderRest()] therefore prints the bare element, not the code of
    the node without [dim].

    A prop with a name of [Object.prototype]: in [<p constructor=QxQ
    if=QshowQ></p>] the test [prop in options.directives] holds for
    [constructor], which comes first, and the function called is not the
    handler of [if].

    A prop whose name is an array index: with directives [if] and [1], the
    props of [<p if=QaQ 1=QbQ></p>] are enumerated with [1] first, so that
    the handler of [1] is called, and not the handler of [if], the first of
    the two as they were written. *)
Lemma compileNode_directive_counterexample :
  (compileNode Example.random Example.dim_options
     (Example.element "p" [("dim", VStr "off"); ("if", VStr "show")] []) 0 =
   Ok ("(off) ? ((show) ? (h('p',{key: 'y-key-4170'},[])) : null) : " ++
       "dim(h('p',{key: 'y-key-4171'},[]))",
       mkVNode "p" [] [] (Some true) None, 2) /\
   compileNode Example.random Example.dim_options
     (Example.element "p" [("if", VStr "show")] []) 1 =
   Ok ("(show) ? (h('p',{key: 'y-key-4171'},[])) : null",
       mkVNode "p" [] [] (Some true) None, 2) /\
   compileNode Example.random Example.dim_options
     (Example.element "p" [("dim", VStr "off"); ("if", VStr "show")] []) 0 <>
   run_handler (Example.directive_dim (VStr "off"))
     (fun _ rng =>
        compileNode Example.random Example.dim_options
          (Example.element "p" [("if", VStr "show")] []) rng)
     (Example.element "p" [("if", VStr "show")] []) 0) /\
  (parse ("<p constructor=" ++ JsString.q ++ "x" ++ JsString.q ++ " if=" ++
          JsString.q ++ "show" ++ JsString.q ++ "></p>") host_h =
   Ok [Example.element "p" [("constructor", VStr "x"); ("if", VStr "show")]
         []] /\
   compileNode Example.random Example.options
     (Example.element "p" [("constructor", VStr "x"); ("if", VStr "show")] [])
     0 = Beyond /\
   first_directive Example.options
     [("constructor", VStr "x"); ("if", VStr "show")] =
   Some (BuiltIn "constructor" (VStr "x"))) /\
  (parse ("<p if=" ++ JsString.q ++ "a" ++ JsString.q ++ " 1=" ++
          JsString.q ++ "b" ++ JsString.q ++ "></p>") host_h =
   Ok [Example.element "p" [("1", VStr "b"); ("if", VStr "a")] []] /\
   compileNode Example.random
     (mkOptions (h Example.options)
        [("if", Example.directive_if); ("1", Example.directive_if)]
        (interpolationRegex Example.options)
        (dataBindingRegex Example.options))
     (Example.element "p" [("1", VStr "b"); ("if", VStr "a")] []) 0 =
   Ok ("(b) ? ((a) ? (h('p',{key: 'y-key-4170'},[])) : null) : null",
       mkVNode "p" [] [] (Some true) None, 1) /\
   run_handler (Example.directive_if (VStr "a"))
     (compileNode Example.random
        (mkOptions (h Example.options)
           [("if", Example.directive_if); ("1", Example.directive_if)]
           (interpolationRegex Example.options)
           (dataBindingRegex Example.options)))
     (Example.element "p" [("1", VStr "b")] []) 0 =
   Ok ("(a) ? ((b) ? (h('p',{key: 'y-key-4170'},[])) : null) : null",
       mkVNode "p" [] [] (Some true) None, 1)).
Proof.
  split; [|split].
  - split; [vm_compute; reflexivity|].
    split; [vm_compute; reflexivity|].
    vm_compute. discriminate.
  - split; [vm_compute; reflexivity|].
    split; vm_compute; reflexivity.
  - split; [vm_compute; reflexivity|].
    split; vm_compute; reflexivity.
Qed.

(* ================================================================== *)
(** ** compile *)

Section CompileFacts.

Variable random : nat -> string.
Variable newFunction : string -> option Body.

(** A parse error aborts the compilation. *)
Lemma compile_parse_error (template : string) (options : CompilerOptions)
  (rng : nat) (msg : string) :
  parse (replace regex.comments (fun _ => "") template) (f_call (h options)) =
  Throw msg ->
  compile random newFunction template options rng = Throw msg.
Proof. unfold compile. intros ->. reflexivity. Qed.

(** [compile] comes to an end. *)
Lemma compile_total (template : string) (options : CompilerOptions)
  (rng : nat) :
  compile random newFunction template options rng <> OutOfFuel.
Proof.
  unfold compile.
  pose proof (parse_total (f_call (h options))
                (replace regex.comments (fun _ => "") template)) as Hp.
  destruct (parse _ _) as [forest| | |]; simpl; try discriminate; try tauto.
  destruct forest as [|root others]; simpl; [discriminate|].
  pose proof (compileNode_settled random options root rng) as Hs.
  destruct (compileNode random options root rng) as [[[code vn'] rng']| | |];
    simpl in *; try discriminate; try tauto.
  unfold saferEval. destruct (newFunction _); simpl; discriminate.
Qed.

End CompileFacts.

(** C3: when the loop of [parse] reaches a closing tag and no unclosed node
    on the stack has the tag's type, [parse] throws the error that names the
    tag, at once; no forest is returned, and a compilation that parses this
    text throws the same error. *)
Theorem parse_unmatched_closing_tag (h : NodeConstructor)
  (html : string) (n : nat) (html' : string) (stack : Stack)
  (nextTag : Match) :
  parse_steps n h html [] = Some (html', stack) ->
  html' <> "" ->
  exec regex.anyTag html' = Some nextTag ->
  exec regex.openingTag (m_text nextTag) = None ->
  (forall vn, In (vn, false) (push_text h html' (Some nextTag) stack) ->
              cap nextTag 1 <> Some (type vn)) ->
  parse_iter h html' stack = Throw (no_opening_tag (m_text nextTag)) /\
  parse html h = Throw (no_opening_tag (m_text nextTag)) /\
  (forall random newFunction template options rng,
     f_call (h_of options) = h ->
     replace regex.comments (fun _ => "") template = html ->
     compile random newFunction template options rng =
     Throw (no_opening_tag (m_text nextTag))).
Proof.
  intros Hsteps Hne Htag Hclose Hstack.
  pose proof (parse_throws h html n Hsteps Hne Htag Hclose Hstack) as Hp.
  split; [|split].
  - unfold parse_iter. rewrite Htag, Hclose.
    rewrite unwind_none by exact Hstack. reflexivity.
  - exact Hp.
  - intros random newFunction template options rng <- <-.
    apply compile_parse_error. exact Hp.
Qed.

(** The specification's example of C3: parsing [<div></span>] throws, and so
    does compiling it. *)
Lemma parse_unmatched_closing_tag_witness :
  parse "<div></span>" host_h =
  Throw "No corresponding opening tag found for </span>" /\
  compile Example.random Example.newFunction "<div></span>" Example.options 0 =
  Throw "No corresponding opening tag found for </span>".
Proof.
  destruct (@parse_unmatched_closing_tag host_h "<div></span>" 1 "</span>"
              [(host_h "div" (Some []) None, false)]
              (mkMatch 0 "</span>" [(1, "span")] ""))
    as (_ & Hp & Hc).
  - reflexivity.
  - discriminate.
  - reflexivity.
  - reflexivity.
  - intros vn [H|[]]. injection H as <-. discriminate.
  - split; [exact Hp|].
    apply (Hc Example.random Example.newFunction "<div></span>"
             Example.options 0); reflexivity.
Defined.

(* ================================================================== *)
(** ** saferEval *)

(** In front of the proxy that [evalWrapper] makes, every name is bound by
    the [with] environment: [has] says so and [Symbol.unscopables] is
    [undefined]. *)
Lemma with_has_binding_proxy (heap : Heap) (sandbox : nat) (x : string) :
  with_has_binding heap (mkProxy sandbox has get) x = true.
Proof. reflexivity. Qed.

Lemma read_scoped (heap : Heap) (sandbox : nat) (outer : Env) (x : string) :
  read heap (WithEnv (mkProxy sandbox has get) :: outer) x =
  Ok (scope_lookup heap sandbox x).
Proof. reflexivity. Qed.

Lemma write_scoped (heap : Heap) (sandbox : nat) (outer : Env) (x : string)
  (v : JSValue) :
  write heap (WithEnv (mkProxy sandbox has get) :: outer) x v =
  (obj_set heap sandbox x v, WithEnv (mkProxy sandbox has get) :: outer).
Proof. reflexivity. Qed.

(** Code run inside [with(proxy)] is code run against the scope: the
    enclosing environment is neither read nor written. *)
Lemma run_scoped_correct (c : Code) :
  forall heap sandbox outer,
    run c heap (WithEnv (mkProxy sandbox has get) :: outer) =
    Ok (fst (run_scoped c heap sandbox), snd (run_scoped c heap sandbox),
        WithEnv (mkProxy sandbox has get) :: outer).
Proof.
  induction c as [v | | x k IH | x v k IH]; intros heap sandbox outer.
  - reflexivity.
  - reflexivity.
  - cbn [run run_scoped]. rewrite read_scoped. cbn [bind]. apply IH.
  - cbn [run run_scoped]. rewrite write_scoped. apply IH.
Qed.

Lemma cache_ok_nil : cache_ok [].
Proof. intros o p H. discriminate. Qed.

Lemma cache_ok_cons (sandbox : nat) (cache : ProxyCache) :
  cache_ok cache -> cache_ok ((sandbox, mkProxy sandbox has get) :: cache).
Proof.
  intros H o p. simpl. destruct (Nat.eqb_spec o sandbox) as [->|_].
  - intros E. injection E as <-. reflexivity.
  - apply H.
Qed.

(** A call whose statements are all in the block of the [with] statement
    is the block run against the scope. *)
Lemma call_scoped (c : Code) (sandbox : nat) (heap : Heap) (globals : Env) :
  call (mkBody c Done) (mkProxy sandbox has get) heap globals =
  Ok (returned (fst (run_scoped c heap sandbox)),
      snd (run_scoped c heap sandbox), globals).
Proof.
  unfold call. cbn [block rest]. rewrite run_scoped_correct. cbn [bind].
  destruct (fst (run_scoped c heap sandbox)); reflexivity.
Qed.

(** What [evalWrapper] does for such a function, whatever the global
    environment is. *)
Lemma evalWrapper_scoped (c : Code) (sandbox : nat) (w : World) :
  cache_ok (sandboxProxies w) ->
  exists cache',
    evalWrapper (mkBody c Done) sandbox w =
    Ok (returned (fst (run_scoped c (heap w) sandbox)),
        mkWorld (snd (run_scoped c (heap w) sandbox)) cache' (globals w)) /\
    cache_ok cache'.
Proof.
  intros Hc. unfold evalWrapper.
  destruct (cache_get sandbox (sandboxProxies w)) as [p|] eqn:E.
  - rewrite (Hc _ _ E), call_scoped. simpl.
    exists (sandboxProxies w). auto.
  - rewrite call_scoped. simpl.
    exists ((sandbox, mkProxy sandbox has get) :: sandboxProxies w).
    split; [reflexivity | apply cache_ok_cons, Hc].
Qed.

Lemma update_nth_last {T} (f : T -> T) (l : list T) (x : T) :
  update_nth (List.length l) f (l ++ [x])%list = (l ++ [f x])%list.
Proof.
  induction l as [|y l IH]; simpl; [reflexivity|]. rewrite IH. reflexivity.
Qed.

(** The scope that [renderTemplate] makes: a new object, the last of the
    heap, that inherits from [this] and has [options.h] as its [h]. *)
Lemma renderTemplate_unfold (options : CompilerOptions)
  (innerRender : nat -> World -> Res (JSValue * World))
  (p : option nat) (hv : JSValue) (w : World) :
  renderTemplate options innerRender
    (match p with Some o => ThisObject o | None => ThisNull end) hv w =
  innerRender (List.length (heap w))
    (mkWorld (heap w ++ [mkObj [("h", options_h options)] p])%list
       (sandboxProxies w) (globals w)).
Proof.
  destruct p as [o|]; unfold renderTemplate; cbn [heap sandboxProxies globals];
    unfold obj_set; rewrite update_nth_last; reflexivity.
Qed.

(** C9: when the forest parsed from the template has more than one root and
    the first root compiles to [src], which the engine accepts as the body
    [func], [compile] returns, having drawn what the first root drew.  The
    code is [return] followed by [src]; for an element root without a
    directive prop, [src] is the call of [h] with the root's type, its props
    literal and the codes of its children.  The render function makes a
    scope that inherits from [this] and has [options.h] as its [h], and
    returns what [func], the code of the first root, evaluates to against
    that scope: when the statements of [func] stay in the block of the
    [with] statement, that is the value the code returns when run against
    the scope alone.  The other roots play no part: whatever follows the
    first root in a template, the compilation is the same, be it a result or
    an error. *)
Theorem compile_first_root (random : nat -> string)
  (newFunction : string -> option Body) (template : string)
  (options : CompilerOptions) (rng : nat) (root : VNode)
  (others : list VNode) (src : string) (vn' : VNode) (rng1 : nat)
  (func : Body) :
  parse (replace regex.comments (fun _ => "") template) (f_call (h options)) =
  Ok (root :: others) ->
  others <> [] ->
  compileNode random options root rng = Ok (src, vn', rng1) ->
  newFunction ("with(sandbox) {return " ++ src ++ "}") = Some func ->
  exists c,
    compile random newFunction template options rng = Ok (c, rng1) /\
    code c = "return " ++ src /\
    (type root <> "#text" ->
     first_directive options (props root) = None ->
     exists codes ch',
       compile_children (compileNode random options)
         (children (snd (detectStaticNodes options root)))
         (snd (compileProps random options (props root) rng)) =
       Ok (codes, ch', rng1) /\
       src = "h('" ++ type root ++ "'," ++
             fst (compileProps random options (props root) rng) ++ ",[" ++
             JsString.join "," codes ++ "])") /\
    (forall p hv w,
       render c (match p with Some o => ThisObject o | None => ThisNull end)
         hv w =
       evalWrapper func (List.length (heap w))
         (mkWorld (heap w ++ [mkObj [("h", options_h options)] p])%list
            (sandboxProxies w) (globals w))) /\
    (forall blk p hv w,
       func = mkBody blk Done ->
       cache_ok (sandboxProxies w) ->
       exists cache',
         render c (match p with Some o => ThisObject o | None => ThisNull end)
           hv w =
         Ok (returned
               (fst (run_scoped blk
                       (heap w ++ [mkObj [("h", options_h options)] p])%list
                       (List.length (heap w)))),
             mkWorld
               (snd (run_scoped blk
                       (heap w ++ [mkObj [("h", options_h options)] p])%list
                       (List.length (heap w))))
               cache' (globals w))) /\
    (forall template2 others2,
       parse (replace regex.comments (fun _ => "") template2)
         (f_call (h options)) = Ok (root :: others2) ->
       compile random newFunction template2 options rng =
       compile random newFunction template options rng).
Proof.
  intros Hp _ Hc Hf.
  exists (mkCompiled ("return " ++ src)
            (renderTemplate options (evalWrapper func))).
  assert (E : compile random newFunction template options rng =
              Ok (mkCompiled ("return " ++ src)
                    (renderTemplate options (evalWrapper func)), rng1)).
  { unfold compile. rewrite Hp. cbn [bind compile_forest]. rewrite Hc.
    cbn [bind]. unfold saferEval.
    change ("with(sandbox) {" ++ ("return " ++ src) ++ "}")
      with ("with(sandbox) {return " ++ src ++ "}").
    rewrite Hf. reflexivity. }
  split; [exact E|]. split; [reflexivity|]. split; [|split; [|split]].
  - intros Hty Hfd. rewrite (@compileNode_element random options root rng Hty Hfd)
      in Hc.
    destruct (compile_children (compileNode random options)
                (children (snd (detectStaticNodes options root)))
                (snd (compileProps random options (props root) rng)))
      as [[[codes ch'] rng2]| | |]; cbn [bind] in Hc; try discriminate.
    injection Hc as <- _ <-. exists codes, ch'. split; reflexivity.
  - intros p hv w. cbn [render]. apply renderTemplate_unfold.
  - intros blk p hv w -> Hcache. cbn [render].
    rewrite renderTemplate_unfold.
    destruct (@evalWrapper_scoped blk (List.length (heap w))
                (mkWorld (heap w ++ [mkObj [("h", options_h options)] p])%list
                   (sandboxProxies w) (globals w)) Hcache)
      as (cache' & Ee & _).
    exists cache'. exact Ee.
  - intros template2 others2 Hp2. rewrite E. unfold compile. rewrite Hp2.
    cbn [bind compile_forest]. rewrite Hc. cbn [bind]. unfold saferEval.
    change ("with(sandbox) {" ++ ("return " ++ src) ++ "}")
      with ("with(sandbox) {return " ++ src ++ "}").
    rewrite Hf. reflexivity.
Qed.

(** C9 on [<a id=QxQ><i></i></a><b constructor></b>] (Q is the double quote),
    with [this] the object of the example world: the code is the code of
    [a] alone, the two draws are those of [a] and [i], and the render
    function returns what the example engine makes of that code against the
    new scope, which is the [h] of the options bound to the scope, not the
    [h] it was called with.  The second root, on which [compileNode] would
    leave the code of the repository, is not looked at. *)
Lemma compile_first_root_witness :
  exists c,
    compile Example.random Example.newFunction
      ("<a id=" ++ JsString.q ++ "x" ++ JsString.q ++
       "><i></i></a><b constructor></b>") Example.options 0 = Ok (c, 2) /\
    code c =
    "return h('a',{id: 'x',key: 'y-key-4170'},[h('i',{key: 'y-key-4171'},[])])"
    /\
    render c (ThisObject 0) (JFunction 5) Example.world =
    Ok (JBound (JFunction 0) 1,
        mkWorld
          [mkObj [("msg", JString "hi"); ("f", JFunction 7)] None;
           mkObj [("h", JFunction 0)] (Some 0)]
          [(1, mkProxy 1 has get)] (globals Example.world)) /\
    compileNode Example.random Example.options
      (Example.element "b" [("constructor", VTrue)] []) 0 = Beyond.
Proof.
  destruct (@compile_first_root Example.random Example.newFunction
              ("<a id=" ++ JsString.q ++ "x" ++ JsString.q ++
               "><i></i></a><b constructor></b>") Example.options 0
              (Example.element "a" [("id", VStr "x")]
                 [Example.element "i" [] []])
              [Example.element "b" [("constructor", VTrue)] []]
              "h('a',{id: 'x',key: 'y-key-4170'},[h('i',{key: 'y-key-4171'},[])])"
              (mkVNode "a" [("id", VStr "x")]
                 [mkVNode "i" [] [] (Some true) None] (Some true) None)
              2
              (mkBody (Ident "h" (fun hv => Ident "msg" (fun _ => Ret hv)))
                 Done))
    as (c & Hc & Hcode & _ & Hr & _).
  - vm_compute. reflexivity.
  - discriminate.
  - vm_compute. reflexivity.
  - vm_compute. reflexivity.
  - exists c. split; [exact Hc|]. split; [exact Hcode|]. split.
    + rewrite (Hr (Some 0) (JFunction 5) Example.world).
      vm_compute. reflexivity.
    + vm_compute. reflexivity.
Defined.

(** C4, amended: for code that [saferEval] accepts and whose statements all
    stay in the block of the [with] statement, and whatever the enclosing
    environment holds, the function returned runs the code against the scope
    alone: every free variable it reads is a property of the scope, own or
    inherited, and what it assigns becomes a property of the scope; the
    enclosing environment is left as it was, so nothing passes from one call
    site to another.  A property that is not callable is read as direct
    property access reads it; a callable one is read as that function bound
    to the scope. *)
Theorem saferEval_scoped (newFunction : string -> option Body) (src : string)
  (evaluate : nat -> World -> Res (JSValue * World)) (c : Code)
  (sandbox : nat) (w : World) :
  saferEval newFunction src = Ok evaluate ->
  newFunction ("with(sandbox) {" ++ src ++ "}") = Some (mkBody c Done) ->
  cache_ok (sandboxProxies w) ->
  (exists cache',
     evaluate sandbox w =
     Ok (returned (fst (run_scoped c (heap w) sandbox)),
         mkWorld (snd (run_scoped c (heap w) sandbox)) cache' (globals w)) /\
     cache_ok cache') /\
  (forall globals',
     match evaluate sandbox w,
           evaluate sandbox (mkWorld (heap w) (sandboxProxies w) globals')
     with
     | Ok (v1, w1), Ok (v2, w2) =>
         v1 = v2 /\ heap w1 = heap w2 /\
         globals w1 = globals w /\ globals w2 = globals'
     | _, _ => False
     end) /\
  (forall outer x,
     read (heap w) (WithEnv (mkProxy sandbox has get) :: outer) x =
     Ok (scope_lookup (heap w) sandbox x)) /\
  (forall x,
     scope_lookup (heap w) sandbox x =
     if is_function (obj_get (heap w) sandbox x)
     then JBound (obj_get (heap w) sandbox x) sandbox
     else obj_get (heap w) sandbox x).
Proof.
  unfold saferEval. intros Hs Hf Hc. rewrite Hf in Hs. injection Hs as <-.
  split; [apply evalWrapper_scoped, Hc|].
  split; [|split; [intros outer x; apply read_scoped | reflexivity]].
  intros globals'.
  destruct (evalWrapper_scoped c sandbox w Hc) as (c1 & E1 & _).
  destruct (@evalWrapper_scoped c sandbox
              (mkWorld (heap w) (sandboxProxies w) globals') Hc)
    as (c2 & E2 & _).
  rewrite E1, E2. simpl. auto.
Qed.

(** The example world: generated code reads [h] and [msg] and returns what
    it read for [h].  The global [h] is not seen: the scope has no [h], and
    the code returns [undefined]; [secret] reads as [undefined] too, and
    [msg] is the scope's property. *)
Lemma saferEval_scoped_witness :
  evalWrapper
    (mkBody (Ident "h" (fun hv => Ident "msg" (fun _ => Ret hv))) Done) 0
    Example.world =
  Ok (JUndefined,
      mkWorld (heap Example.world) [(0, mkProxy 0 has get)]
        (globals Example.world)) /\
  read (heap Example.world)
    (WithEnv (mkProxy 0 has get) :: globals Example.world) "secret" =
  Ok JUndefined /\
  read (heap Example.world)
    (WithEnv (mkProxy 0 has get) :: globals Example.world) "msg" =
  Ok (JString "hi").
Proof.
  destruct (@saferEval_scoped Example.newFunction "return h('p',{},[])"
              (evalWrapper
                 (mkBody (Ident "h" (fun hv => Ident "msg" (fun _ => Ret hv)))
                    Done))
              (Ident "h" (fun hv => Ident "msg" (fun _ => Ret hv)))
              0 Example.world eq_refl eq_refl cache_ok_nil)
    as (_ & _ & Hread & _).
  split; [reflexivity|].
  split; [exact (Hread (globals Example.world) "secret")
         | exact (Hread (globals Example.world) "msg")].
Defined.

(** C4 as stated fails twice.  A callable property: the code [return f]
    gets the function bound to the scope, which is not the value that direct
    property access gives.  A code string that closes the block of the
    [with] statement: in [} return secret; {] the name [secret] stands behind
    the block and is resolved in the global environment. *)
Lemma saferEval_counterexample :
  obj_get (heap Example.world) 0 "f" = JFunction 7 /\
  match saferEval Example.newFunction "return f" with
  | Ok evaluate =>
      evaluate 0 Example.world =
      Ok (JBound (JFunction 7) 0,
          mkWorld (heap Example.world) [(0, mkProxy 0 has get)]
            (globals Example.world))
  | _ => False
  end /\
  JBound (JFunction 7) 0 <> obj_get (heap Example.world) 0 "f" /\
  obj_get (heap Example.world) 0 "secret" = JUndefined /\
  match saferEval Example.newFunction "} return secret; {" with
  | Ok evaluate =>
      evaluate 0 Example.world =
      Ok (JString "global",
          mkWorld (heap Example.world) [(0, mkProxy 0 has get)]
            (globals Example.world))
  | _ => False
  end.
Proof.
  split; [reflexivity|]. split; [reflexivity|].
  split; [discriminate|]. split; reflexivity.
Qed.

(* ================================================================== *)
(** ** renderTemplate *)

(** C5, at an input where the code departs from it: the template is
    compiled with [options.h], function 0, and rendered with another
    function, 1, on the caller's context, object 0.  The scope that
    [renderTemplate] builds inherits from that context, but its [h] is
    [options.h]: the code reads [h] as function 0 bound to the scope, and
    the function passed at render time is ignored. *)
Theorem renderTemplate_ignores_its_argument :
  (forall options innerRender this h1 h2 w,
     renderTemplate options innerRender this h1 w =
     renderTemplate options innerRender this h2 w) /\
  match compile Example.random Example.newFunction "<p>hi</p>"
          Example.options 0 with
  | Ok (compiled, _) =>
      code compiled =
      "return h('p',{key: 'y-key-4170'},[h('#text', null, 'hi')])" /\
      render compiled (ThisObject 0) (JFunction 1) Example.world =
      Ok (JBound (JFunction 0) 1,
          mkWorld [mkObj [("msg", JString "hi"); ("f", JFunction 7)] None;
                   mkObj [("h", JFunction 0)] (Some 0)]
            [(1, mkProxy 1 has get)] (globals Example.world))
  | _ => False
  end /\
  renderTemplate Example.options
    (evalWrapper (mkBody (Ident "msg" (fun v => Ret v)) Done))
    (ThisObject 0) (JFunction 1) Example.world =
  Ok (JString "hi",
      mkWorld [mkObj [("msg", JString "hi"); ("f", JFunction 7)] None;
               mkObj [("h", JFunction 0)] (Some 0)]
        [(1, mkProxy 1 has get)] (globals Example.world)).
Proof.
  split; [reflexivity|]. split; [|reflexivity].
  vm_compute. split; reflexivity.
Qed.
(* ================================================================== *)
(* ================================================================== *)
(** * Further properties *)

(** ** The proxy cache of [evalWrapper] *)

(** The proxy of a sandbox is made at the first evaluation against it and
    found again at every later one, whichever evaluator asks; the proxies
    of other sandboxes stay. *)
Theorem evalWrapper_cache (func : Body) (sandbox : nat) (w : World)
  (v : JSValue) (w' : World) :
  evalWrapper func sandbox w = Ok (v, w') ->
  (exists p, cache_get sandbox (sandboxProxies w') = Some p /\
             (cache_get sandbox (sandboxProxies w) = None ->
              p = mkProxy sandbox has get)) /\
  (cache_get sandbox (sandboxProxies w) <> None ->
   sandboxProxies w' = sandboxProxies w) /\
  (forall o, o <> sandbox ->
     cache_get o (sandboxProxies w') = cache_get o (sandboxProxies w)) /\
  (forall func2 v2 w2,
     evalWrapper func2 sandbox w' = Ok (v2, w2) ->
     sandboxProxies w2 = sandboxProxies w').
Proof.
  unfold evalWrapper. intros H.
  destruct (cache_get sandbox (sandboxProxies w)) as [p|] eqn:E.
  - destruct (call func p (heap w) (globals w)) as [[[v0 h0] g0]| | |];
      simpl in H; try discriminate.
    injection H as <- <-. simpl. rewrite E.
    split; [exists p; split; [reflexivity | discriminate]|].
    split; [reflexivity|]. split; [reflexivity|].
    intros func2 v2 w2 H2.
    destruct (call func2 p h0 g0) as [[[v3 h3] g3]| | |]; simpl in H2;
      try discriminate.
    injection H2 as <- <-. reflexivity.
  - destruct (call func (mkProxy sandbox has get) (heap w) (globals w))
      as [[[v0 h0] g0]| | |]; simpl in H; try discriminate.
    injection H as <- <-. simpl. rewrite Nat.eqb_refl.
    split; [exists (mkProxy sandbox has get); auto|].
    split; [intros C; contradiction|]. split.
    + intros o Ho. destruct (Nat.eqb_spec o sandbox); [contradiction|].
      reflexivity.
    + intros func2 v2 w2 H2.
      destruct (call func2 (mkProxy sandbox has get) h0 g0)
        as [[[v3 h3] g3]| | |]; simpl in H2; try discriminate.
      injection H2 as <- <-. reflexivity.
Qed.

(** Two evaluators on one scope in the example world. *)
Lemma evalWrapper_cache_witness :
  (exists p,
     cache_get 0 [(0, mkProxy 0 has get)] = Some p /\
     (cache_get 0 (sandboxProxies Example.world) = None ->
      p = mkProxy 0 has get)) /\
  (forall func2 v2 w2,
     evalWrapper func2 0
       (mkWorld (heap Example.world) [(0, mkProxy 0 has get)]
          (globals Example.world)) = Ok (v2, w2) ->
     sandboxProxies w2 = [(0, mkProxy 0 has get)]).
Proof.
  destruct (@evalWrapper_cache (mkBody (Ident "msg" (fun v => Ret v)) Done)
              0 Example.world (JString "hi")
              (mkWorld (heap Example.world) [(0, mkProxy 0 has get)]
                 (globals Example.world)) eq_refl)
    as (H1 & _ & _ & H4).
  split; [exact H1 | exact H4].
Defined.

(* ================================================================== *)
(** ** The scope that [renderTemplate] builds *)

(** On a heap where prototypes are older objects, a lookup is through with
    as much fuel as the object's index. *)
Lemma get_chain_fuel (hp : Heap) (k : string) :
  heap_ok hp ->
  forall o f1 f2, o < f1 -> o < f2 ->
    get_chain f1 hp o k = get_chain f2 hp o k.
Proof.
  intros Hok o. induction o as [o IH] using lt_wf_ind. intros f1 f2 H1 H2.
  destruct f1 as [|f1]; [lia|]. destruct f2 as [|f2]; [lia|]. simpl.
  destruct (nth_error hp o) as [ob|] eqn:E; [|reflexivity].
  destruct (dict_get k (own ob)); [reflexivity|].
  destruct (proto ob) as [p|] eqn:Ep; [|reflexivity].
  pose proof (Hok _ _ _ E Ep). apply IH; lia.
Qed.

(** New objects do not change what a lookup on an older one finds. *)
Lemma get_chain_app (hp ext : Heap) (k : string) :
  heap_ok hp ->
  forall f o, o < List.length hp ->
    get_chain f (hp ++ ext)%list o k = get_chain f hp o k.
Proof.
  intros Hok f. induction f as [|f IH]; intros o Ho; [reflexivity|]. simpl.
  rewrite nth_error_app1 by exact Ho.
  destruct (nth_error hp o) as [ob|] eqn:E; [|reflexivity].
  destruct (dict_get k (own ob)); [reflexivity|].
  destruct (proto ob) as [p|] eqn:Ep; [|reflexivity].
  pose proof (Hok _ _ _ E Ep). apply IH. lia.
Qed.

Lemma obj_get_unfold (hp : Heap) (o : nat) (k : string) (ob : Obj) :
  nth_error hp o = Some ob ->
  obj_get hp o k =
    match dict_get k (own ob) with
    | Some v => v
    | None =>
        match proto ob with
        | Some p => get_chain (List.length hp) hp p k
        | None => JUndefined
        end
    end.
Proof. intros E. unfold obj_get. cbn [get_chain]. rewrite E. reflexivity. Qed.

(** Called on an object of data properties, [renderTemplate] runs the
    inner render function on a new object that inherits every property of
    [this], own or inherited, except [h], which is [options.h] whatever
    [this] holds under that name; the objects of the caller keep their
    properties, and the proxy cache and the globals are passed on as they
    are. *)
Theorem renderTemplate_scope (options : CompilerOptions)
  (innerRender : nat -> World -> Res (JSValue * World))
  (o : nat) (hv : JSValue) (w : World) :
  heap_ok (heap w) -> o < List.length (heap w) ->
  exists w2,
    renderTemplate options innerRender (ThisObject o) hv w
      = innerRender (List.length (heap w)) w2 /\
    obj_get (heap w2) (List.length (heap w)) "h" = options_h options /\
    (forall k, k <> "h" ->
       obj_get (heap w2) (List.length (heap w)) k = obj_get (heap w) o k) /\
    (forall o' k, o' < List.length (heap w) ->
       obj_get (heap w2) o' k = obj_get (heap w) o' k) /\
    heap_ok (heap w2) /\
    sandboxProxies w2 = sandboxProxies w /\ globals w2 = globals w.
Proof.
  intros Hok Ho. unfold renderTemplate. cbn [heap sandboxProxies globals].
  unfold obj_set. rewrite update_nth_last. cbn [own proto dict_set].
  eexists. split; [reflexivity|]. cbn [heap sandboxProxies globals].
  set (hp := heap w) in *.
  set (sc := mkObj [("h", options_h options)] (Some o)).
  assert (Hsc : nth_error (hp ++ [sc])%list (List.length hp) = Some sc).
  { rewrite nth_error_app2 by lia. rewrite Nat.sub_diag. reflexivity. }
  split; [|split; [|split; [|split; [|split; reflexivity]]]].
  - rewrite (@obj_get_unfold _ _ "h" _ Hsc). reflexivity.
  - intros k Hk. rewrite (@obj_get_unfold _ _ k _ Hsc). unfold obj_get.
    cbn [own proto sc dict_get].
    destruct (String.eqb_spec k "h") as [->|_]; [contradiction|].
    rewrite get_chain_app by assumption.
    apply get_chain_fuel; [assumption| |lia].
    rewrite length_app. simpl. lia.
  - intros o' k Ho'. unfold obj_get. rewrite get_chain_app by assumption.
    apply get_chain_fuel; [assumption| |lia].
    rewrite length_app. simpl. lia.
  - intros o' ob p E Ep.
    destruct (Nat.lt_ge_cases o' (List.length hp)) as [Hlt|Hge].
    + rewrite nth_error_app1 in E by exact Hlt. exact (Hok _ _ _ E Ep).
    + rewrite nth_error_app2 in E by exact Hge.
      destruct (o' - List.length hp) as [|d] eqn:Ed.
      * simpl in E. injection E as <-. simpl in Ep. injection Ep as <-. lia.
      * simpl in E. destruct d; discriminate.
Qed.

(** The caller's context of the example world holds [msg] and a function
    [f]; a render with another [h] sees [msg] and the [h] of the options. *)
Lemma renderTemplate_scope_witness :
  heap_ok (heap Example.world) /\ 0 < List.length (heap Example.world) /\
  exists w2,
    renderTemplate Example.options (fun scope w => Ok (JObject scope, w))
      (ThisObject 0) (JFunction 5) Example.world = Ok (JObject 1, w2) /\
    obj_get (heap w2) 1 "h" = JFunction 0 /\
    obj_get (heap w2) 1 "msg" = JString "hi".
Proof.
  assert (Hok : heap_ok (heap Example.world)).
  { intros o ob p E Ep. destruct o as [|o]; simpl in E.
    - injection E as <-. discriminate.
    - destruct o; discriminate. }
  assert (Hlt : 0 < List.length (heap Example.world)) by (simpl; lia).
  split; [exact Hok|]. split; [exact Hlt|].
  destruct (@renderTemplate_scope Example.options
              (fun scope w => Ok (JObject scope, w)) 0 (JFunction 5)
              Example.world Hok Hlt) as (w2 & E & Hh & Hk & _).
  exists w2. split; [exact E|]. split; [exact Hh|].
  exact (eq_trans (Hk "msg" ltac:(discriminate)) eq_refl).
Defined.

(* ================================================================== *)
(** ** Text without a tag *)

(** A pattern that begins with a character matches at no position where
    another character stands. *)
Lemma begins_with_no_match A (ch : ascii) (r : re) :
  begins_with ch r = true ->
  forall s i c (k : cont A),
    JsString.starts_outside (Ascii.eqb ch) s = true ->
    rmatch r s i c k = None.
Proof.
  induction r; simpl; intros Hb s i cs k Hs; try discriminate.
  - apply Ascii.eqb_eq in Hb. subst c.
    destruct s as [|b t]; simpl; [reflexivity|].
    simpl in Hs. destruct (Ascii.eqb ch b); [discriminate|reflexivity].
  - apply IHr1; assumption.
  - apply IHr; assumption.
Qed.

Lemma exec_from_begins_with (ch : ascii) (r : re) :
  begins_with ch r = true ->
  forall s i,
    JsString.all_chars (fun b => negb (Ascii.eqb ch b)) s = true ->
    exec_from r s i = None.
Proof.
  intros Hb s. induction s as [|b t IH]; intros i Hs; simpl.
  - unfold match_at. rewrite begins_with_no_match with (ch := ch);
      [reflexivity | exact Hb | reflexivity].
  - simpl in Hs. apply andb_prop in Hs. destruct Hs as [H1 H2].
    unfold match_at. rewrite begins_with_no_match with (ch := ch);
      [apply IH; exact H2 | exact Hb | exact H1].
Qed.

Lemma substr0_all (s : string) : JsString.substr0 (String.length s) s = s.
Proof.
  unfold JsString.substr0. induction s as [|b t IH]; simpl;
    [reflexivity | rewrite IH; reflexivity].
Qed.

Lemma trimStart_blank (s : string) :
  JsString.all_chars JsString.is_space s = true -> JsString.trimStart s = "".
Proof.
  induction s as [|b t IH]; simpl; [reflexivity|]. intros H.
  apply andb_prop in H. destruct H as [H1 H2]. rewrite H1. apply IH, H2.
Qed.

Lemma blank_notLt (s : string) :
  JsString.all_chars JsString.is_space s = true ->
  JsString.all_chars notLt s = true.
Proof.
  induction s as [|b t IH]; simpl; [reflexivity|]. intros H.
  apply andb_prop in H. destruct H as [H1 H2]. rewrite IH by exact H2.
  rewrite andb_true_r. unfold notLt.
  destruct (Ascii.eqb_spec "<" b) as [<-|_]; [discriminate H1|reflexivity].
Qed.

(** Without a [<] there is no comment to take out. *)
Lemma replace_comments_plain (f : Match -> string) (s : string) :
  JsString.all_chars notLt s = true -> replace regex.comments f s = s.
Proof.
  intros H. unfold replace, replace_g. simpl.
  rewrite exec_from_begins_with with (ch := "<"%char);
    [reflexivity | reflexivity | exact H].
Qed.

(** An iteration on a text without [<]: the last one. *)
Lemma parse_iter_plain (h : NodeConstructor) (html : string) (st : Stack) :
  JsString.all_chars notLt html = true ->
  parse_iter h html st = Ok (Break (push_text h html None st)).
Proof.
  intros H. unfold parse_iter, exec.
  rewrite exec_from_begins_with with (ch := "<"%char);
    [reflexivity | reflexivity | exact H].
Qed.

(** A template in which no tag opens is one text: [parse] returns a single
    text node that holds the template without the white space around it, or
    the empty forest when the template is empty or blank. *)
Theorem parse_text_only (h : NodeConstructor) (html : string) :
  JsString.all_chars notLt html = true ->
  parse html h =
    Ok (if JsString.truthy (JsString.trim html)
        then [h "#text" None (Some (JsString.trim html))]
        else []).
Proof.
  intros H. unfold parse. cbn [parse_loop].
  destruct (String.eqb_spec html "") as [->|_]; [reflexivity|].
  rewrite parse_iter_plain by exact H.
  unfold push_text. rewrite substr0_all.
  destruct (JsString.truthy (JsString.trim html)); reflexivity.
Qed.

Lemma parse_text_only_witness :
  JsString.all_chars notLt "  Hello, world > 1  " = true /\
  parse "  Hello, world > 1  " host_h = Ok [Example.text "Hello, world > 1"].
Proof.
  split; [reflexivity|].
  exact (@parse_text_only host_h "  Hello, world > 1  " eq_refl).
Defined.

(** An empty or blank template has no root: [compile] throws the TypeError
    of reading [type] from [forest[0]], which is [undefined]. *)
Theorem compile_blank_template (random : nat -> string)
  (newFunction : string -> option Body) (template : string)
  (options : CompilerOptions) (rng : nat) :
  JsString.all_chars JsString.is_space template = true ->
  compile random newFunction template options rng =
    Throw "TypeError: Cannot read properties of undefined (reading 'type')".
Proof.
  intros H. unfold compile.
  rewrite replace_comments_plain by (apply blank_notLt; exact H).
  unfold parse. cbn [parse_loop].
  destruct (String.eqb_spec template "") as [->|_]; [reflexivity|].
  rewrite parse_iter_plain by (apply blank_notLt; exact H).
  unfold push_text. rewrite substr0_all.
  unfold JsString.trim. rewrite trimStart_blank by exact H. reflexivity.
Qed.

Lemma compile_blank_template_witness :
  compile Example.random Example.newFunction "   " Example.options 0 =
    Throw "TypeError: Cannot read properties of undefined (reading 'type')".
Proof.
  exact (@compile_blank_template Example.random Example.newFunction "   "
           Example.options 0 eq_refl).
Defined.

(* ================================================================== *)
(** ** Closing tags *)

Lemma fold_append (content : list VNode) :
  forall c, fold_left append content c =
            set_children (children c ++ content)%list c.
Proof.
  induction content as [|x t IH]; intros c; simpl.
  - rewrite app_nil_r. destruct c; reflexivity.
  - rewrite IH. unfold append, set_children. simpl.
    rewrite <- app_assoc. reflexivity.
Qed.

(** The popping loop stops at the first node from the top that is unclosed
    and has the closing tag's type, with the nodes above it as content, the
    oldest first. *)
Lemma unwind_found (name : string) (above : Stack) (c : VNode)
  (rest : Stack) :
  type c = name ->
  (forall vn, In (vn, false) above -> type vn <> name) ->
  forall content,
    unwind (Some name) (above ++ (c, false) :: rest)%list content =
    Some (c, (rev (map fst above) ++ content)%list, rest).
Proof.
  intros Hc. induction above as [|[cur cl] above IH]; intros H content; simpl.
  - rewrite Hc, String.eqb_refl. reflexivity.
  - rewrite IH by (intros vn Hin; apply H; right; exact Hin).
    rewrite <- app_assoc. simpl.
    destruct cl; [rewrite orb_true_r; reflexivity|].
    rewrite orb_false_r.
    destruct (String.eqb_spec (type cur) name) as [E|_]; [|reflexivity].
    exfalso. exact (H cur (or_introl eq_refl) E).
Qed.

(** A closing tag closes the nearest node on the stack that is unclosed and
    has its type: that node adopts everything above it as its last children,
    in document order, whether closed or not, and goes back on the stack as
    closed.  Unclosed elements in between are not closed first: they stay
    without children. *)
Theorem parse_closing_tag (h : NodeConstructor) (html : string)
  (stack : Stack) (nextTag : Match) (name : string)
  (above : Stack) (c : VNode) (rest : Stack) :
  exec regex.anyTag html = Some nextTag ->
  exec regex.openingTag (m_text nextTag) = None ->
  cap nextTag 1 = Some name ->
  push_text h html (Some nextTag) stack = (above ++ (c, false) :: rest)%list ->
  type c = name ->
  (forall vn, In (vn, false) above -> type vn <> name) ->
  parse_iter h html stack =
    Ok (Continue
          (JsString.slice (m_index nextTag + String.length (m_text nextTag))
             html)
          ((set_children (children c ++ rev (map fst above))%list c, true)
             :: rest)).
Proof.
  intros Htag Hclose Hname Hstack Hc Habove.
  unfold parse_iter. rewrite Htag, Hclose, Hname, Hstack.
  rewrite (@unwind_found name above c rest Hc Habove). rewrite app_nil_r.
  rewrite fold_append. reflexivity.
Qed.

(** In [<div><p>one</div>], at [</div>]: the [div] adopts the [p] and the
    text as siblings. *)
Lemma parse_closing_tag_witness :
  parse_iter host_h "</div>"
    [(Example.text "one", false); (Example.element "p" [] [], false);
     (Example.element "div" [] [], false)] =
  Ok (Continue ""
        [(Example.element "div" []
            [Example.element "p" [] []; Example.text "one"], true)]) /\
  parse "<div><p>one</div>" host_h =
  Ok [Example.element "div" []
        [Example.element "p" [] []; Example.text "one"]].
Proof.
  split; [|reflexivity].
  apply (@parse_closing_tag host_h "</div>"
           [(Example.text "one", false); (Example.element "p" [] [], false);
            (Example.element "div" [] [], false)]
           (mkMatch 0 "</div>" [(1, "div")] "") "div"
           [(Example.text "one", false); (Example.element "p" [] [], false)]
           (Example.element "div" [] []) []).
  - reflexivity.
  - reflexivity.
  - reflexivity.
  - reflexivity.
  - reflexivity.
  - intros vn [H|[H|[]]]; injection H as <-; discriminate.
Defined.

(* ================================================================== *)
(** ** What the static analyser touches *)

Section StaticFlags.

Variable options : CompilerOptions.

Lemma every_child_cons (c : VNode) (t : list VNode) :
  every_child options (c :: t) =
  if fst (detectStaticNodes options c)
  then (fst (every_child options t),
        snd (detectStaticNodes options c) :: snd (every_child options t))
  else (false, snd (detectStaticNodes options c) :: t).
Proof.
  simpl. destruct (detectStaticNodes options c) as [bc c']. simpl.
  destruct bc; [|reflexivity]. destruct (every_child options t); reflexivity.
Qed.

Lemma erase_unfold (vn : VNode) :
  erase vn =
  mkVNode (type vn) (props vn) (map erase (children vn)) None (nodeValue vn).
Proof. destruct vn; reflexivity. Qed.

Lemma detectStaticNodes_erase (vn : VNode) :
  erase (snd (detectStaticNodes options vn)) = erase vn.
Proof.
  induction vn as [ty ps ch st nv IH] using VNode_induction.
  rewrite detectStaticNodes_unfold. cbn [type props children nodeValue].
  destruct (String.eqb ty "#text"); [reflexivity|].
  destruct (no_directives options ps); [|reflexivity].
  cbn. f_equal.
  induction IH as [|c t Hc _ IHt]; [reflexivity|].
  rewrite every_child_cons.
  destruct (fst (detectStaticNodes options c)); cbn [snd map];
    rewrite Hc; [rewrite IHt|]; reflexivity.
Qed.

Lemma detectStaticNodes_flag_erase (a : VNode) :
  forall b, erase a = erase b ->
    fst (detectStaticNodes options a) = fst (detectStaticNodes options b).
Proof.
  induction a as [ty ps ch st nv IH] using VNode_induction.
  intros [ty' ps' ch' st' nv'] E. simpl in E.
  injection E as <- <- Ech <-.
  rewrite !detectStaticNodes_unfold. cbn [type props children nodeValue].
  destruct (String.eqb ty "#text"); [reflexivity|].
  destruct (no_directives options ps); [|reflexivity].
  cbn [fst]. f_equal. rewrite !every_child_all.
  revert ch' Ech. induction IH as [|c t Hc _ IHt]; intros [|c' t'] Ech;
    try discriminate; [reflexivity|].
  simpl in Ech. injection Ech as Ec Et. simpl.
  rewrite (Hc _ Ec), (IHt _ Et). reflexivity.
Qed.

Lemma detectStaticNodes_again (vn : VNode) :
  detectStaticNodes options (snd (detectStaticNodes options vn)) =
  detectStaticNodes options vn.
Proof.
  induction vn as [ty ps ch st nv IH] using VNode_induction.
  rewrite (detectStaticNodes_unfold options (mkVNode ty ps ch st nv)).
  cbn [type props children nodeValue].
  destruct (String.eqb ty "#text") eqn:Et.
  - rewrite detectStaticNodes_unfold. cbn. rewrite Et. reflexivity.
  - destruct (no_directives options ps) eqn:Ed.
    + rewrite detectStaticNodes_unfold. cbn. rewrite Et, Ed.
      assert (Hch : every_child options (snd (every_child options ch)) =
                    every_child options ch).
      { clear Et Ed. induction IH as [|c t Hc _ IHt]; [reflexivity|].
        rewrite (every_child_cons c t).
        destruct (fst (detectStaticNodes options c)) eqn:Ec; cbn [snd];
          rewrite every_child_cons, Hc, Ec; [rewrite IHt|];
          reflexivity. }
      rewrite Hch. reflexivity.
    + rewrite detectStaticNodes_unfold. cbn. rewrite Et, Ed. reflexivity.
Qed.

(** [detectStaticNodes] changes nothing but [static] flags; the flag it
    returns does not depend on flags that are already stored; and, the
    data-binding pattern being one without the [g] and [y] flags
    ([CompilerOptions]), a second run returns the same flag and leaves the
    node as the first run left it. *)
Theorem detectStaticNodes_flags_only (vn : VNode) :
  erase (snd (detectStaticNodes options vn)) = erase vn /\
  (forall vn', erase vn = erase vn' ->
     fst (detectStaticNodes options vn) =
     fst (detectStaticNodes options vn')) /\
  detectStaticNodes options (snd (detectStaticNodes options vn)) =
  detectStaticNodes options vn.
Proof.
  split; [apply detectStaticNodes_erase|].
  split; [apply detectStaticNodes_flag_erase|apply detectStaticNodes_again].
Qed.

(** When a node is classified static, the flag [true] is stored on it and,
    if it is an element, on every node below it. *)
Theorem detectStaticNodes_static_subtree (vn : VNode) :
  fst (detectStaticNodes options vn) = true ->
  flagged true (snd (detectStaticNodes options vn)) = true.
Proof.
  induction vn as [ty ps ch st nv IH] using VNode_induction.
  rewrite detectStaticNodes_unfold. cbn [type props children nodeValue].
  destruct (String.eqb ty "#text") eqn:Et.
  - cbn. intros ->. rewrite Et. reflexivity.
  - destruct (no_directives options ps); [|discriminate].
    cbn. intros H. rewrite H, Et. cbn.
    apply andb_prop in H. destruct H as [H _].
    induction IH as [|c t Hc _ IHt]; [reflexivity|].
    rewrite every_child_cons in H |- *.
    destruct (fst (detectStaticNodes options c)); [|discriminate].
    cbn [fst snd forallb] in *. rewrite Hc by reflexivity.
    rewrite IHt by exact H. reflexivity.
Qed.

(** The loop over the children stops at the first child that is not static:
    the children in front of it and that child have been analysed, the
    children behind it are left as they were, whatever they hold. *)
Theorem detectStaticNodes_stops_at_dynamic_child (vn : VNode)
  (before : list VNode) (c : VNode) (after : list VNode) :
  type vn <> "#text" ->
  no_directives options (props vn) = true ->
  children vn = (before ++ c :: after)%list ->
  (forall x, In x before -> fst (detectStaticNodes options x) = true) ->
  fst (detectStaticNodes options c) = false ->
  fst (detectStaticNodes options vn) = false /\
  children (snd (detectStaticNodes options vn)) =
    (map (fun x => snd (detectStaticNodes options x)) before ++
     snd (detectStaticNodes options c) :: after)%list.
Proof.
  intros Hty Hd Hch Hb Hc. rewrite detectStaticNodes_unfold.
  destruct (String.eqb_spec (type vn) "#text") as [E|_]; [contradiction|].
  rewrite Hd, Hch. cbn [fst snd children set_static set_children].
  assert (He : every_child options (before ++ c :: after)%list =
               (false,
                (map (fun x => snd (detectStaticNodes options x)) before ++
                 snd (detectStaticNodes options c) :: after)%list)).
  { clear Hch. induction before as [|x t IH].
    - simpl app. rewrite every_child_cons, Hc. reflexivity.
    - change ((x :: t) ++ c :: after)%list with (x :: (t ++ c :: after))%list.
      rewrite every_child_cons, (Hb x (or_introl eq_refl)).
      rewrite IH by (intros y Hy; apply Hb; right; exact Hy). reflexivity. }
  rewrite He. split; reflexivity.
Qed.

End StaticFlags.

(** [<ul><li>a</li><li>b</li></ul>] without markers: the first text is
    classified dynamic, so the second item is never looked at. *)
Lemma detectStaticNodes_stops_at_dynamic_child_witness :
  fst (detectStaticNodes Example.options
         (Example.element "ul" []
            [Example.element "li" [] [Example.text "a"];
             Example.element "li" [] [Example.text "b"]])) = false /\
  map static
    (children
       (snd (detectStaticNodes Example.options
               (Example.element "ul" []
                  [Example.element "li" [] [Example.text "a"];
                   Example.element "li" [] [Example.text "b"]])))) =
  [Some false; None].
Proof.
  destruct (@detectStaticNodes_stops_at_dynamic_child Example.options
              (Example.element "ul" []
                 [Example.element "li" [] [Example.text "a"];
                  Example.element "li" [] [Example.text "b"]])
              [] (Example.element "li" [] [Example.text "a"])
              [Example.element "li" [] [Example.text "b"]])
    as [H1 H2].
  - discriminate.
  - reflexivity.
  - reflexivity.
  - intros x [].
  - reflexivity.
  - split; [exact H1|]. rewrite H2. reflexivity.
Defined.

(** [<p>{{a}}<b>{{c}}</b></p>]: static by the analyser's reading, and
    flagged all the way down. *)
Lemma detectStaticNodes_static_subtree_witness :
  flagged true
    (snd (detectStaticNodes Example.options
            (Example.element "p" []
               [Example.text "{{a}}";
                Example.element "b" [] [Example.text "{{c}}"]]))) = true.
Proof.
  apply (@detectStaticNodes_static_subtree Example.options
           (Example.element "p" []
              [Example.text "{{a}}";
               Example.element "b" [] [Example.text "{{c}}"]])).
  reflexivity.
Defined.

(* ================================================================== *)
(** ** The generated code and the static flags *)

Section CodeAndFlags.

Variable random : nat -> string.
Variable options : CompilerOptions.

Lemma erase_weight (a : VNode) :
  forall b, erase a = erase b -> weight a = weight b.
Proof.
  induction a as [ty ps ch st nv IH] using VNode_induction.
  intros [ty' ps' ch' st' nv'] E. simpl in E. injection E as <- <- Ech <-.
  simpl. do 2 f_equal.
  revert ch' Ech. induction IH as [|c t Hc _ IHt]; intros [|c' t'] Ech;
    try discriminate; [reflexivity|].
  simpl in Ech. injection Ech as Ec Et. simpl.
  rewrite (Hc _ Ec), (IHt _ Et). reflexivity.
Qed.

Lemma erase_set_props (ps : Dict Value) (a b : VNode) :
  erase a = erase b -> erase (set_props ps a) = erase (set_props ps b).
Proof.
  destruct a, b. simpl. intros E. injection E as <- <- Ech <-.
  rewrite Ech. reflexivity.
Qed.

Lemma run_handler_erase (g : Handler) (rest : VNode -> nat -> Gen) :
  (forall a b rng, erase a = erase b ->
     gen_erase (rest a rng) = gen_erase (rest b rng)) ->
  forall a b rng, erase a = erase b ->
    gen_erase (run_handler g rest a rng) =
    gen_erase (run_handler g rest b rng).
Proof.
  intros Hrest. induction g as [code|k IH]; intros a b rng E; simpl.
  - rewrite E. reflexivity.
  - specialize (Hrest a b rng E).
    destruct (rest a rng) as [[[ca a'] ra]| | |], (rest b rng) as [[[cb b'] rb]| | |];
      simpl in Hrest; try discriminate; simpl.
    + injection Hrest as <- E' <-. apply IH. exact E'.
    + exact Hrest.
    + reflexivity.
    + reflexivity.
Qed.

Lemma compile_children_erase (c1 : VNode -> nat -> Gen) (ch : list VNode) :
  Forall (fun a => forall b rng, erase a = erase b ->
            gen_erase (c1 a rng) = gen_erase (c1 b rng)) ch ->
  forall ch' rng, map erase ch = map erase ch' ->
    match compile_children c1 ch rng, compile_children c1 ch' rng with
    | Ok (codes, l, r), Ok (codes', l', r') =>
        codes = codes' /\ map erase l = map erase l' /\ r = r'
    | Throw m, Throw m' => m = m'
    | OutOfFuel, OutOfFuel => True
    | Beyond, Beyond => True
    | _, _ => False
    end.
Proof.
  intros H. induction H as [|a t Ha _ IHt]; intros [|b t'] rng E;
    try discriminate; simpl.
  - auto.
  - simpl in E. injection E as Ea Et. specialize (Ha b rng Ea).
    destruct (c1 a rng) as [[[ca a'] ra]| | |], (c1 b rng) as [[[cb b'] rb]| | |];
      simpl in Ha; try discriminate; simpl; [|congruence|exact I|exact I].
    injection Ha as <- E' <-. specialize (IHt t' ra Et).
    destruct (compile_children c1 t ra) as [[[cs l] r]| | |],
             (compile_children c1 t' ra) as [[[cs' l'] r']| | |];
      simpl; try contradiction; try exact IHt.
    destruct IHt as (-> & El & ->). simpl. rewrite E', El. auto.
Qed.

Lemma compileNode_fuel_erase (fuel : nat) :
  forall a b rng, erase a = erase b ->
    gen_erase (compileNode_fuel random options fuel a rng) =
    gen_erase (compileNode_fuel random options fuel b rng).
Proof.
  induction fuel as [|fuel IH]; intros a b rng E; [reflexivity|].
  cbn [compileNode_fuel].
  assert (Et : type a = type b) by (rewrite !erase_unfold in E; congruence).
  assert (En : nodeValue a = nodeValue b)
    by (rewrite !erase_unfold in E; congruence).
  rewrite <- Et, <- En.
  destruct (String.eqb (type a) "#text").
  - destruct (nodeValue a); [|reflexivity]. simpl. rewrite E. reflexivity.
  - assert (E' : erase (snd (detectStaticNodes options a)) =
                 erase (snd (detectStaticNodes options b)))
      by (rewrite !detectStaticNodes_erase; exact E).
    set (a' := snd (detectStaticNodes options a)) in *.
    set (b' := snd (detectStaticNodes options b)) in *.
    assert (Ep : props a' = props b')
      by (rewrite !erase_unfold in E'; congruence).
    assert (Ety : type a' = type b')
      by (rewrite !erase_unfold in E'; congruence).
    assert (Ech : map erase (children a') = map erase (children b'))
      by (rewrite !erase_unfold in E'; congruence).
    rewrite <- Ep, <- Ety.
    destruct (first_directive options (props a'))
      as [[prop value d|prop value]|].
    + apply run_handler_erase; [exact IH|]. apply erase_set_props. exact E'.
    + reflexivity.
    + destruct (compileProps random options (props a') rng) as [pc rng1].
      assert (Hc := @compile_children_erase
                      (compileNode_fuel random options fuel) (children a')
                      ltac:(apply Forall_forall; intros x _ y r; apply IH)
                      (children b') rng1 Ech).
      destruct (compile_children _ (children a') rng1) as [[[cs l] r]| | |],
               (compile_children _ (children b') rng1) as [[[cs' l'] r']| | |];
        simpl; try contradiction; try congruence.
      destruct Hc as (-> & El & ->). cbn [gen_erase].
      assert (Env : nodeValue a' = nodeValue b')
        by (rewrite !erase_unfold in E'; congruence).
      rewrite El, Ety, Ep, Env. reflexivity.
Qed.

(** The code that [compileNode] generates does not depend on [static]
    flags: nodes that differ in flags only give the same code, the same
    error, the same draws, and nodes that again differ in flags only.  What
    [detectStaticNodes] finds out is stored on the nodes and nowhere
    else. *)
Theorem compileNode_ignores_static (a b : VNode) (rng : nat) :
  erase a = erase b ->
  gen_erase (compileNode random options a rng) =
  gen_erase (compileNode random options b rng).
Proof.
  intros E. unfold compileNode. rewrite <- (@erase_weight a b E).
  apply compileNode_fuel_erase. exact E.
Qed.

End CodeAndFlags.

(** A node fresh from [parse] and the same node with flags from another
    analysis. *)
Lemma compileNode_ignores_static_witness :
  gen_erase
    (compileNode Example.random Example.options
       (Example.element "p" [("id", VStr "x")] [Example.text "{{a}} b"]) 0) =
  gen_erase
    (compileNode Example.random Example.options
       (mkVNode "p" [("id", VStr "x")]
          [mkVNode "#text" [] [] (Some true) (Some "{{a}} b")]
          (Some false) None) 0).
Proof.
  apply (@compileNode_ignores_static Example.random Example.options
           (Example.element "p" [("id", VStr "x")] [Example.text "{{a}} b"])
           (mkVNode "p" [("id", VStr "x")]
              [mkVNode "#text" [] [] (Some true) (Some "{{a}} b")]
              (Some false) None) 0).
  reflexivity.
Defined.

(* ================================================================== *)
(** ** What a match is made of *)

Section MatcherLanguage.

Variable A : Type.

Lemma one_lang (f : ascii -> bool) (s : string) (i : nat) (c : caps)
  (k : cont A) (x : A) :
  one f s i c k = Some x ->
  exists b s', s = String b s' /\ f b = true /\ k s' (i + 1) c = Some x.
Proof.
  unfold one. destruct s as [|b t]; [discriminate|].
  destruct (f b) eqn:E; [|discriminate]. intros H.
  exists b, t. rewrite Nat.add_1_r. auto.
Qed.

Lemma star_loop_lang (a : re) ma g k0 n :
  @run_in A a ma ->
  forall s i c x,
    star_loop (A:=A) ma g k0 n s i c = Some x ->
    exists l s' c',
      s = flat l ++ s' /\ Forall (lang a) l /\
      k0 s' (i + String.length (flat l)) c' = Some x /\
      (groups a = [] -> c' = c).
Proof.
  intros Hma. induction n as [|n IH]; intros s i c x E; simpl in E.
  - exists [], s, c. simpl. rewrite Nat.add_0_r. auto.
  - assert (Hk : forall y, k0 s i c = Some y ->
               exists l s' c', s = flat l ++ s' /\ Forall (lang a) l /\
                 k0 s' (i + String.length (flat l)) c' = Some y /\
                 (groups a = [] -> c' = c)).
    { intros y Ey. exists [], s, c. simpl. rewrite Nat.add_0_r. auto. }
    assert (Hi : forall y,
               ma s i c
                 (fun s' i' c' =>
                    if (String.length s' <? String.length s)%nat
                    then star_loop ma g k0 n s' i' c' else None) = Some y ->
               exists l s' c', s = flat l ++ s' /\ Forall (lang a) l /\
                 k0 s' (i + String.length (flat l)) c' = Some y /\
                 (groups a = [] -> c' = c)).
    { intros y Ey. apply Hma in Ey.
      destruct Ey as (p1 & s1 & c1 & -> & Hp1 & Ey & Hc1).
      destruct (String.length s1 <? String.length (p1 ++ s1))%nat;
        [|discriminate].
      apply IH in Ey. destruct Ey as (l & s2 & c2 & -> & Hl & Ey & Hc2).
      exists (p1 :: l), s2, c2. simpl. rewrite append_assoc, length_append.
      rewrite Nat.add_assoc. repeat split; auto.
      intros Hg. rewrite (Hc2 Hg). auto. }
    destruct g.
    + destruct (ma s i c _).
      * injection E as <-. apply Hi. reflexivity.
      * apply Hk. exact E.
    + destruct (k0 s i c).
      * injection E as <-. apply Hk. reflexivity.
      * apply Hi. exact E.
Qed.

Lemma rmatch_lang (r : re) : @run_in A r (rmatch (A:=A) r).
Proof.
  induction r as [| a | neg items | | a IHa b IHb | a IHa b IHb
                 | g a IHa | n a IHa | |]; intros s i c k x E; simpl in E.
  - exists "", s, c. rewrite Nat.add_0_r. simpl. auto.
  - apply one_lang in E. destruct E as (b & s' & -> & Hb & E).
    apply Ascii.eqb_eq in Hb. subst b.
    exists (String a ""), s', c. simpl. auto.
  - apply one_lang in E. destruct E as (b & s' & -> & Hb & E).
    exists (String b ""), s', c. simpl. eauto 6.
  - apply one_lang in E. destruct E as (b & s' & -> & Hb & E).
    apply negb_true_iff in Hb.
    exists (String b ""), s', c. simpl. eauto 6.
  - apply IHa in E. destruct E as (p1 & s1 & c1 & -> & H1 & E & Hc1).
    apply IHb in E. destruct E as (p2 & s2 & c2 & -> & H2 & E & Hc2).
    exists (p1 ++ p2), s2, c2. rewrite append_assoc, length_append.
    rewrite Nat.add_assoc. simpl. repeat split; eauto.
    intros Hg. apply app_eq_nil in Hg. destruct Hg as [Hg1 Hg2].
    rewrite (Hc2 Hg2). auto.
  - destruct (rmatch a s i c k) eqn:Ea.
    + injection E as <-. apply IHa in Ea.
      destruct Ea as (p & s' & c' & ? & ? & ? & Hc).
      exists p, s', c'. simpl. repeat split; auto.
      intros Hg. apply app_eq_nil in Hg. apply Hc, Hg.
    + apply IHb in E. destruct E as (p & s' & c' & ? & ? & ? & Hc).
      exists p, s', c'. simpl. repeat split; auto.
      intros Hg. apply app_eq_nil in Hg. apply Hc, Hg.
  - apply star_loop_lang with (a := a) in E.
    + destruct E as (l & s' & c' & ? & ? & ? & Hc).
      exists (flat l), s', c'. simpl. repeat split; eauto.
    + intros s1 i1 c1 k1 x1 E1. apply IHa in E1.
      destruct E1 as (p & s' & c' & ? & ? & ? & Hc). exists p, s', c'.
      repeat split; auto. intros Hg. rewrite (Hc Hg), Hg.
      apply cap_clear_nil.
  - apply IHa in E. destruct E as (p & s' & c' & ? & ? & ? & Hc).
    exists p, s', ((n, substring 0 (i + String.length p - i) s) :: c').
    simpl. repeat split; auto. discriminate.
  - destruct (i =? 0)%nat; [|discriminate].
    exists "", s, c. rewrite Nat.add_0_r. simpl. auto.
  - destruct s; [|discriminate].
    exists "", "", c. rewrite Nat.add_0_r. simpl. auto.
Qed.

End MatcherLanguage.

(** A match found by [exec] is a match at some position. *)
Lemma exec_from_inv (r : re) (s : string) :
  forall i m, exec_from r s i = Some m ->
    exists pre s', s = pre ++ s' /\
      match_at r s' (i + String.length pre) = Some m.
Proof.
  induction s as [|b t IH]; intros i m E; simpl in E.
  - destruct (match_at r "" i) eqn:Em; [|discriminate].
    injection E as ->. exists "", "". rewrite Nat.add_0_r. auto.
  - destruct (match_at r (String b t) i) eqn:Em.
    + injection E as ->. exists "", (String b t). rewrite Nat.add_0_r. auto.
    + apply IH in E. destruct E as (pre & s' & -> & E).
      exists (String b pre), s'. simpl. rewrite <- E. split; [reflexivity|].
      f_equal. lia.
Qed.

(** The text of a match is a text of the pattern. *)
Lemma match_at_lang (r : re) (s : string) (i : nat) (m : Match) :
  match_at r s i = Some m ->
  s = m_text m ++ m_rest m /\ lang r (m_text m).
Proof.
  unfold match_at. intros E. apply rmatch_lang in E.
  destruct E as (p & s' & c' & -> & Hp & E & _). injection E as <-. simpl.
  replace (i + String.length p - i) with (String.length p) by lia.
  rewrite substring_prefix. auto.
Qed.

(* ================================================================== *)
(** ** What [parseProps] can return *)

Lemma lang_star_class (g neg : bool) (items : list citem) (p : string) :
  lang (Star g (Cls neg items)) p ->
  JsString.all_chars (in_class neg items) p = true.
Proof.
  intros (l & -> & Hl). induction Hl as [|w l (b & Hb & ->) _ IH];
    [reflexivity|].
  simpl. rewrite Hb. exact IH.
Qed.

Lemma lang_plus_class (g neg : bool) (items : list citem) (p : string) :
  lang (Plus g (Cls neg items)) p ->
  p <> "" /\ JsString.all_chars (in_class neg items) p = true.
Proof.
  intros (p1 & p2 & -> & (b & Hb & ->) & H2).
  apply lang_star_class in H2. simpl. rewrite Hb, H2.
  split; [discriminate|reflexivity].
Qed.

Lemma rmatch_Seq A (a b : re) s i c (k : cont A) :
  rmatch (Seq a b) s i c k =
  rmatch a s i c (fun s' i' c' => rmatch b s' i' c' k).
Proof. reflexivity. Qed.

Lemma rmatch_Grp A (n : nat) (a : re) s i c (k : cont A) :
  rmatch (Grp n a) s i c k =
  rmatch a s i c (fun s' i' c' => k s' i' ((n, substring 0 (i' - i) s) :: c')).
Proof. reflexivity. Qed.

Lemma rmatch_Alt A (a b : re) s i c (k : cont A) :
  rmatch (Alt a b) s i c k =
  match rmatch a s i c k with Some x => Some x | None => rmatch b s i c k end.
Proof. reflexivity. Qed.

Lemma rmatch_Lit A (a : ascii) s i c (k : cont A) :
  rmatch (Lit a) s i c k = one (Ascii.eqb a) s i c k.
Proof. reflexivity. Qed.

Lemma match_attributes_inv (s : string) (i : nat) (m : Match) :
  match_at regex.attributes s i = Some m -> attr_match_ok m.
Proof.
  unfold match_at, regex.attributes. simpl cat. cbn [rmatch].
  intros E. apply rmatch_lang in E.
  destruct E as (k & s1 & c1 & -> & Hk & E & Hc1).
  rewrite (Hc1 eq_refl) in E. clear Hc1 c1.
  apply lang_plus_class in Hk. destruct Hk as [Hne Hk].
  replace (i + String.length k - i) with (String.length k) in E by lia.
  rewrite substring_prefix in E.
  unfold Opt in E. rewrite rmatch_Alt in E.
  match type of E with
  | match ?X with _ => _ end = _ => destruct X as [m'|] eqn:Ex
  end.
  - injection E as ->. rewrite rmatch_Seq, rmatch_Lit in Ex.
    apply one_lang in Ex. destruct Ex as (b1 & s2 & -> & _ & Ex).
    rewrite rmatch_Seq, rmatch_Lit in Ex.
    apply one_lang in Ex. destruct Ex as (b2 & s3 & -> & _ & Ex).
    rewrite rmatch_Seq, rmatch_Grp in Ex.
    apply rmatch_lang in Ex.
    destruct Ex as (v & s4 & c4 & -> & Hv & Ex & Hc4).
    rewrite (Hc4 eq_refl) in Ex. clear Hc4 c4.
    apply lang_star_class in Hv.
    apply one_lang in Ex. destruct Ex as (b3 & s5 & -> & _ & Ex).
    injection Ex as <-.
    exists k. unfold cap. simpl. repeat split; auto.
    right. exists v. split; [|exact Hv].
    replace (i + String.length k + 1 + 1 + String.length v -
             (i + String.length k + 1 + 1)) with (String.length v) by lia.
    rewrite substring_prefix. reflexivity.
  - injection E as <-. exists k. unfold cap. simpl. auto.
Qed.

Lemma findAll_attributes_inv (fuel : nat) :
  forall str lastIndex ms res,
    Forall attr_match_ok ms ->
    findAll fuel str regex.attributes lastIndex ms = Ok res ->
    Forall attr_match_ok res.
Proof.
  induction fuel as [|fuel IH]; intros str lastIndex ms res Hms E;
    [discriminate|].
  simpl in E.
  destruct (exec_g regex.attributes str lastIndex) as [[m|] lastIndex']
    eqn:Eg.
  - apply IH in E; [exact E|]. apply Forall_app. split; [exact Hms|].
    constructor; [|constructor].
    unfold exec_g in Eg.
    destruct (String.length str <? lastIndex)%nat; [discriminate|].
    destruct (exec_from regex.attributes (JsString.slice lastIndex str)
                lastIndex) as [m0|] eqn:Ee; [|discriminate].
    injection Eg as -> _. apply exec_from_inv in Ee.
    destruct Ee as (pre & s' & _ & Em).
    exact (match_attributes_inv _ _ Em).
  - injection E as <-. exact Hms.
Qed.

(** Whatever the attribute string is, what [parseProps] returns has every
    name once, no name that is empty, is [__proto__] or holds white space, a
    slash, a quote or an equals sign, and no value that is the empty string
    or holds a double quote. *)
Theorem parseProps_wellformed (propString : string) (d : Dict Value) :
  parseProps propString = Ok d ->
  NoDup (keys d) /\
  forall k v, In (k, v) d -> prop_ok k v /\ k <> "__proto__".
Proof.
  unfold parseProps.
  destruct (findAll (S (S (String.length propString))) propString
              regex.attributes 0 []) as [ms|msg| |] eqn:E; try discriminate.
  apply findAll_attributes_inv in E; [|constructor].
  cbn [bind]. intros H. injection H as <-.
  assert (H : forall d,
            NoDup (keys d) /\
            (forall k v, In (k, v) d -> prop_ok k v /\ k <> "__proto__") ->
            NoDup (keys (fold_left
              (fun props pair =>
                 prop_set (JsString.tmpl (cap pair 1))
                   (value_or_true (cap pair 2)) props) ms d)) /\
            (forall k v, In (k, v) (fold_left
              (fun props pair =>
                 prop_set (JsString.tmpl (cap pair 1))
                   (value_or_true (cap pair 2)) props) ms d) ->
               prop_ok k v /\ k <> "__proto__")).
  { induction E as [|m ms Hm _ IH]; intros d [Hd1 Hd2]; [auto|].
    simpl. apply IH. split; [apply prop_set_NoDup; exact Hd1|].
    intros k v Hin. apply prop_set_In in Hin.
    destruct Hin as [[Hin Hp]|Hin]; [|apply Hd2; exact Hin].
    injection Hin as -> ->. split; [|exact Hp].
    destruct Hm as (k & -> & Hne & Hk & Hv). simpl.
    split; [exact Hne|]. split; [exact Hk|].
    destruct Hv as [-> | (v & -> & Hv)]; simpl; [exact I|].
    destruct v; cbn [JsString.truthy]; [exact I|].
    split; [discriminate|exact Hv]. }
  apply H. split; [constructor | intros k v []].
Qed.

(** [a=Q1Q __proto__ 7 a], with Q the double quote. *)
Lemma parseProps_wellformed_witness :
  parseProps ("a=" ++ JsString.q ++ "1" ++ JsString.q ++ " __proto__ 7 a") =
  Ok [("7", VTrue); ("a", VTrue)] /\
  NoDup (keys [("7", VTrue); ("a", VTrue)]) /\
  forall k v, In (k, v) [("7", VTrue); ("a", VTrue)] ->
              prop_ok k v /\ k <> "__proto__".
Proof.
  split; [vm_compute; reflexivity|].
  apply (@parseProps_wellformed
           ("a=" ++ JsString.q ++ "1" ++ JsString.q ++ " __proto__ 7 a")).
  vm_compute. reflexivity.
Defined.

(* ================================================================== *)
(** ** An attribute written more than once *)

Lemma filter_filter {T} (f g : T -> bool) (l : list T) :
  filter f (filter g l) = filter (fun x => g x && f x) l.
Proof.
  induction l as [|x t IH]; simpl; [reflexivity|].
  destruct (g x); simpl; [destruct (f x)|]; rewrite IH; reflexivity.
Qed.

Lemma filter_all {T} (l : list T) : filter (fun _ => true) l = l.
Proof. induction l as [|x t IH]; simpl; [|rewrite IH]; reflexivity. Qed.

Lemma fold_store_keys (l : list Attribute) :
  (forall a, In a l ->
             attr_key a <> "__proto__" /\ array_index (attr_key a) = None) ->
  forall d,
    keys (fold_left store_attr l d) =
    (keys d ++
     filter (fun x => negb (existsb (String.eqb x) (keys d)))
       (dedup (map attr_key l)))%list.
Proof.
  induction l as [|a t IH]; intros Hl d; simpl;
    [rewrite app_nil_r; reflexivity|].
  rewrite IH by (intros b Hb; apply Hl; right; exact Hb).
  destruct (Hl a (or_introl eq_refl)) as [Hp Hi].
  unfold store_attr at 1 2. rewrite (prop_set_ordinary _ _ Hp Hi).
  rewrite dict_set_keys, dict_in_existsb.
  rewrite filter_filter.
  destruct (existsb (String.eqb (attr_key a)) (keys d)) eqn:E; simpl.
  - f_equal. apply filter_ext_in. intros x _.
    destruct (String.eqb_spec x (attr_key a)) as [->|_]; simpl;
      [rewrite E|]; reflexivity.
  - rewrite <- app_assoc. simpl. do 2 f_equal.
    apply filter_ext_in. intros x _. rewrite existsb_app. simpl.
    rewrite orb_false_r, negb_orb. apply andb_comm.
Qed.

(** When a name other than [__proto__] is written more than once in a tag,
    the prop holds the value that came last; and when no name of the tag is
    an array index, the props stand in the order in which their names came
    first. *)
Theorem parseProps_repeated (l : list Attribute) :
  forallb attr_ok l = true ->
  (forall a, In a l -> attr_key a <> "__proto__") ->
  exists d,
    parseProps (attrs_text l) = Ok d /\
    ((forall a, In a l -> array_index (attr_key a) = None) ->
     keys d = dedup (map attr_key l)) /\
    forall before a after,
      l = (before ++ a :: after)%list ->
      (forall b, In b after -> attr_key b <> attr_key a) ->
      dict_get (attr_key a) d = Some (attr_value a).
Proof.
  intros Hok Hp. exists (fold_left store_attr l []).
  split; [apply parseProps_attrs; exact Hok|]. split.
  - intros Hi. rewrite fold_store_keys; [simpl; apply filter_all|].
    intros a Ha. split; [apply Hp | apply Hi]; exact Ha.
  - intros before a after -> Hafter.
    rewrite fold_left_app. simpl.
    rewrite fold_store_other by exact Hafter.
    unfold store_attr at 1. rewrite dict_get_prop_set, String.eqb_refl.
    + destruct a; reflexivity.
    + apply Hp. apply in_or_app. right. left. reflexivity.
Qed.

(** [id=QaQ hidden id=QbQ], with Q the double quote. *)
Lemma parseProps_repeated_witness :
  exists d,
    parseProps (attrs_text [Pair "id" "a"; Flag "hidden"; Pair "id" "b"]) =
      Ok d /\
    keys d = ["id"; "hidden"] /\ dict_get "id" d = Some (VStr "b").
Proof.
  destruct (@parseProps_repeated
              [Pair "id" "a"; Flag "hidden"; Pair "id" "b"] eq_refl)
    as (d & E & Hk & Hv).
  - intros a [<-|[<-|[<-|[]]]]; discriminate.
  - exists d. split; [exact E|]. split.
    + apply Hk. intros a [<-|[<-|[<-|[]]]]; reflexivity.
    + apply (Hv [Pair "id" "a"; Flag "hidden"] (Pair "id" "b") [] eq_refl).
      intros b [].
Defined.

(* ================================================================== *)
(** ** Comments *)

Lemma lang_Str (t p : string) : lang (Str t) p -> p = t.
Proof.
  revert p. induction t as [|c t IH]; intros p H; [exact H|].
  destruct t as [|d t]; [exact H|].
  change (Str (String c (String d t)))
    with (Seq (Lit c) (Str (String d t))) in H.
  destruct H as (p1 & p2 & -> & -> & H2). rewrite (IH _ H2). reflexivity.
Qed.

Lemma starts_append (t b : string) : starts t (t ++ b) = true.
Proof.
  induction t as [|a t IH]; simpl; [reflexivity|].
  rewrite Ascii.eqb_refl. exact IH.
Qed.

Lemma has_sub_unfold (t s : string) :
  has_sub t s =
  starts t s ||
  match s with String _ s' => has_sub t s' | EmptyString => false end.
Proof. destruct s; reflexivity. Qed.

Lemma has_sub_app (t a b : string) : has_sub t (a ++ t ++ b) = true.
Proof.
  induction a as [|c a IH].
  - cbn [String.append]. rewrite has_sub_unfold, starts_append. reflexivity.
  - cbn [String.append]. rewrite has_sub_unfold, IH. apply orb_true_r.
Qed.

Lemma has_sub_suffix (t a b : string) :
  has_sub t (a ++ b) = false -> has_sub t b = false.
Proof.
  induction a as [|c a IH]; simpl; [auto|]. intros H.
  apply orb_false_iff in H. apply IH, H.
Qed.

Lemma has_sub_starts (t s : string) :
  has_sub t s = false -> starts t s = false.
Proof.
  destruct s; simpl; intros H; apply orb_false_iff in H; apply H.
Qed.

(** A literal text matches only where it stands. *)
Lemma rmatch_Str_fail A (t s : string) (i : nat) (c : caps) (k : cont A) :
  starts t s = false -> rmatch (Str t) s i c k = None.
Proof.
  revert s i. induction t as [|a t IH]; intros s i H; [discriminate|].
  destruct s as [|b s]; [destruct t; reflexivity|].
  simpl in H. destruct t as [|d t].
  - simpl. rewrite andb_true_r in H. rewrite H. reflexivity.
  - change (Str (String a (String d t)))
      with (Seq (Lit a) (Str (String d t))).
    rewrite rmatch_Seq, rmatch_Lit. unfold one.
    destruct (Ascii.eqb a b); [|reflexivity]. apply IH. exact H.
Qed.

Lemma rmatch_Str_ok A (t s : string) (i : nat) (c : caps) (k : cont A) :
  t <> "" ->
  rmatch (Str t) (t ++ s) i c k = k s (i + String.length t) c.
Proof.
  revert i. induction t as [|a t IH]; intros i H; [contradiction|].
  destruct t as [|d t].
  - simpl. rewrite Ascii.eqb_refl, Nat.add_1_r. reflexivity.
  - change (Str (String a (String d t)))
      with (Seq (Lit a) (Str (String d t))).
    rewrite rmatch_Seq, rmatch_Lit. cbn [String.append one].
    rewrite Ascii.eqb_refl.
    change (String d (t ++ s)) with (String d t ++ s).
    rewrite IH by discriminate. f_equal. simpl. lia.
Qed.

Lemma closes_on_line_app (q rest : string) :
  JsString.all_chars notLineEnd q = true ->
  closes_on_line (q ++ "-->" ++ rest) = true.
Proof.
  induction q as [|b q IH]; intros H.
  - change ("" ++ "-->" ++ rest) with (String "-" ("->" ++ rest)).
    cbn [closes_on_line].
    change (String "-" ("->" ++ rest)) with ("-->" ++ rest).
    rewrite starts_append. reflexivity.
  - simpl in H. apply andb_prop in H. destruct H as [Hb H].
    change (String b q ++ "-->" ++ rest)
      with (String b (q ++ "-->" ++ rest)).
    cbn [closes_on_line]. rewrite Hb, (IH H). apply orb_true_r.
Qed.

Lemma has_comment_head (d : ascii) (u : string) :
  notLineEnd d = true -> closes_on_line u = true ->
  has_comment ("<!--" ++ String d u) = true.
Proof.
  intros Hd Hu.
  change ("<!--" ++ String d u) with (String "<" ("!--" ++ String d u)).
  cbn [has_comment].
  change (String "<" ("!--" ++ String d u)) with ("<!--" ++ String d u).
  rewrite starts_append.
  change (JsString.slice 4 ("<!--" ++ String d u)) with (String d u).
  cbv iota. rewrite Hd, Hu. reflexivity.
Qed.

Lemma has_comment_app (pre s : string) :
  has_comment s = true -> has_comment (pre ++ s) = true.
Proof.
  intros H. induction pre as [|c pre IH]; [exact H|].
  change (String c pre ++ s) with (String c (pre ++ s)).
  cbn [has_comment]. rewrite IH. apply orb_true_r.
Qed.

(** A match of the comment pattern is a comment that closes on the line
    where it opens, with something inside. *)
Lemma exec_from_comments_none (s : string) (i : nat) :
  has_comment s = false -> exec_from (source regex.comments) s i = None.
Proof.
  intros H. destruct (exec_from (source regex.comments) s i) as [m|] eqn:E;
    [|reflexivity].
  exfalso. apply exec_from_inv in E. destruct E as (pre & s' & -> & E).
  apply match_at_lang in E. destruct E as [-> Hl].
  simpl in Hl.
  destruct Hl as (p1 & p23 & E1 & H1 & p2 & p3 & -> & H2 & H3).
  apply (lang_Str "<!--") in H1. apply (lang_Str "-->") in H3. subst p1 p3.
  destruct H2 as (d1 & q & -> & (d & Hd & ->) & Hq).
  rewrite E1 in H. clear E1.
  assert (Hq' : JsString.all_chars notLineEnd q = true).
  { destruct Hq as (l & -> & Hl). clear H.
    induction Hl as [|w l (b & Hb & ->) _ IH]; [reflexivity|].
    simpl. unfold notLineEnd at 1. rewrite Hb. exact IH. }
  rewrite has_comment_app in H; [discriminate|].
  rewrite !append_assoc. cbn [String.append].
  apply (@has_comment_head d (q ++ "-->" ++ m_rest m)).
  - unfold notLineEnd. rewrite Hd. reflexivity.
  - apply closes_on_line_app. exact Hq'.
Qed.

(** A text without such a comment goes through unchanged: a comment that
    spans lines, or with nothing inside, is not taken out. *)
Theorem comments_kept (template : string) (f : Match -> string) :
  has_comment template = false ->
  replace regex.comments f template = template.
Proof.
  intros H. unfold replace, replace_g. simpl global. cbn [replace_from].
  rewrite exec_from_comments_none by exact H. reflexivity.
Qed.

Lemma comments_kept_witness :
  replace regex.comments (fun _ => "")
    ("<p><!--" ++ String "010" "note" ++ String "010" "--></p><!---->") =
  "<p><!--" ++ String "010" "note" ++ String "010" "--></p><!---->".
Proof.
  apply (@comments_kept
           ("<p><!--" ++ String "010" "note" ++ String "010" "--></p><!---->")
           (fun _ => "")).
  reflexivity.
Defined.

(** A greedy quantifier over single characters gives back what it took
    until the rest of the pattern succeeds: when that fails everywhere
    behind [U], the run ends in front of [U]. *)
Lemma star_loop_fail A (p : ascii -> bool) ma (K : cont A) :
  (forall s i c k, ma s i c k = one p s i c k) ->
  forall n U i c,
    (forall u1 u2 j, U = u1 ++ u2 -> K u2 j c = None) ->
    star_loop ma true K n U i c = None.
Proof.
  intros Hma. induction n as [|n IH]; intros U i c H.
  - simpl. apply (H "" U). reflexivity.
  - simpl. rewrite Hma. unfold one.
    assert (HK : K U i c = None) by (apply (H "" U); reflexivity).
    destruct U as [|b t]; [exact HK|].
    destruct (p b); [|exact HK].
    assert (Hlt : (String.length t <? String.length (String b t))%nat = true)
      by (apply Nat.ltb_lt; simpl; lia).
    rewrite Hlt, IH; [exact HK|].
    intros u1 u2 j ->. apply (H (String b u1) u2). reflexivity.
Qed.

Lemma star_loop_last A (p : ascii -> bool) ma (K : cont A) :
  (forall s i c k, ma s i c k = one p s i c k) ->
  forall w U n i c x,
    JsString.all_chars p w = true ->
    String.length w <= n ->
    K U (i + String.length w) c = Some x ->
    (forall u1 u2 j, u1 <> "" -> U = u1 ++ u2 -> K u2 j c = None) ->
    star_loop ma true K n (w ++ U) i c = Some x.
Proof.
  intros Hma. induction w as [|a w IH]; intros U n i c x Hw Hn HK Hfail.
  - simpl in *. rewrite Nat.add_0_r in HK. destruct n as [|n]; [exact HK|].
    simpl. rewrite Hma. unfold one. destruct U as [|b t]; [exact HK|].
    destruct (p b); [|exact HK].
    assert (Hlt : (String.length t <? String.length (String b t))%nat = true)
      by (apply Nat.ltb_lt; simpl; lia).
    rewrite Hlt, (@star_loop_fail A p ma K Hma); [exact HK|].
    intros u1 u2 j ->. apply (Hfail (String b u1) u2); [discriminate|].
    reflexivity.
  - simpl in Hw. apply andb_prop in Hw. destruct Hw as [Ha Hw].
    destruct n as [|n]; [simpl in Hn; lia|].
    cbn [String.append star_loop]. rewrite Hma. unfold one. rewrite Ha.
    assert (Hlt : (String.length (w ++ U) <?
                   String.length (String a (w ++ U)))%nat = true)
      by (apply Nat.ltb_lt; simpl; lia).
    rewrite Hlt. rewrite (IH U n (S i) c x); auto.
    + simpl in Hn. lia.
    + rewrite <- HK. f_equal. simpl. lia.
Qed.

Lemma rmatch_Dot A s i c (k : cont A) :
  rmatch Dot s i c k = one notLineEnd s i c k.
Proof. reflexivity. Qed.

Lemma rmatch_Star A (g : bool) (a : re) s i c (k : cont A) :
  rmatch (Star g a) s i c k =
  star_loop (fun s' i' c' k' => rmatch a s' i' (cap_clear (groups a) c') k')
    g k (String.length s) s i c.
Proof. reflexivity. Qed.

(** The match of a comment: it ends at the last [-->] of the line. *)
Lemma match_comment (mid post : string) (i : nat) :
  mid <> "" -> JsString.all_chars notLineEnd mid = true ->
  has_sub "-->" post = false ->
  match_at (source regex.comments) ("<!--" ++ mid ++ "-->" ++ post) i =
  Some (mkMatch i ("<!--" ++ mid ++ "-->") [] post).
Proof.
  intros Hne Hmid Hpost. destruct mid as [|a mid]; [contradiction|].
  simpl in Hmid. apply andb_prop in Hmid. destruct Hmid as [Ha Hmid].
  unfold match_at, regex.comments. cbn [source].
  change (cat [Str "<!--"; Plus true Dot; Str "-->"])
    with (Seq (Str "<!--") (Seq (Seq Dot (Star true Dot)) (Str "-->"))).
  rewrite rmatch_Seq, rmatch_Str_ok by discriminate.
  rewrite !rmatch_Seq, rmatch_Dot. cbn [String.append one].
  rewrite Ha, rmatch_Star.
  apply star_loop_last with (p := notLineEnd).
  - intros. simpl. rewrite cap_clear_nil. reflexivity.
  - exact Hmid.
  - rewrite length_append. lia.
  - change (String "-" (String "-" (String ">" post))) with ("-->" ++ post).
    rewrite rmatch_Str_ok by discriminate. do 2 f_equal.
    apply substring_split with (s := post).
    + cbn [String.append]. rewrite append_assoc. reflexivity.
    + cbn [String.length String.append]. rewrite !length_append.
      cbn [String.length]. lia.
  - intros u1 u2 j Hu1 E. apply rmatch_Str_fail.
    destruct u1 as [|c1 u1]; [contradiction|].
    destruct u1 as [|c2 u1].
    { injection E as _ <-. reflexivity. }
    destruct u1 as [|c3 u1].
    { injection E as _ _ <-. reflexivity. }
    injection E as _ _ _ E. apply has_sub_starts.
    apply has_sub_suffix with (a := u1). rewrite <- E. exact Hpost.
Qed.

Lemma exec_from_skip (r : re) (pre rest : string) :
  (forall a b j, pre = a ++ b -> b <> "" ->
     match_at r (b ++ rest) j = None) ->
  forall i, exec_from r (pre ++ rest) i =
            exec_from r rest (i + String.length pre).
Proof.
  induction pre as [|c pre IH]; intros H i.
  - simpl. rewrite Nat.add_0_r. reflexivity.
  - cbn [String.append exec_from].
    change (String c (pre ++ rest)) with (String c pre ++ rest).
    rewrite (H "" (String c pre) i eq_refl) by discriminate.
    rewrite IH.
    + f_equal. simpl. lia.
    + intros a b j -> Hb. apply (H (String c a) b j); [reflexivity|exact Hb].
Qed.

(** A comment does not open where the text in front holds no [<!--]. *)
Lemma no_open_before (b X : string) :
  has_sub "<!--" b = false -> b <> "" ->
  starts "<!--" (b ++ "<!--" ++ X) = false.
Proof.
  intros H Hb. apply has_sub_starts in H.
  destruct b as [|c1 b]; [contradiction|].
  destruct b as [|c2 b].
  { simpl. apply andb_false_r. }
  destruct b as [|c3 b].
  { simpl. rewrite andb_false_r. apply andb_false_r. }
  destruct b as [|c4 b].
  { simpl. rewrite !andb_false_r. reflexivity. }
  exact H.
Qed.

(** A comment is taken out from where it opens up to the last [-->] on
    its line, with whatever stands in between: further comments, and the
    markup between them. *)
Theorem comments_removed (random : nat -> string)
  (newFunction : string -> option Body) (options : CompilerOptions)
  (rng : nat) (pre mid post : string) :
  has_sub "<!--" pre = false ->
  mid <> "" -> JsString.all_chars notLineEnd mid = true ->
  has_sub "-->" post = false ->
  replace regex.comments (fun _ => "") (pre ++ "<!--" ++ mid ++ "-->" ++ post)
    = pre ++ post /\
  compile random newFunction (pre ++ "<!--" ++ mid ++ "-->" ++ post)
    options rng =
    (forest <- parse (pre ++ post) (f_call (h_of options)) ;;
     compile_forest random newFunction forest options rng).
Proof.
  intros Hpre Hne Hmid Hpost.
  assert (E : replace regex.comments (fun _ => "")
                (pre ++ "<!--" ++ mid ++ "-->" ++ post) = pre ++ post).
  { unfold replace, replace_g. simpl global. cbn [replace_from].
    rewrite exec_from_skip.
    - rewrite (@exec_from_match_at _ _ _ _
                 (@match_comment mid post _ Hne Hmid Hpost)).
      cbn [m_index m_text m_rest String.append].
      rewrite Nat.add_0_l, Nat.sub_0_r.
      unfold JsString.substr0. rewrite substring_prefix.
      assert (Hnone : forall j,
                 exec_from (source regex.comments) post j = None).
      { intros j.
        destruct (exec_from _ post j) as [m|] eqn:Em; [|reflexivity].
        exfalso. apply exec_from_inv in Em.
        destruct Em as (a & s' & -> & Em). apply match_at_lang in Em.
        destruct Em as [-> Hl]. simpl in Hl.
        destruct Hl as (p1 & p23 & E1 & _ & p2 & p3 & -> & _ & H3).
        apply (lang_Str "-->") in H3. subst p3.
        rewrite E1, !append_assoc in Hpost.
        rewrite <- (append_assoc a), <- append_assoc in Hpost.
        rewrite has_sub_app in Hpost. discriminate. }
      f_equal.
      destruct (String.length
                  (pre ++ String "<" (String "!" (String "-" (String "-"
                     (mid ++ String "-" (String "-" (String ">" post))))))))
        as [|fuel]; [reflexivity|].
      cbn [replace_from]. rewrite Hnone. reflexivity.
    - intros a b j -> Hb. unfold match_at, regex.comments. cbn [source].
      change (cat [Str "<!--"; Plus true Dot; Str "-->"])
        with (Seq (Str "<!--") (Seq (Plus true Dot) (Str "-->"))).
      rewrite rmatch_Seq. apply rmatch_Str_fail.
      apply no_open_before; [|exact Hb].
      apply has_sub_suffix with (a := a). exact Hpre. }
  split; [exact E|]. unfold compile, h_of. rewrite E. reflexivity.
Qed.

(** [<div><!-- a --><p>x</p><!-- b --></div>]: both comments go, and the
    paragraph between them. *)
Lemma comments_removed_witness :
  replace regex.comments (fun _ => "")
    "<div><!-- a --><p>x</p><!-- b --></div>" = "<div></div>".
Proof.
  apply (@comments_removed Example.random Example.newFunction
           Example.options 0 "<div>" " a --><p>x</p><!-- b " "</div>");
    [reflexivity | discriminate | reflexivity | reflexivity].
Defined.

(* ================================================================== *)
(** ** Tags *)

Lemma rmatch_Cls A (neg : bool) (items : list citem) s i c (k : cont A) :
  rmatch (Cls neg items) s i c k = one (in_class neg items) s i c k.
Proof. reflexivity. Qed.

Lemma rmatch_Eps A s i c (k : cont A) : rmatch Eps s i c k = k s i c.
Proof. reflexivity. Qed.

Lemma one_fail A (p : ascii -> bool) s i c (k : cont A) :
  JsString.starts_outside p s = true -> one p s i c k = None.
Proof.
  unfold one. destruct s as [|b t]; [reflexivity|]. simpl.
  intros H. apply negb_true_iff in H. rewrite H. reflexivity.
Qed.

(** A greedy run over a class, in front of something outside the class. *)
Lemma star_class_run A (neg : bool) (items : list citem) (w rest : string)
  (i : nat) (c : caps) (K : cont A) (x : A) :
  JsString.all_chars (in_class neg items) w = true ->
  JsString.starts_outside (in_class neg items) rest = true ->
  K rest (i + String.length w) c = Some x ->
  rmatch (Star true (Cls neg items)) (w ++ rest) i c K = Some x.
Proof.
  intros Hw Hrest HK. rewrite rmatch_Star.
  apply star_loop_run with (p := in_class neg items); auto.
  - intros. simpl. rewrite cap_clear_nil. reflexivity.
  - rewrite length_append. lia.
Qed.

Lemma plus_class_run A (neg : bool) (items : list citem) (w rest : string)
  (i : nat) (c : caps) (K : cont A) (x : A) :
  w <> "" ->
  JsString.all_chars (in_class neg items) w = true ->
  JsString.starts_outside (in_class neg items) rest = true ->
  K rest (i + String.length w) c = Some x ->
  rmatch (Plus true (Cls neg items)) (w ++ rest) i c K = Some x.
Proof.
  intros Hne Hw Hrest HK. destruct w as [|a w]; [contradiction|].
  simpl in Hw. apply andb_prop in Hw. destruct Hw as [Ha Hw].
  unfold Plus. rewrite rmatch_Seq, rmatch_Cls. cbn [String.append one].
  rewrite Ha. apply star_class_run; auto.
  rewrite <- HK. f_equal. simpl. lia.
Qed.

Lemma plus_class_fail A (g neg : bool) (items : list citem) (s : string)
  (i : nat) (c : caps) (K : cont A) :
  JsString.starts_outside (in_class neg items) s = true ->
  rmatch (Plus g (Cls neg items)) s i c K = None.
Proof.
  intros H. unfold Plus. rewrite rmatch_Seq, rmatch_Cls.
  apply one_fail. exact H.
Qed.

Lemma opt_skip A (a : re) s i c (K : cont A) :
  rmatch a s i c K = None -> rmatch (Opt a) s i c K = K s i c.
Proof. intros H. unfold Opt. rewrite rmatch_Alt, H. reflexivity. Qed.

Lemma opt_take A (a : re) s i c (K : cont A) (x : A) :
  rmatch a s i c K = Some x -> rmatch (Opt a) s i c K = Some x.
Proof. intros H. unfold Opt. rewrite rmatch_Alt, H. reflexivity. Qed.

(** What the characters of a name are not. *)
Lemma nameCharB_inv (b : ascii) :
  nameCharB b = true ->
  spaceB b = false /\ Ascii.eqb "/" b = false /\ Ascii.eqb "<" b = false /\
  Ascii.eqb ">" b = false /\ Ascii.eqb "=" b = false.
Proof.
  unfold nameCharB, spaceB, in_class. simpl. intros H.
  apply negb_true_iff in H.
  repeat (apply orb_false_iff in H; destruct H as [? H]).
  rewrite orb_false_r. auto.
Qed.

Lemma ws_skip A (s : string) (i : nat) (c : caps) (K : cont A) (x : A) :
  JsString.starts_outside spaceB s = true ->
  K s i c = Some x -> rmatch regex.ws s i c K = Some x.
Proof.
  intros Hs HK. unfold regex.ws.
  apply (@star_class_run A false [CSpace] "" s); auto.
  rewrite Nat.add_0_r. exact HK.
Qed.

(** One attribute and the blank behind it. *)
Lemma attrBody_run A (a : Attribute) (sp next : string) (i : nat) (c : caps)
  (K : cont A) (x : A) :
  tag_attr_ok a = true ->
  JsString.all_chars spaceB sp = true ->
  JsString.starts_outside spaceB next = true ->
  JsString.starts_outside nameCharB (sp ++ next) = true ->
  JsString.starts_outside (Ascii.eqb "=") (sp ++ next) = true ->
  K next (i + String.length (attr_text a ++ sp)) c = Some x ->
  rmatch attrBody (attr_text a ++ sp ++ next) i c K = Some x.
Proof.
  intros Hok Hsp Hnext Hout Heq HK.
  unfold tag_attr_ok, attr_ok in Hok.
  apply andb_prop in Hok. destruct Hok as [Hok Hname].
  apply andb_prop in Hok. destruct Hok as [Hok Hval].
  apply andb_prop in Hok. destruct Hok as [Hne _].
  assert (Hk : attr_key a <> "") by (destruct (attr_key a); discriminate).
  unfold attrBody. cbn [cat]. rewrite rmatch_Seq.
  destruct a as [k|k v]; cbn [attr_text attr_key] in *.
  - apply plus_class_run; auto. rewrite rmatch_Seq, opt_skip.
    + apply (@star_class_run A false [CSpace] sp next); auto.
      rewrite <- HK. f_equal. rewrite length_append. lia.
    + cbn [cat]. rewrite rmatch_Seq, rmatch_Lit. apply one_fail. exact Heq.
  - rewrite !append_assoc. apply plus_class_run; auto.
    rewrite rmatch_Seq. apply opt_take. cbn [cat].
    rewrite rmatch_Seq, rmatch_Lit. cbn [String.append one].
    rewrite Ascii.eqb_refl.
    rewrite rmatch_Seq, rmatch_Lit. unfold JsString.q.
    cbn [String.append one]. rewrite Ascii.eqb_refl.
    rewrite rmatch_Seq.
    apply (@star_class_run A true [CChar JsString.dq] v
             (String JsString.dq (sp ++ next)));
      [exact Hval | reflexivity |].
    rewrite rmatch_Lit. cbn [one]. rewrite Ascii.eqb_refl.
    apply (@star_class_run A false [CSpace] sp next); auto.
    rewrite <- HK. f_equal. unfold JsString.q.
    repeat first [progress rewrite length_append
                 | progress cbn [String.length String.append]].
    lia.
Qed.

Lemma attrBody_fail A (s : string) (i : nat) (c : caps) (K : cont A) :
  JsString.starts_outside nameCharB s = true ->
  rmatch attrBody s i c K = None.
Proof.
  intros H. unfold attrBody. cbn [cat]. rewrite rmatch_Seq.
  apply plus_class_fail. exact H.
Qed.


Lemma attrs_from_blank (t : list Attribute) :
  attrs_from " " t = blank_after t ++ attrs_text t.
Proof. destruct t; reflexivity. Qed.

Lemma attrs_text_cons (a : Attribute) (t : list Attribute) :
  attrs_text (a :: t) = attr_text a ++ blank_after t ++ attrs_text t.
Proof.
  unfold attrs_text. cbn [attrs_from String.append].
  rewrite attrs_from_blank. reflexivity.
Qed.

Lemma attr_text_starts (a : Attribute) (rest : string) :
  tag_attr_ok a = true ->
  exists b s, attr_text a ++ rest = String b s /\ nameCharB b = true.
Proof.
  unfold tag_attr_ok, attr_ok. intros H.
  apply andb_prop in H. destruct H as [H Hn].
  apply andb_prop in H. destruct H as [H _].
  apply andb_prop in H. destruct H as [Hne _].
  destruct a as [k|k v]; cbn [attr_text attr_key] in *;
    (destruct k as [|b k]; [discriminate|]);
    simpl in Hn; apply andb_prop in Hn; destruct Hn as [Hb _];
    eexists b, _; (split; [reflexivity | exact Hb]).
Qed.

Lemma attr_text_length (a : Attribute) :
  tag_attr_ok a = true -> 1 <= String.length (attr_text a).
Proof.
  intros H. destruct (attr_text_starts a "" H) as (b & s & E & _).
  rewrite append_nil_r in E. rewrite E. simpl. lia.
Qed.

Lemma attrs_text_length (t : list Attribute) :
  forallb tag_attr_ok t = true ->
  List.length t <= String.length (attrs_text t).
Proof.
  induction t as [|a t IH]; intros H; [simpl; lia|].
  simpl in H. apply andb_prop in H. destruct H as [Ha Ht].
  rewrite attrs_text_cons, !length_append.
  pose proof (attr_text_length a Ha). specialize (IH Ht). simpl. lia.
Qed.

(** The attributes of a tag, one iteration of the quantifier each. *)
Lemma attr_loop A (tail : string) (K : cont A) :
  JsString.starts_outside nameCharB tail = true ->
  JsString.starts_outside spaceB tail = true ->
  JsString.starts_outside (Ascii.eqb "=") tail = true ->
  forall t n i c x,
    forallb tag_attr_ok t = true ->
    List.length t <= n ->
    K tail (i + String.length (attrs_text t)) c = Some x ->
    star_loop
      (fun s' i' c' k' =>
         rmatch attrBody s' i' (cap_clear (groups attrBody) c') k')
      true K n (attrs_text t ++ tail) i c = Some x.
Proof.
  intros Ht1 Ht2 Ht3.
  induction t as [|a t IH]; intros n i c x Hok Hn HK.
  - cbn [attrs_text attrs_from String.append String.length] in *.
    rewrite Nat.add_0_r in HK. destruct n as [|n]; [exact HK|].
    cbn [star_loop]. rewrite attrBody_fail by exact Ht1. exact HK.
  - simpl in Hok. apply andb_prop in Hok. destruct Hok as [Ha Hok].
    destruct n as [|n]; [simpl in Hn; lia|].
    rewrite attrs_text_cons, !append_assoc. cbn [star_loop].
    change (groups attrBody) with (@nil nat). rewrite cap_clear_nil.
    assert (Hsp : JsString.all_chars spaceB (blank_after t) = true)
      by (destruct t; reflexivity).
    assert (Hnext : JsString.starts_outside spaceB (attrs_text t ++ tail)
                    = true).
    { destruct t as [|a' t']; [exact Ht2|].
      simpl in Hok. apply andb_prop in Hok. destruct Hok as [Ha' _].
      rewrite attrs_text_cons, append_assoc.
      destruct (attr_text_starts a'
                  ((blank_after t' ++ attrs_text t') ++ tail) Ha')
        as (b & s & -> & Hb).
      simpl. apply nameCharB_inv in Hb. destruct Hb as [-> _].
      reflexivity. }
    assert (Hout : JsString.starts_outside nameCharB
                     (blank_after t ++ attrs_text t ++ tail) = true)
      by (destruct t; [exact Ht1 | reflexivity]).
    assert (Heq : JsString.starts_outside (Ascii.eqb "=")
                    (blank_after t ++ attrs_text t ++ tail) = true)
      by (destruct t; [exact Ht3 | reflexivity]).
    rewrite (@attrBody_run A a (blank_after t) (attrs_text t ++ tail) i c _ x
               Ha Hsp Hnext Hout Heq); [reflexivity|].
    assert (Hlt : (String.length (attrs_text t ++ tail) <?
                   String.length
                     (attr_text a ++ blank_after t ++ attrs_text t ++ tail))%nat
                  = true).
    { apply Nat.ltb_lt. pose proof (attr_text_length a Ha).
      rewrite !length_append. lia. }
    rewrite Hlt. apply IH; [exact Hok | simpl in Hn; lia |].
    rewrite attrs_text_cons in HK. rewrite <- HK. f_equal.
    rewrite !length_append. lia.
Qed.

(** The end of a tag: an optional slash and [>]. *)
Lemma tagEnd_run A (slash : bool) (rest : string) (i : nat) (c : caps)
  (K : cont A) (x : A) :
  K rest (i + String.length ((if slash then "/" else "") ++ ">"))
    ((if slash then [(3, "/")] else []) ++ c)%list = Some x ->
  rmatch (Seq regex.ws (Seq (Opt (Grp 3 (Lit "/"))) (Seq regex.ws (Lit ">"))))
    ((if slash then "/" else "") ++ ">" ++ rest) i c K = Some x.
Proof.
  intros HK. rewrite rmatch_Seq.
  apply ws_skip; [destruct slash; reflexivity|]. rewrite rmatch_Seq.
  destruct slash.
  - apply opt_take. rewrite rmatch_Grp, rmatch_Lit.
    change ("/" ++ ">" ++ rest) with (String "/" (String ">" rest)).
    cbn [one]. rewrite Ascii.eqb_refl. rewrite rmatch_Seq.
    apply ws_skip; [reflexivity|]. rewrite rmatch_Lit. cbn [one].
    rewrite Ascii.eqb_refl. rewrite <- HK.
    replace (S i - i) with 1 by lia. f_equal. simpl. lia.
  - rewrite opt_skip
      by (rewrite rmatch_Grp, rmatch_Lit; apply one_fail; reflexivity).
    rewrite rmatch_Seq. apply ws_skip; [reflexivity|].
    rewrite rmatch_Lit. change ("" ++ ">" ++ rest) with (String ">" rest).
    cbn [one]. rewrite Ascii.eqb_refl. rewrite <- HK. f_equal. simpl. lia.
Qed.

Lemma name_ok_inv (name : string) :
  name_ok name = true ->
  name <> "" /\ JsString.all_chars nameCharB name = true /\ name <> "#text".
Proof.
  unfold name_ok. intros H. apply andb_prop in H. destruct H as [H Ht].
  apply andb_prop in H. destruct H as [Hne Hn].
  split; [destruct name; discriminate|]. split; [exact Hn|].
  apply negb_true_iff, String.eqb_neq in Ht. exact Ht.
Qed.

(** A tag behind its [<]: the name, the attributes, the end. *)
Lemma tagRest_run A (name : string) (attrs : list Attribute) (slash : bool)
  (rest : string) (i : nat) (c : caps) (K : cont A) (x : A) :
  name_ok name = true -> forallb tag_attr_ok attrs = true ->
  K rest
    (i + String.length
           (name ++ attrs_from " " attrs ++ (if slash then "/" else "") ++ ">"))
    (tag_caps name attrs slash ++ c)%list = Some x ->
  rmatch tagRest
    (name ++ attrs_from " " attrs ++ (if slash then "/" else "") ++ ">" ++ rest)
    i c K = Some x.
Proof.
  intros Hname Hattrs HK. apply name_ok_inv in Hname.
  destruct Hname as (Hne & Hn & _).
  set (tail := (if slash then "/" else "") ++ ">" ++ rest) in *.
  assert (Ht1 : JsString.starts_outside nameCharB tail = true)
    by (destruct slash; reflexivity).
  assert (Ht2 : JsString.starts_outside spaceB tail = true)
    by (destruct slash; reflexivity).
  assert (Ht3 : JsString.starts_outside (Ascii.eqb "=") tail = true)
    by (destruct slash; reflexivity).
  unfold tagRest. cbn [cat]. rewrite rmatch_Seq, rmatch_Grp.
  unfold regex.nameChar.
  apply plus_class_run; [exact Hne | exact Hn | |].
  { destruct attrs; [exact Ht1 | reflexivity]. }
  replace (i + String.length name - i) with (String.length name) by lia.
  rewrite substring_prefix. rewrite rmatch_Seq.
  destruct attrs as [|a t].
  - cbn [attrs_from String.append] in *.
    apply ws_skip; [exact Ht2|]. rewrite rmatch_Seq.
    unfold regex.rawAttributes.
    rewrite opt_skip.
    + apply tagEnd_run. rewrite <- HK. unfold tag_caps.
      rewrite !length_append, <- app_assoc. f_equal. lia.
    + rewrite rmatch_Grp. unfold Plus. rewrite rmatch_Seq.
      apply attrBody_fail. exact Ht1.
  - simpl in Hattrs. apply andb_prop in Hattrs. destruct Hattrs as [Ha Hok].
    change (attrs_from " " (a :: t)) with (" " ++ attrs_text (a :: t)) in *.
    rewrite append_assoc.
    apply (@star_class_run A false [CSpace] " " (attrs_text (a :: t) ++ tail)).
    { reflexivity. }
    { rewrite attrs_text_cons, append_assoc.
      destruct (attr_text_starts a
                  ((blank_after t ++ attrs_text t) ++ tail) Ha)
        as (b & s & -> & Hb).
      change (in_class false [CSpace]) with spaceB.
      cbn [JsString.starts_outside].
      apply nameCharB_inv in Hb. destruct Hb as [-> _]. reflexivity. }
    rewrite rmatch_Seq. unfold regex.rawAttributes. apply opt_take.
    rewrite rmatch_Grp. unfold Plus. rewrite rmatch_Seq.
    rewrite attrs_text_cons, !append_assoc.
    fold attrBody.
    assert (Hsp : JsString.all_chars spaceB (blank_after t) = true)
      by (destruct t; reflexivity).
    assert (Hnext : JsString.starts_outside spaceB (attrs_text t ++ tail)
                    = true).
    { destruct t as [|a' t']; [exact Ht2|].
      simpl in Hok. apply andb_prop in Hok. destruct Hok as [Ha' _].
      rewrite attrs_text_cons, append_assoc.
      destruct (attr_text_starts a'
                  ((blank_after t' ++ attrs_text t') ++ tail) Ha')
        as (b & s & -> & Hb).
      change (in_class false [CSpace]) with spaceB.
      cbn [JsString.starts_outside].
      apply nameCharB_inv in Hb. destruct Hb as [-> _]. reflexivity. }
    assert (Hout : JsString.starts_outside nameCharB
                     (blank_after t ++ attrs_text t ++ tail) = true)
      by (destruct t; [exact Ht1 | reflexivity]).
    assert (Heq : JsString.starts_outside (Ascii.eqb "=")
                    (blank_after t ++ attrs_text t ++ tail) = true)
      by (destruct t; [exact Ht3 | reflexivity]).
    apply attrBody_run; [exact Ha | exact Hsp | exact Hnext | exact Hout
                        | exact Heq |].
    rewrite rmatch_Star.
    apply attr_loop; [exact Ht1 | exact Ht2 | exact Ht3 | exact Hok | |].
    { pose proof (attrs_text_length t Hok). rewrite length_append. lia. }
    apply tagEnd_run. rewrite <- HK. unfold tag_caps.
    rewrite <- !app_assoc. cbn [app]. f_equal.
    + rewrite attrs_text_cons.
      repeat first [progress rewrite length_append
                   | progress cbn [String.length]].
      lia.
    + do 2 f_equal. f_equal.
      apply substring_split with (s := tail).
      * rewrite attrs_text_cons, !append_assoc. reflexivity.
      * rewrite attrs_text_cons, !length_append. cbn [String.length]. lia.
Qed.

(** Lengths of concatenations, then linear arithmetic. *)
Ltac str_len :=
  repeat first [progress rewrite length_append
               | progress cbn [String.length String.append]];
  lia.

Lemma name_starts (name rest : string) :
  name_ok name = true ->
  exists b s, name ++ rest = String b s /\ nameCharB b = true.
Proof.
  intros H. apply name_ok_inv in H. destruct H as (Hne & Hn & _).
  destruct name as [|b s]; [contradiction|].
  simpl in Hn. apply andb_prop in Hn. destruct Hn as [Hb _].
  exists b, (s ++ rest). auto.
Qed.

Lemma name_outside (name rest : string) :
  name_ok name = true ->
  JsString.starts_outside spaceB (name ++ rest) = true /\
  JsString.starts_outside (Ascii.eqb "/") (name ++ rest) = true.
Proof.
  intros H. destruct (name_starts name rest H) as (b & s & -> & Hb).
  apply nameCharB_inv in Hb. destruct Hb as (H1 & H2 & _).
  cbn [JsString.starts_outside]. rewrite H1, H2. auto.
Qed.

Lemma ws_skip_eq A (s : string) (i : nat) (c : caps) (K : cont A) :
  JsString.starts_outside spaceB s = true ->
  rmatch regex.ws s i c K = K s i c.
Proof.
  intros H. unfold regex.ws. rewrite rmatch_Star.
  destruct (String.length s); [reflexivity|].
  cbn [star_loop]. rewrite rmatch_Cls, one_fail by exact H. reflexivity.
Qed.

(** The match of a tag that opens an element, wherever it stands. *)
Lemma match_open_tag (name : string) (attrs : list Attribute) (slash : bool)
  (rest : string) (i : nat) :
  name_ok name = true -> forallb tag_attr_ok attrs = true ->
  match_at regex.anyTag (open_tag name attrs slash ++ rest) i =
  Some (mkMatch i (open_tag name attrs slash) (tag_caps name attrs slash) rest).
Proof.
  intros Hname Hattrs. unfold match_at.
  change regex.anyTag
    with (Seq (Lit "<") (Seq regex.ws (Seq (Opt (Lit "/"))
            (Seq regex.ws tagRest)))).
  unfold open_tag. rewrite !append_assoc.
  rewrite rmatch_Seq, rmatch_Lit. cbn [String.append one].
  rewrite Ascii.eqb_refl.
  destruct (name_outside name
              (attrs_from " " attrs ++ (if slash then "/" else "") ++ ">" ++ rest)
              Hname) as [Hsp Hsl].
  rewrite rmatch_Seq, ws_skip_eq by exact Hsp.
  rewrite rmatch_Seq, opt_skip
    by (rewrite rmatch_Lit; apply one_fail; exact Hsl).
  rewrite rmatch_Seq, ws_skip_eq by exact Hsp.
  apply tagRest_run; [exact Hname | exact Hattrs |].
  rewrite app_nil_r. do 2 f_equal.
  apply substring_split with (s := rest).
  - cbn [String.append]. rewrite !append_assoc. reflexivity.
  - str_len.
Qed.

(** The match of a closing tag. *)
Lemma match_close_tag (name rest : string) (i : nat) :
  name_ok name = true ->
  match_at regex.anyTag (close_tag name ++ rest) i =
  Some (mkMatch i (close_tag name) [(1, name)] rest).
Proof.
  intros Hname. unfold match_at.
  change regex.anyTag
    with (Seq (Lit "<") (Seq regex.ws (Seq (Opt (Lit "/"))
            (Seq regex.ws tagRest)))).
  unfold close_tag. rewrite !append_assoc.
  rewrite rmatch_Seq, rmatch_Lit. cbn [String.append one].
  rewrite Ascii.eqb_refl.
  rewrite rmatch_Seq, ws_skip_eq by reflexivity.
  rewrite rmatch_Seq. apply opt_take. rewrite rmatch_Lit. cbn [one].
  rewrite Ascii.eqb_refl.
  destruct (name_outside name (">" ++ rest) Hname) as [Hsp _].
  rewrite rmatch_Seq, ws_skip_eq by exact Hsp.
  apply (@tagRest_run Match name [] false rest); [exact Hname | reflexivity |].
  cbn [tag_caps app attrs_from String.append]. do 2 f_equal.
  apply substring_split with (s := rest).
  - cbn [String.append]. rewrite !append_assoc. reflexivity.
  - str_len.
Qed.

(** The opening-tag pattern on the text of a tag that opens an element. *)
Lemma exec_openingTag_open (name : string) (attrs : list Attribute)
  (slash : bool) :
  name_ok name = true -> forallb tag_attr_ok attrs = true ->
  exec regex.openingTag (open_tag name attrs slash) =
  Some (mkMatch 0 (open_tag name attrs slash) (tag_caps name attrs slash) "").
Proof.
  intros Hname Hattrs. apply exec_from_match_at. unfold match_at.
  change regex.openingTag with (Seq (Lit "<") (Seq regex.ws tagRest)).
  unfold open_tag.
  rewrite rmatch_Seq, rmatch_Lit. cbn [String.append one].
  rewrite Ascii.eqb_refl.
  destruct (name_outside name
              (attrs_from " " attrs ++ (if slash then "/" else "") ++ ">")
              Hname) as [Hsp _].
  rewrite rmatch_Seq, ws_skip_eq by exact Hsp.
  replace (name ++ attrs_from " " attrs ++ (if slash then "/" else "") ++ ">")
    with (name ++ attrs_from " " attrs ++ (if slash then "/" else "") ++ ">" ++ "")
    by reflexivity.
  apply tagRest_run; [exact Hname | exact Hattrs |].
  rewrite app_nil_r. do 2 f_equal.
  apply substring_split with (s := "").
  - cbn [String.append]. rewrite append_nil_r. reflexivity.
  - str_len.
Qed.

Lemma all_chars_app (p : ascii -> bool) (a b : string) :
  JsString.all_chars p (a ++ b) =
  JsString.all_chars p a && JsString.all_chars p b.
Proof.
  induction a as [|c a IH]; simpl; [reflexivity|].
  rewrite IH. apply andb_assoc.
Qed.

Lemma name_notLt (name : string) :
  JsString.all_chars nameCharB name = true ->
  JsString.all_chars notLt name = true.
Proof.
  induction name as [|b s IH]; cbn [JsString.all_chars]; [reflexivity|].
  intros H.
  apply andb_prop in H. destruct H as [Hb Hs]. rewrite (IH Hs).
  apply nameCharB_inv in Hb. destruct Hb as (_ & _ & Hb & _).
  unfold notLt. rewrite Hb. reflexivity.
Qed.

(** The opening-tag pattern finds nothing in a closing tag. *)
Lemma exec_openingTag_close (name : string) :
  name_ok name = true -> exec regex.openingTag (close_tag name) = None.
Proof.
  intros Hname. unfold exec, close_tag. cbn [String.append exec_from].
  assert (E : match_at regex.openingTag (String "<" (String "/" (name ++ ">")))
                0 = None).
  { unfold match_at.
    change regex.openingTag with (Seq (Lit "<") (Seq regex.ws tagRest)).
    rewrite rmatch_Seq, rmatch_Lit. cbn [one]. rewrite Ascii.eqb_refl.
    rewrite rmatch_Seq, ws_skip_eq by reflexivity.
    unfold tagRest. cbn [cat]. rewrite rmatch_Seq, rmatch_Grp.
    unfold regex.nameChar. apply plus_class_fail. reflexivity. }
  rewrite E.
  apply exec_from_begins_with with (ch := "<"%char); [reflexivity|].
  apply name_ok_inv in Hname. destruct Hname as (_ & Hn & _).
  change (JsString.all_chars notLt ("/" ++ name ++ ">") = true).
  rewrite !all_chars_app. rewrite (name_notLt _ Hn). reflexivity.
Qed.

Lemma exec_from_text (r : re) (pre rest : string) :
  begins_with "<" r = true ->
  JsString.all_chars notLt pre = true ->
  forall i, exec_from r (pre ++ rest) i =
            exec_from r rest (i + String.length pre).
Proof.
  intros Hb Hpre i. apply exec_from_skip.
  intros a b j -> Hne. unfold match_at.
  apply begins_with_no_match with (ch := "<"%char); [exact Hb|].
  rewrite all_chars_app in Hpre. apply andb_prop in Hpre.
  destruct Hpre as [_ Hpre]. destruct b as [|c b]; [contradiction|].
  simpl in Hpre. apply andb_prop in Hpre. destruct Hpre as [Hc _].
  exact Hc.
Qed.

Lemma push_text_entry (pre T K : string) (caps0 : caps) (st : Stack) :
  push_text host_h (pre ++ T ++ K)
    (Some (mkMatch (String.length pre) T caps0 K)) st =
  (text_entry pre ++ st)%list.
Proof.
  unfold push_text, text_entry. cbn [m_index].
  destruct pre as [|c pre]; [reflexivity|].
  cbn [String.length Nat.eqb negb].
  unfold JsString.substr0.
  change (S (String.length pre)) with (String.length (String c pre)).
  rewrite substring_prefix.
  destruct (JsString.truthy (JsString.trim (String c pre))); reflexivity.
Qed.

Lemma slice_tag (pre T K : string) :
  JsString.slice (String.length pre + String.length T) (pre ++ T ++ K) = K.
Proof. rewrite <- length_append, <- append_assoc. apply slice_append. Qed.

(** An iteration of the loop at a tag that opens an element, with the text
    in front of it. *)
Lemma parse_iter_open (pre name : string) (attrs : list Attribute)
  (slash : bool) (K : string) (st : Stack) :
  JsString.all_chars notLt pre = true ->
  name_ok name = true -> forallb tag_attr_ok attrs = true ->
  parse_iter host_h (pre ++ open_tag name attrs slash ++ K) st =
  Ok (Continue K
        ((host_h name (Some (fold_left store_attr attrs [])) None, slash)
           :: text_entry pre ++ st)%list).
Proof.
  intros Hpre Hname Hattrs.
  assert (E : exec regex.anyTag (pre ++ open_tag name attrs slash ++ K) =
              Some (mkMatch (String.length pre) (open_tag name attrs slash)
                      (tag_caps name attrs slash) K)).
  { unfold exec. rewrite exec_from_text by (reflexivity || exact Hpre).
    apply exec_from_match_at, match_open_tag; assumption. }
  unfold parse_iter. rewrite E.
  cbn [m_index m_text]. rewrite push_text_entry, slice_tag.
  rewrite (exec_openingTag_open name attrs slash Hname Hattrs).
  assert (Hps : match cap (mkMatch 0 (open_tag name attrs slash)
                             (tag_caps name attrs slash) "") 2 with
                | Some raw =>
                    if JsString.truthy raw then parseProps raw else Ok []
                | None => Ok []
                end = Ok (fold_left store_attr attrs [])).
  { destruct attrs as [|a t].
    - destruct slash; reflexivity.
    - assert (Hc : cap (mkMatch 0 (open_tag name (a :: t) slash)
                          (tag_caps name (a :: t) slash) "") 2 =
                   Some (attrs_text (a :: t)))
        by (destruct slash; reflexivity).
      rewrite Hc.
      assert (Hok : forallb attr_ok (a :: t) = true).
      { apply forallb_forall. intros y Hy.
        rewrite forallb_forall in Hattrs. specialize (Hattrs y Hy).
        unfold tag_attr_ok in Hattrs. apply andb_prop in Hattrs.
        apply Hattrs. }
      rewrite (parseProps_attrs _ Hok).
      simpl in Hattrs. apply andb_prop in Hattrs. destruct Hattrs as [Ha _].
      rewrite attrs_text_cons.
      destruct (attr_text_starts a (blank_after t ++ attrs_text t) Ha)
        as (b & s & -> & _).
      reflexivity. }
  rewrite Hps. cbn [bind].
  assert (H1 : cap (mkMatch 0 (open_tag name attrs slash)
                      (tag_caps name attrs slash) "") 1 = Some name)
    by (destruct slash, attrs; reflexivity).
  assert (H3 : match cap (mkMatch 0 (open_tag name attrs slash)
                            (tag_caps name attrs slash) "") 3 with
               | Some sl => JsString.truthy sl
               | None => false
               end = slash)
    by (destruct slash, attrs; reflexivity).
  rewrite H1, H3. reflexivity.
Qed.

(** An iteration of the loop at a closing tag, with the text in front of
    it. *)
Lemma parse_iter_close (pre name K : string) (st : Stack) :
  JsString.all_chars notLt pre = true ->
  name_ok name = true ->
  parse_iter host_h (pre ++ close_tag name ++ K) st =
  match unwind (Some name) (text_entry pre ++ st)%list [] with
  | None => Throw (no_opening_tag (close_tag name))
  | Some (container, content, rest) =>
      Ok (Continue K ((fold_left append content container, true) :: rest))
  end.
Proof.
  intros Hpre Hname.
  assert (E : exec regex.anyTag (pre ++ close_tag name ++ K) =
              Some (mkMatch (String.length pre) (close_tag name)
                      [(1, name)] K)).
  { unfold exec. rewrite exec_from_text by (reflexivity || exact Hpre).
    apply exec_from_match_at, match_close_tag; assumption. }
  unfold parse_iter. rewrite E.
  cbn [m_index m_text]. rewrite push_text_entry, slice_tag.
  rewrite (exec_openingTag_close name Hname). reflexivity.
Qed.

(** The last iteration: text and no tag. *)
Lemma parse_iter_text (pre : string) (st : Stack) :
  JsString.all_chars notLt pre = true ->
  parse_iter host_h pre st = Ok (Break (text_entry pre ++ st)%list).
Proof.
  intros Hpre. unfold parse_iter, exec.
  rewrite exec_from_begins_with with (ch := "<"%char);
    [| reflexivity | exact Hpre].
  unfold push_text, text_entry. rewrite substr0_all.
  destruct (JsString.truthy (JsString.trim pre)); reflexivity.
Qed.

(* ================================================================== *)
(** ** Parsing what was printed *)

Lemma parse_loop_fuel (h : NodeConstructor) (f1 : nat) :
  forall f2 html st,
    String.length html < f1 -> String.length html < f2 ->
    parse_loop f1 h html st = parse_loop f2 h html st.
Proof.
  induction f1 as [|f1 IH]; intros f2 html st H1 H2; [lia|].
  destruct f2 as [|f2]; [lia|]. simpl.
  destruct (String.eqb html ""); [reflexivity|].
  destruct (parse_iter h html st) as [[html' st'|st']| | |] eqn:E;
    try reflexivity.
  simpl. apply parse_iter_shorter in E. apply IH; lia.
Qed.

Lemma parse_from_step (h : NodeConstructor) (html html' : string)
  (st st' : Stack) :
  html <> "" ->
  parse_iter h html st = Ok (Continue html' st') ->
  parse_from h html st = parse_from h html' st'.
Proof.
  intros Hne E. unfold parse_from at 1. cbn [parse_loop].
  destruct (String.eqb_spec html "") as [->|_]; [contradiction|].
  rewrite E. cbn [bind]. apply parse_iter_shorter in E.
  unfold parse_from. apply parse_loop_fuel; lia.
Qed.

Lemma parse_from_text (pre : string) (st : Stack) :
  JsString.all_chars notLt pre = true ->
  parse_from host_h pre st = Ok (text_entry pre ++ st)%list.
Proof.
  intros Hpre. unfold parse_from. cbn [parse_loop].
  destruct (String.eqb_spec pre "") as [->|_]; [reflexivity|].
  rewrite parse_iter_text by exact Hpre. reflexivity.
Qed.

Lemma append_tag_nonempty (pre : string) (c : ascii) (s : string) :
  pre ++ String c s <> "".
Proof. destruct pre; discriminate. Qed.

(** Induction on markup with the property at hand for all children. *)
Lemma Markup_induction (P : Markup -> Prop) :
  (forall t, P (MText t)) ->
  (forall name attrs ch, Forall P ch -> P (MElem name attrs ch)) ->
  (forall name attrs, P (MVoid name attrs)) ->
  forall m, P m.
Proof.
  intros Ht He Hv. fix IH 1. intros [t|name attrs ch|name attrs].
  - apply Ht.
  - apply He. induction ch as [|c t IHt]; constructor; [apply IH | exact IHt].
  - apply Hv.
Qed.

Lemma text_entry_type (pre : string) (vn : VNode) (b : bool) :
  In (vn, b) (text_entry pre) -> type vn = "#text" /\ b = false.
Proof.
  unfold text_entry. destruct (JsString.truthy (JsString.trim pre));
    [|intros []].
  intros [H|[]]. injection H as <- <-. auto.
Qed.

Lemma entries_open (ts : list Markup) :
  forall pre vn, In (vn, false) (entries pre ts) -> type vn = "#text".
Proof.
  induction ts as [|m ts IH]; intros pre vn H; [contradiction|].
  destruct m as [t|name attrs ch|name attrs]; cbn [entries] in H.
  - exact (IH _ _ H).
  - apply in_app_or in H. destruct H as [H|H]; [exact (IH _ _ H)|].
    apply in_app_or in H. destruct H as [H|H].
    + simpl in H. destruct H as [H|[]]. discriminate.
    + apply text_entry_type in H. apply H.
  - apply in_app_or in H. destruct H as [H|H]; [exact (IH _ _ H)|].
    apply in_app_or in H. destruct H as [H|H].
    + simpl in H. destruct H as [H|[]]. discriminate.
    + apply text_entry_type in H. apply H.
Qed.

Lemma pending_notLt (ts : list Markup) :
  forall pre,
    JsString.all_chars notLt pre = true ->
    forallb markup_ok ts = true ->
    JsString.all_chars notLt (pending pre ts) = true.
Proof.
  induction ts as [|m ts IH]; intros pre Hpre Hok; [exact Hpre|].
  simpl in Hok. apply andb_prop in Hok. destruct Hok as [Hm Hok].
  destruct m as [t|name attrs ch|name attrs]; cbn [pending].
  - apply IH; [|exact Hok]. rewrite all_chars_app, Hpre. exact Hm.
  - apply IH; [reflexivity | exact Hok].
  - apply IH; [reflexivity | exact Hok].
Qed.

Lemma rev_text_entry (pre : string) :
  rev (map fst (text_entry pre)) = map fst (text_entry pre).
Proof.
  unfold text_entry. destruct (JsString.truthy (JsString.trim pre));
    reflexivity.
Qed.

Lemma map_fst_closed (l : list VNode) :
  map fst (map (fun vn => (vn, true)) l) = l.
Proof. induction l as [|x l IH]; simpl; [|rewrite IH]; reflexivity. Qed.

(** The entries of a forest, from the bottom of the stack up, are its
    nodes. *)
Lemma entries_nodes (ts : list Markup) :
  forall pre,
    texts_apart ts = true ->
    pre = "" \/ match ts with m :: _ => is_text m = false | [] => True end ->
    rev (map fst (text_entry (pending pre ts) ++ entries pre ts)) =
    (map fst (text_entry pre) ++ flat_map nodes_of ts)%list.
Proof.
  induction ts as [|m ts IH]; intros pre Hap Hpre.
  - cbn [pending entries flat_map]. rewrite !app_nil_r.
    apply rev_text_entry.
  - cbn [texts_apart] in Hap. apply andb_prop in Hap.
    destruct Hap as [Hm Hap].
    assert (Hel : is_text m = false ->
              rev (map fst (text_entry (pending "" ts) ++ entries "" ts ++
                            map (fun vn => (vn, true)) (nodes_of m) ++
                            text_entry pre)) =
              (map fst (text_entry pre) ++ nodes_of m ++
               flat_map nodes_of ts)%list).
    { intros Hm'. rewrite app_assoc, map_app, rev_app_distr.
      rewrite (IH "" Hap (or_introl eq_refl)). cbn [text_entry app map].
      rewrite map_app, rev_app_distr, rev_text_entry, map_fst_closed.
      rewrite <- app_assoc. do 2 f_equal.
      destruct m; [discriminate | reflexivity | reflexivity]. }
    destruct m as [t|name attrs ch|name attrs].
    + destruct Hpre as [->|Hpre]; [|discriminate].
      cbn [pending entries String.append flat_map].
      rewrite IH.
      * change (text_entry "") with (@nil (VNode * bool)). cbn [map app].
        f_equal. cbn [nodes_of]. unfold text_entry.
        destruct (JsString.truthy (JsString.trim t)); reflexivity.
      * exact Hap.
      * destruct ts as [|m' ts']; [right; exact I|]. right.
        cbn [is_text andb] in Hm. apply negb_true_iff in Hm. exact Hm.
    + exact (Hel eq_refl).
    + exact (Hel eq_refl).
Qed.

(** The loop of [parse] over a printed forest, text pending in front of
    it and anything behind it. *)
Lemma parse_from_forest (ts : list Markup) :
  Forall (fun m =>
    markup_ok m = true -> is_text m = false ->
    forall pre K st,
      JsString.all_chars notLt pre = true ->
      parse_from host_h (pre ++ print m ++ K) st =
      parse_from host_h K
        (map (fun vn => (vn, true)) (nodes_of m) ++ text_entry pre ++ st)%list)
    ts ->
  forallb markup_ok ts = true ->
  forall pre K st,
    JsString.all_chars notLt pre = true ->
    parse_from host_h (pre ++ print_forest ts ++ K) st =
    parse_from host_h (pending pre ts ++ K) (entries pre ts ++ st)%list.
Proof.
  intros H. induction H as [|m ts Hm _ IH]; intros Hok pre K st Hpre.
  - reflexivity.
  - simpl in Hok. apply andb_prop in Hok. destruct Hok as [Hmok Hok].
    unfold print_forest. cbn [map flat fold_right].
    fold (flat (map print ts)). fold (print_forest ts).
    assert (Hel : is_text m = false ->
              parse_from host_h (pre ++ (print m ++ print_forest ts) ++ K) st =
              parse_from host_h (pending "" ts ++ K)
                ((entries "" ts ++ map (fun vn => (vn, true)) (nodes_of m) ++
                  text_entry pre) ++ st)%list).
    { intros Hm'. rewrite append_assoc.
      rewrite (Hm Hmok Hm' pre (print_forest ts ++ K) st Hpre).
      rewrite (IH Hok "" K _ eq_refl). rewrite <- !app_assoc. reflexivity. }
    destruct m as [t|name attrs ch|name attrs].
    + cbn [print pending entries]. rewrite append_assoc, <- append_assoc.
      apply IH; [exact Hok|]. rewrite all_chars_app, Hpre. exact Hmok.
    + exact (Hel eq_refl).
    + exact (Hel eq_refl).
Qed.

(** The loop of [parse] over one printed element. *)
Lemma parse_from_element (m : Markup) :
  markup_ok m = true -> is_text m = false ->
  forall pre K st,
    JsString.all_chars notLt pre = true ->
    parse_from host_h (pre ++ print m ++ K) st =
    parse_from host_h K
      (map (fun vn => (vn, true)) (nodes_of m) ++ text_entry pre ++ st)%list.
Proof.
  induction m as [t|name attrs ch IH|name attrs] using Markup_induction;
    intros Hok Htext pre K st Hpre; [discriminate| |].
  - cbn [markup_ok] in Hok. apply andb_prop in Hok. destruct Hok as [Hok Hap].
    apply andb_prop in Hok. destruct Hok as [Hok Hch].
    apply andb_prop in Hok. destruct Hok as [Hname Hattrs].
    cbn [print]. fold (print_forest ch).
    replace (pre ++ (open_tag name attrs false ++ print_forest ch ++
                     close_tag name) ++ K)
      with (pre ++ open_tag name attrs false ++
            (print_forest ch ++ close_tag name ++ K))
      by (rewrite !append_assoc; reflexivity).
    assert (Hne : pre ++ open_tag name attrs false ++
                  (print_forest ch ++ close_tag name ++ K) <> "")
      by (unfold open_tag; cbn [String.append]; apply append_tag_nonempty).
    rewrite (@parse_from_step host_h _ _ _ _ Hne
               (@parse_iter_open pre name attrs false _ st Hpre Hname Hattrs)).
    change (print_forest ch ++ close_tag name ++ K)
      with ("" ++ print_forest ch ++ close_tag name ++ K).
    rewrite (@parse_from_forest ch IH Hch "" (close_tag name ++ K) _ eq_refl).
    assert (Hpend : JsString.all_chars notLt (pending "" ch) = true)
      by (apply pending_notLt; [reflexivity | exact Hch]).
    assert (Hne2 : pending "" ch ++ close_tag name ++ K <> "")
      by (unfold close_tag; cbn [String.append]; apply append_tag_nonempty).
    pose proof (@parse_iter_close (pending "" ch) name K
                  (entries "" ch ++
                   (host_h name (Some (fold_left store_attr attrs [])) None,
                    false) :: text_entry pre ++ st)%list Hpend Hname) as E.
    rewrite app_assoc in E.
    rewrite (@unwind_found name
               (text_entry (pending "" ch) ++ entries "" ch)%list
               (host_h name (Some (fold_left store_attr attrs [])) None)
               (text_entry pre ++ st)%list eq_refl) in E.
    + rewrite app_nil_r in E.
      rewrite (@entries_nodes ch "" Hap (or_introl eq_refl)) in E.
      change (map fst (text_entry "")) with (@nil VNode) in E.
      cbn [app] in E.
      rewrite (@parse_from_step host_h _ _ _ _ Hne2 E). reflexivity.
    + intros vn Hin Hty. apply name_ok_inv in Hname.
      destruct Hname as (_ & _ & Hname). apply Hname. rewrite <- Hty.
      apply in_app_or in Hin. destruct Hin as [Hin|Hin].
      * apply text_entry_type in Hin. apply Hin.
      * apply entries_open in Hin. exact Hin.
  - cbn [markup_ok] in Hok. apply andb_prop in Hok.
    destruct Hok as [Hname Hattrs]. cbn [print].
    assert (Hne : pre ++ open_tag name attrs true ++ K <> "")
      by (unfold open_tag; cbn [String.append]; apply append_tag_nonempty).
    rewrite (@parse_from_step host_h _ _ _ _ Hne
               (@parse_iter_open pre name attrs true K st Hpre Hname Hattrs)).
    reflexivity.
Qed.

(** The loop of [parse] over a printed forest, from the start. *)
Lemma parse_from_printed (ts : list Markup) :
  forallb markup_ok ts = true ->
  parse_from host_h (print_forest ts) [] =
  Ok (text_entry (pending "" ts) ++ entries "" ts)%list.
Proof.
  intros Hok. rewrite <- (append_nil_r (print_forest ts)).
  change (print_forest ts ++ "") with ("" ++ print_forest ts ++ "").
  rewrite (@parse_from_forest ts
             ltac:(apply Forall_forall; intros m _; apply parse_from_element)
             Hok "" "" [] eq_refl).
  rewrite append_nil_r, app_nil_r.
  apply parse_from_text, pending_notLt; [reflexivity | exact Hok].
Qed.

(** Markup that is written out and parsed gives back its nodes: the roots
    in document order, every element with the props that its attributes
    leave on an object ([store_attr]: the names that are array indices first,
    in ascending order, the other names in the order in which they are
    written, and nothing for [__proto__]) and its children in document
    order, every text without the white space around it, and no node for a
    blank text. *)
Theorem parse_print (ts : list Markup) :
  forest_ok ts = true ->
  parse (print_forest ts) host_h = Ok (flat_map nodes_of ts).
Proof.
  unfold forest_ok. intros H. apply andb_prop in H. destruct H as [Hok Hap].
  unfold parse. fold (parse_from host_h (print_forest ts) []).
  rewrite (parse_from_printed ts Hok). cbn [bind]. f_equal.
  exact (@entries_nodes ts "" Hap (or_introl eq_refl)).
Qed.

(** [<ul hidden 2 __proto__ 1><li>one</li><br/> two </ul>] *)
Lemma parse_print_witness :
  parse "<ul hidden 2 __proto__ 1><li>one</li><br/> two </ul>" host_h =
  Ok [Example.element "ul" [("1", VTrue); ("2", VTrue); ("hidden", VTrue)]
        [Example.element "li" [] [Example.text "one"];
         Example.element "br" [] []; Example.text "two"]].
Proof.
  exact (@parse_print
           [MElem "ul" [Flag "hidden"; Flag "2"; Flag "__proto__"; Flag "1"]
              [MElem "li" [] [MText "one"]; MVoid "br" []; MText " two "]]
           eq_refl).
Defined.

(** An element that is never closed stays without children: what follows
    its tag ends up beside it, as further roots. *)
Theorem parse_unclosed_element (name : string) (attrs : list Attribute)
  (ts : list Markup) :
  name_ok name = true -> forallb tag_attr_ok attrs = true ->
  forest_ok ts = true ->
  parse (open_tag name attrs false ++ print_forest ts) host_h =
  Ok (host_h name (Some (fold_left store_attr attrs [])) None
        :: flat_map nodes_of ts).
Proof.
  intros Hname Hattrs H. unfold forest_ok in H. apply andb_prop in H.
  destruct H as [Hok Hap].
  unfold parse.
  fold (parse_from host_h (open_tag name attrs false ++ print_forest ts) []).
  assert (Hne : "" ++ open_tag name attrs false ++ print_forest ts <> "")
    by (unfold open_tag; discriminate).
  change (open_tag name attrs false ++ print_forest ts)
    with ("" ++ open_tag name attrs false ++ print_forest ts).
  rewrite (@parse_from_step host_h _ _ _ _ Hne
             (@parse_iter_open "" name attrs false (print_forest ts) []
                eq_refl Hname Hattrs)).
  rewrite <- (append_nil_r (print_forest ts)).
  change (print_forest ts ++ "") with ("" ++ print_forest ts ++ "").
  rewrite (@parse_from_forest ts
             ltac:(apply Forall_forall; intros m _; apply parse_from_element)
             Hok "" "" _ eq_refl).
  rewrite append_nil_r.
  rewrite parse_from_text by (apply pending_notLt; [reflexivity | exact Hok]).
  cbn [bind text_entry app]. f_equal.
  rewrite app_assoc, map_app, rev_app_distr.
  rewrite (@entries_nodes ts "" Hap (or_introl eq_refl)). reflexivity.
Qed.

(** [<ul><li>one</li>]: the list and its item are roots. *)
Lemma parse_unclosed_element_witness :
  parse "<ul><li>one</li>" host_h =
  Ok [Example.element "ul" [] [];
      Example.element "li" [] [Example.text "one"]].
Proof.
  exact (@parse_unclosed_element "ul" [] [MElem "li" [] [MText "one"]]
           eq_refl eq_refl eq_refl).
Defined.

(* ================================================================== *)
(** ** When code generation returns *)

Section CodeGenReturns.

Variable random : nat -> string.
Variable options : CompilerOptions.

Lemma text_valued_unfold (vn : VNode) :
  text_valued vn =
  (negb (String.eqb (type vn) "#text") || is_some (nodeValue vn)) &&
  forallb text_valued (children vn).
Proof. destruct vn; reflexivity. Qed.

Lemma text_valued_erase (a : VNode) :
  forall b, erase a = erase b -> text_valued a = text_valued b.
Proof.
  induction a as [ty ps ch st nv IH] using VNode_induction.
  intros [ty' ps' ch' st' nv'] E. simpl in E. injection E as <- <- Ech <-.
  simpl. f_equal.
  revert ch' Ech. induction IH as [|c t Hc _ IHt]; intros [|c' t'] Ech;
    try discriminate; [reflexivity|].
  simpl in Ech. injection Ech as Ec Et. simpl.
  rewrite (Hc _ Ec), (IHt _ Et). reflexivity.
Qed.

Lemma own_names_unfold (vn : VNode) :
  own_names vn =
  forallb (fun k => negb (inherited k)) (keys (props vn)) &&
  forallb own_names (children vn).
Proof. destruct vn; reflexivity. Qed.

Lemma own_names_erase (a : VNode) :
  forall b, erase a = erase b -> own_names a = own_names b.
Proof.
  induction a as [ty ps ch st nv IH] using VNode_induction.
  intros [ty' ps' ch' st' nv'] E. simpl in E. injection E as <- <- Ech <-.
  simpl. f_equal.
  revert ch' Ech. induction IH as [|c t Hc _ IHt]; intros [|c' t'] Ech;
    try discriminate; [reflexivity|].
  simpl in Ech. injection Ech as Ec Et. simpl.
  rewrite (Hc _ Ec), (IHt _ Et). reflexivity.
Qed.

Lemma dict_delete_names (f : string -> bool) (k : string) (ps : Dict Value) :
  forallb f (keys ps) = true -> forallb f (keys (dict_delete k ps)) = true.
Proof.
  induction ps as [|[k0 v0] t IH]; simpl; [auto|].
  intros H. apply andb_prop in H. destruct H as [H0 Ht].
  destruct (String.eqb k k0); [exact Ht|]. simpl. rewrite H0. apply IH, Ht.
Qed.

(** Among props without a name of [Object.prototype], the first prop that is
    [in] the directives is a registered directive. *)
Lemma first_directive_named (ps : Dict Value) (prop : string)
  (value : Value) :
  forallb (fun k => negb (inherited k)) (keys ps) = true ->
  first_directive options ps <> Some (BuiltIn prop value).
Proof.
  induction ps as [|[k v] t IH]; simpl; [discriminate|].
  intros H. apply andb_prop in H. destruct H as [Hk Ht].
  destruct (dict_get k (directives options)); [discriminate|].
  apply negb_true_iff in Hk. rewrite Hk. apply IH, Ht.
Qed.

Lemma run_handler_returns (g : Handler) (rest : VNode -> nat -> Gen)
  (w : nat) :
  (forall vn rng, weight vn <= w -> text_valued vn = true ->
     own_names vn = true -> returned_valued (weight vn) (rest vn rng)) ->
  forall vn rng,
    weight vn <= w -> text_valued vn = true -> own_names vn = true ->
    returned_valued (weight vn) (run_handler g rest vn rng).
Proof.
  intros Hrest. induction g as [code|k IH]; intros vn rng Hw Hv Hn; simpl.
  - split; [lia | split; assumption].
  - specialize (Hrest vn rng Hw Hv Hn).
    destruct (rest vn rng) as [[[code vn'] rng']| | |]; simpl in *;
      try contradiction.
    destruct Hrest as (Hw' & Hv' & Hn').
    specialize (IH code vn' rng' ltac:(lia) Hv' Hn').
    destruct (run_handler (k code) rest vn' rng') as [[[c2 vn2] rng2]| | |];
      simpl in *; try contradiction.
    split; [lia | apply IH].
Qed.

Lemma compile_children_returns (compile1 : VNode -> nat -> Gen)
  (ch : list VNode) :
  (forall c rng, In c ch -> returned_valued (weight c) (compile1 c rng)) ->
  forall rng,
    match compile_children compile1 ch rng with
    | Ok (_, ch', _) =>
        weights ch' <= weights ch /\ forallb text_valued ch' = true /\
        forallb own_names ch' = true
    | _ => False
    end.
Proof.
  induction ch as [|c t IH]; intros H rng; simpl;
    [split; [lia|split; reflexivity]|].
  pose proof (H c rng (or_introl eq_refl)) as Hc.
  destruct (compile1 c rng) as [[[code c'] rng1]| | |]; simpl in *;
    try contradiction.
  specialize (IH (fun c0 r0 Hin => H c0 r0 (or_intror Hin)) rng1).
  destruct (compile_children compile1 t rng1) as [[[codes t'] rng2]| | |];
    simpl in *; try contradiction.
  destruct Hc as (Hw & Hv & Hn), IH as (Hws & Hvs & Hns).
  rewrite Hv, Hvs, Hn, Hns.
  fold (weights t'). fold (weights t). split; [lia|split; reflexivity].
Qed.

Lemma compileNode_fuel_returns (fuel : nat) :
  forall vn rng,
    weight vn <= fuel -> text_valued vn = true -> own_names vn = true ->
    returned_valued (weight vn)
      (compileNode_fuel random options fuel vn rng).
Proof.
  induction fuel as [|fuel IH]; intros vn rng Hw Hv Hn.
  - rewrite weight_unfold in Hw. lia.
  - cbn [compileNode_fuel]. rewrite text_valued_unfold in Hv.
    apply andb_prop in Hv. destruct Hv as [Hnv Hch].
    destruct (String.eqb (type vn) "#text") eqn:Et.
    + simpl in Hnv. destruct (nodeValue vn) eqn:En; [|discriminate].
      simpl. split; [lia|]. split; [|exact Hn].
      rewrite text_valued_unfold, Et, En, Hch. reflexivity.
    + pose proof (detectStaticNodes_weight options vn) as Hd.
      pose proof (detectStaticNodes_erase options vn) as He.
      assert (Hv1 : text_valued (snd (detectStaticNodes options vn)) = true).
      { rewrite (text_valued_erase _ _ He), text_valued_unfold, Et, Hch.
        reflexivity. }
      assert (Hn1 : own_names (snd (detectStaticNodes options vn)) = true).
      { rewrite (own_names_erase _ _ He). exact Hn. }
      set (vn1 := snd (detectStaticNodes options vn)) in *.
      rewrite text_valued_unfold in Hv1. apply andb_prop in Hv1.
      destruct Hv1 as [Hnv1 Hch1].
      rewrite own_names_unfold in Hn1. apply andb_prop in Hn1.
      destruct Hn1 as [Hps1 Hcn1].
      destruct (first_directive options (props vn1))
        as [[prop value d|prop value]|] eqn:Ef.
      * apply first_directive_delete in Ef.
        assert (Hlt : weight (set_props (dict_delete prop (props vn1)) vn1)
                      < weight vn1).
        { rewrite (weight_unfold vn1), weight_unfold. simpl. lia. }
        assert (Hw2 : weight (set_props (dict_delete prop (props vn1)) vn1)
                      <= fuel) by lia.
        assert (Hv2 : text_valued
                        (set_props (dict_delete prop (props vn1)) vn1) = true).
        { rewrite text_valued_unfold. simpl. rewrite Hnv1, Hch1.
          reflexivity. }
        assert (Hn2 : own_names
                        (set_props (dict_delete prop (props vn1)) vn1) = true).
        { rewrite own_names_unfold. simpl.
          rewrite (dict_delete_names _ prop _ Hps1), Hcn1. reflexivity. }
        pose proof (@run_handler_returns (d value)
                      (compileNode_fuel random options fuel) fuel IH _ rng
                      Hw2 Hv2 Hn2) as Hr.
        destruct (run_handler _ _ _ _) as [[[c2 vn2] rng2]| | |]; simpl in *;
          try contradiction.
        split; [lia | apply Hr].
      * exfalso. exact (first_directive_named _ Hps1 Ef).
      * destruct (compileProps random options (props vn1) rng)
          as [propsCode rng1].
        assert (Hc : forall c r, In c (children vn1) ->
                  returned_valued (weight c)
                    (compileNode_fuel random options fuel c r)).
        { intros c r Hin. apply IH.
          - apply weights_in in Hin. rewrite (weight_unfold vn1) in Hd. lia.
          - rewrite forallb_forall in Hch1. apply Hch1. exact Hin.
          - rewrite forallb_forall in Hcn1. apply Hcn1. exact Hin. }
        pose proof (compile_children_returns _ _ Hc rng1) as Hr.
        destruct (compile_children _ _ _) as [[[codes ch'] rng2]| | |];
          simpl in *; try contradiction.
        destruct Hr as (Hws & Hvs & Hns). split; [|split].
        -- fold (weights ch'). rewrite <- Hd, (weight_unfold vn1). lia.
        -- rewrite Hvs, andb_true_r. exact Hnv1.
        -- rewrite Hns, andb_true_r. exact Hps1.
Qed.

(** When every text node of a tree has its value and no prop of the tree has
    a name that objects have from [Object.prototype], [compileNode] returns,
    with handlers that return ([Handler]): a handler is handed code whenever
    it asks for the rest, and the node that is left is of the same kind. *)
Theorem compileNode_returns (vn : VNode) (rng : nat) :
  text_valued vn = true ->
  own_names vn = true ->
  exists code vn' rng',
    compileNode random options vn rng = Ok (code, vn', rng') /\
    text_valued vn' = true /\ own_names vn' = true.
Proof.
  intros Hv Hn.
  pose proof (@compileNode_fuel_returns (weight vn) vn rng (le_n _) Hv Hn)
    as H.
  unfold compileNode.
  destruct (compileNode_fuel random options (weight vn) vn rng)
    as [[[code vn'] rng']| | |]; simpl in H; try contradiction.
  exists code, vn', rng'. split; [reflexivity | apply H].
Qed.

End CodeGenReturns.

(** [<p if=QokQ class=QcQ>{{a}} b</p>], Q the double quote, as [parse] makes
    it. *)
Lemma compileNode_returns_witness :
  exists code vn' rng',
    compileNode Example.random Example.options
      (Example.element "p" [("if", VStr "ok"); ("class", VStr "c")]
         [Example.text "{{a}} b"]) 0 =
    Ok (code, vn', rng') /\ text_valued vn' = true /\ own_names vn' = true.
Proof.
  apply (@compileNode_returns Example.random Example.options
           (Example.element "p" [("if", VStr "ok"); ("class", VStr "c")]
              [Example.text "{{a}} b"])
           0); reflexivity.
Defined.

(* ================================================================== *)
(** ** Compiling well-formed markup *)

Lemma forallb_flat_map {T U} (p : U -> bool) (f : T -> list U) (l : list T) :
  (forall x, In x l -> forallb p (f x) = true) ->
  forallb p (flat_map f l) = true.
Proof.
  induction l as [|x t IH]; intros H; simpl; [reflexivity|].
  rewrite forallb_app, (H x (or_introl eq_refl)).
  apply IH. intros y Hy. apply H. right. exact Hy.
Qed.

(** The nodes of well-formed markup have their text values. *)
Lemma nodes_of_valued (m : Markup) :
  markup_ok m = true -> forallb text_valued (nodes_of m) = true.
Proof.
  induction m as [t|name attrs ch IH|name attrs] using Markup_induction;
    intros Hok; cbn [nodes_of].
  - destruct (JsString.truthy (JsString.trim t)); reflexivity.
  - cbn [markup_ok] in Hok. apply andb_prop in Hok. destruct Hok as [Hok _].
    apply andb_prop in Hok. destruct Hok as [Hok Hch].
    apply andb_prop in Hok. destruct Hok as [Hname _].
    apply name_ok_inv in Hname. destruct Hname as (_ & _ & Hname).
    rewrite fold_append. cbn [forallb]. rewrite andb_true_r.
    rewrite text_valued_unfold. cbn [type children set_children host_h app].
    apply String.eqb_neq in Hname. rewrite Hname. cbn [negb orb andb].
    apply forallb_flat_map. intros x Hx.
    rewrite Forall_forall in IH. apply (IH x Hx).
    rewrite forallb_forall in Hch. apply Hch. exact Hx.
  - cbn [markup_ok] in Hok. apply andb_prop in Hok. destruct Hok as [Hname _].
    apply name_ok_inv in Hname. destruct Hname as (_ & _ & Hname).
    cbn [forallb]. rewrite andb_true_r, text_valued_unfold.
    cbn [type children host_h]. apply String.eqb_neq in Hname.
    rewrite Hname. reflexivity.
Qed.

(** Well-formed markup with a root compiles, whatever directives are
    registered, their handlers returning: when the host's constructor builds
    the nodes, no prop of the first root's tree has a name that objects have
    from [Object.prototype], and the engine accepts the body made from the
    code of the first root, [compile] returns the function made from that
    code. *)
Theorem compile_markup (random : nat -> string)
  (newFunction : string -> option Body) (options : CompilerOptions)
  (rng : nat) (ts : list Markup) (root : VNode) (others : list VNode) :
  forest_ok ts = true ->
  has_comment (print_forest ts) = false ->
  f_call (h_of options) = host_h ->
  flat_map nodes_of ts = root :: others ->
  own_names root = true ->
  (forall src vn' rng',
     compileNode random options root rng = Ok (src, vn', rng') ->
     newFunction ("with(sandbox) {return " ++ src ++ "}") <> None) ->
  exists src vn' rng' c,
    compileNode random options root rng = Ok (src, vn', rng') /\
    compile random newFunction (print_forest ts) options rng = Ok (c, rng') /\
    code c = "return " ++ src.
Proof.
  intros Hok Hcom Hh Hroot Hnames Hnew.
  assert (Hv : text_valued root = true).
  { assert (Hall : forallb text_valued (flat_map nodes_of ts) = true).
    { apply forallb_flat_map. intros m Hm. apply nodes_of_valued.
      unfold forest_ok in Hok. apply andb_prop in Hok. destruct Hok as [Hok _].
      rewrite forallb_forall in Hok. apply Hok. exact Hm. }
    rewrite Hroot in Hall. simpl in Hall. apply andb_prop in Hall.
    apply Hall. }
  pose proof (@compileNode_fuel_returns random options (weight root) root rng
                (le_n _) Hv Hnames) as Hr.
  fold (compileNode random options root rng) in Hr.
  destruct (compileNode random options root rng) as [[[src vn'] rng']| | |] eqn:E;
    simpl in Hr; try contradiction.
  specialize (Hnew src vn' rng' eq_refl).
  unfold compile, replace, replace_g. simpl global. cbn [replace_from].
  rewrite exec_from_comments_none by exact Hcom.
  unfold h_of in Hh. rewrite Hh. unfold parse.
  fold (parse_from host_h (print_forest ts) []).
  unfold forest_ok in Hok. apply andb_prop in Hok. destruct Hok as [Hok Hap].
  rewrite (parse_from_printed ts Hok). cbn [bind].
  rewrite (@entries_nodes ts "" Hap (or_introl eq_refl)), Hroot.
  change (map fst (text_entry "")) with (@nil VNode).
  cbn [app compile_forest]. rewrite E. cbn [bind]. unfold saferEval.
  change ("with(sandbox) {" ++ ("return " ++ src) ++ "}")
    with ("with(sandbox) {return " ++ src ++ "}").
  destruct (newFunction ("with(sandbox) {return " ++ src ++ "}"))
    as [func|] eqn:En; [|exfalso; exact (Hnew eq_refl)].
  cbn [bind]. eexists src, vn', rng', _.
  split; [reflexivity|]. split; reflexivity.
Qed.

(** [<p if class=QcQ>{{a}} b</p><i></i>], Q the double quote. *)
Lemma compile_markup_witness :
  exists src vn' rng' c,
    compileNode Example.random Example.options
      (Example.element "p" [("if", VTrue); ("class", VStr "c")]
         [Example.text "{{a}} b"]) 0 =
      Ok (src, vn', rng') /\
    compile Example.random Example.newFunction
      (print_forest
         [MElem "p" [Flag "if"; Pair "class" "c"] [MText "{{a}} b"];
          MElem "i" [] []])
      Example.options 0 = Ok (c, rng') /\
    code c = "return " ++ src.
Proof.
  apply (@compile_markup Example.random Example.newFunction Example.options 0
           [MElem "p" [Flag "if"; Pair "class" "c"] [MText "{{a}} b"];
            MElem "i" [] []]
           (Example.element "p" [("if", VTrue); ("class", VStr "c")]
              [Example.text "{{a}} b"])
           [Example.element "i" [] []]).
  - reflexivity.
  - reflexivity.
  - reflexivity.
  - reflexivity.
  - reflexivity.
  - intros src vn' rng' _. unfold Example.newFunction.
    destruct (String.eqb _ "with(sandbox) {return f}"); [discriminate|].
    destruct (String.eqb _ "with(sandbox) {} return secret; {}");
      discriminate.
Defined.

(* ================================================================== *)
(** ** Text nodes *)

(** A text in which the interpolation pattern cannot match is emitted as
    it is between single quotes: nothing in it is escaped, and a quote in
    the text ends the literal early. *)
Theorem compileNode_text_verbatim (random : nat -> string)
  (options : CompilerOptions) (vn : VNode) (rng : nat) (src : string)
  (ch : ascii) :
  type vn = "#text" -> nodeValue vn = Some src ->
  begins_with ch (source (interpolationRegex options)) = true ->
  JsString.all_chars (fun b => negb (Ascii.eqb ch b)) src = true ->
  compileNode random options vn rng =
  Ok ("h('#text', null, '" ++ src ++ "')", vn, rng).
Proof.
  intros Hty Hnv Hb Hsrc. unfold compileNode. rewrite weight_unfold.
  cbn [compileNode_fuel]. rewrite Hty, Hnv. cbn [String.eqb].
  assert (E : parseInterpolations src (interpolationRegex options) = src).
  { unfold parseInterpolations, replace, replace_g, replace_first, exec.
    destruct (global (interpolationRegex options)).
    - cbn [replace_from].
      rewrite (exec_from_begins_with ch _ Hb) by exact Hsrc. reflexivity.
    - rewrite (exec_from_begins_with ch _ Hb) by exact Hsrc. reflexivity. }
  rewrite E. reflexivity.
Qed.

Lemma compileNode_text_verbatim_witness :
  compileNode Example.random Example.options (Example.text "it's here") 5 =
  Ok ("h('#text', null, 'it's here')", Example.text "it's here", 5).
Proof.
  apply (@compileNode_text_verbatim Example.random Example.options
           (Example.text "it's here") 5 "it's here" "{"%char);
    reflexivity.
Defined.

(** With an interpolation pattern that has no capturing group, here
    [/{{.+?}}/g], the second argument of the callback of [replace] is the
    offset of the match, and that is what lands in the code. *)
Lemma parseInterpolations_without_group :
  parseInterpolations "ab {{x}} c"
    (mkRegExp (cat [Str "{{"; Plus false Dot; Str "}}"]) true) =
  "ab ' + 3 + ' c" /\
  parseInterpolations "ab {{x}} c" Example.interpolation = "ab ' + x + ' c".
Proof. split; vm_compute; reflexivity. Qed.

(* ================================================================== *)
(** ** How the loop of [parse] advances *)

Lemma slice_suffix (n : nat) (s : string) :
  exists p, s = p ++ JsString.slice n s.
Proof.
  revert s. induction n as [|n IH]; intros s; [exists ""; reflexivity|].
  destruct s as [|c t]; [exists ""; reflexivity|].
  destruct (IH t) as [p Hp]. exists (String c p). simpl. rewrite <- Hp.
  reflexivity.
Qed.

(** What an iteration leaves is the end of what it found. *)
Lemma parse_iter_suffix (h : NodeConstructor) (html html' : string)
  (stack stack' : Stack) :
  parse_iter h html stack = Ok (Continue html' stack') ->
  exists tag, html = tag ++ html' /\ 0 < String.length tag.
Proof.
  intros E. pose proof (parse_iter_shorter _ _ _ E) as Hlen.
  assert (Hs : exists n, html' = JsString.slice n html).
  { unfold parse_iter in E.
    destruct (exec regex.anyTag html) as [nextTag|]; [|discriminate].
    destruct (exec regex.openingTag (m_text nextTag)).
    - destruct (match cap m 2 with
                | Some raw =>
                    if JsString.truthy raw then parseProps raw else Ok []
                | None => Ok []
                end); simpl in E; try discriminate.
      injection E as <- _. eexists. reflexivity.
    - destruct (unwind _ _ _) as [[[? ?] ?]|]; [|discriminate].
      injection E as <- _. eexists. reflexivity. }
  destruct Hs as [n ->]. destruct (slice_suffix n html) as [p Hp].
  exists p. split; [exact Hp|].
  rewrite Hp in Hlen at 2. rewrite length_append in Hlen. lia.
Qed.

(** Every iteration of the loop of [parse] that goes on has taken at least
    one character from the front of what was left, whatever the constructor:
    after [n] iterations what is left is the input without its first
    characters, [n] of them or more.  The loop therefore makes no more
    iterations than the input has characters. *)
Theorem parse_progress (h : NodeConstructor) (n : nat) :
  forall (html html' : string) (stack stack' : Stack),
    parse_steps n h html stack = Some (html', stack') ->
    exists consumed,
      html = consumed ++ html' /\ n <= String.length consumed.
Proof.
  induction n as [|n IH]; intros html html' stack stack' E; simpl in E.
  - injection E as <- _. exists "". split; [reflexivity | simpl; lia].
  - destruct (String.eqb html ""); [discriminate|].
    destruct (parse_iter h html stack) as [[html1 stack1|]| | |] eqn:Ei;
      try discriminate.
    apply parse_iter_suffix in Ei. destruct Ei as (tag & -> & Htag).
    apply IH in E. destruct E as (consumed & -> & Hn).
    exists (tag ++ consumed). rewrite append_assoc. split; [reflexivity|].
    rewrite length_append. lia.
Qed.

(** Two iterations on [<a>x</a>]: the opening tag, the text and the
    closing tag are gone. *)
Lemma parse_progress_witness :
  parse_steps 2 host_h "<a>x</a>" [] =
    Some ("", [(Example.element "a" [] [Example.text "x"], true)]) /\
  exists consumed,
    "<a>x</a>" = consumed ++ "" /\ 2 <= String.length consumed.
Proof.
  split; [vm_compute; reflexivity|].
  apply (@parse_progress host_h 2 "<a>x</a>" "" []
           [(Example.element "a" [] [Example.text "x"], true)]).
  vm_compute. reflexivity.
Defined.
